(** * radicast: the capture-and-retry engine, embedded and verified

    A shallow embedding of the Go sources of radicast (radiko.go, the
    converter command factory and the parts of the feed server that read
    what the recorder saved), followed by the properties of the engine.

    Go strings are byte strings: they are modelled by [string], whose
    characters are the 256 values of [ascii].  Unix times, durations and
    instants are [Z], in seconds. *)

From Stdlib Require Import ZArith Lia Bool List Ascii String.
From stdpp Require Import base option list gmap strings pretty.
Import ListNotations.

Local Open Scope string_scope.
Local Open Scope Z_scope.

(* ================================================================== *)
(** * Part I: the embedding *)
(* ================================================================== *)

(** ** Errors and results

    A Go [error] value is modelled by its message; [nil] is [None]. *)

Inductive error : Type :=
| ErrMsg (msg : string).

(** The outcome of a Go function returning [(T, error)] on the paths where
    exactly one of the two is meaningful. *)
Inductive result (A : Type) : Type :=
| Ok (a : A)
| Err (e : error).
Arguments Ok {A} a.
Arguments Err {A} e.

Definition errors_New (msg : string) : error := ErrMsg msg.

(** ** Byte-string helpers of the Go standard library *)

Module GoStrings.

(** [strings.HasSuffix] *)
Definition HasSuffix (s suffix : string) : bool :=
  let n := String.length s in
  let k := String.length suffix in
  (k <=? n)%nat && String.eqb (substring (n - k) k s) suffix.

(** [strings.Join] *)
Fixpoint Join (elems : list string) (sep : string) : string :=
  match elems with
  | [] => ""
  | [e] => e
  | e :: rest => e ++ sep ++ Join rest sep
  end.

(** [strings.Count(s, ",")] for the one-byte separator [c]. *)
Fixpoint Count (s : string) (c : ascii) : nat :=
  match s with
  | EmptyString => 0%nat
  | String a rest => ((if Ascii.eqb a c then 1 else 0) + Count rest c)%nat
  end.

End GoStrings.

(** ** External commands

    [exec.Command name args] records the argument vector [name :: args];
    nothing runs until [Run], [Start] or [Wait] is called on it. *)

Record Cmd : Type := mkCmd {
  Path : string;
  Args : list string
}.

Definition exec_Command (name : string) (args : list string) : Cmd :=
  {| Path := name; Args := name :: args |}.

(** ** The converter command factory *)

Module Converter.

(** [regexp.MustCompile("ffmpeg$").MatchString(path)]: the pattern is not
    anchored on the left and [$] (no [m] flag) matches at the end of the
    text only, so the test is a suffix test. *)
Definition match_ffmpeg (path : string) : bool :=
  GoStrings.HasSuffix path "ffmpeg".

Definition match_avconv (path : string) : bool :=
  GoStrings.HasSuffix path "avconv".

Definition newFfmpegCmd (ffmpeg bitrate output title author : string) : Cmd :=
  let metatitle := "title=" ++ title in
  let metaauthor := "artist=" ++ author in
  exec_Command ffmpeg
    [ "-y";
      "-i"; "-";
      "-vn";
      "-acodec"; "copy";
      "-metadata"; metatitle;
      "-metadata"; metaauthor;
      "-metadata"; "genre=radio";
      output ].

Definition newAvconvCmd (avconv bitrate output : string) : Cmd :=
  exec_Command avconv
    [ "-y";
      "-i"; "-";
      "-vn";
      "-c:a"; "copy";
      output ].

Definition newConverterCmd (path bitrate output title author : string)
  : result Cmd :=
  if match_ffmpeg path then
    Ok (newFfmpegCmd path bitrate output title author)
  else if match_avconv path then
    Ok (newAvconvCmd path bitrate output)
  else
    Err (ErrMsg "path should be ffmpeg or avconv").

(** The options a command passes to the converter: its arguments without
    the program name in front and the output file at the end. *)
Definition options (c : Cmd) : list string :=
  removelast (tl (Args c)).

(** The values given with [-metadata] among the options. *)
Fixpoint metadata_values (opts : list string) : list string :=
  match opts with
  | flag :: ((v :: rest') as rest) =>
      if String.eqb flag "-metadata" then v :: metadata_values rest'
      else metadata_values rest
  | _ => []
  end.

End Converter.

(** ** Time: parsing the schedule's timestamps

    [time.ParseInLocation(radikoTimeLayout, s, time.Local)] for the layout
    ["20060102150405"]: four digits of year and two digits each of month,
    day, hour, minute and second, with the range checks of the [time]
    package; a fractional second written after the seconds is accepted and
    does not change the Unix second.  [time.Local] is taken as a zone with a
    fixed offset [loc], in seconds east of UTC. *)

Module GoTime.

Definition isDigit (a : ascii) : bool :=
  let n := nat_of_ascii a in (48 <=? n)%nat && (n <=? 57)%nat.

Definition digit (a : ascii) : Z := Z.of_nat (nat_of_ascii a) - 48.

(** [getnum(s, true)]: exactly two digits. *)
Definition getnum2 (s : list ascii) : option (Z * list ascii) :=
  match s with
  | a :: b :: rest =>
      if isDigit a && isDigit b then Some (digit a * 10 + digit b, rest)
      else None
  | _ => None
  end.

(** The chunk [2006]: exactly four digits. *)
Definition getnum4 (s : list ascii) : option (Z * list ascii) :=
  match s with
  | a :: b :: c :: d :: rest =>
      if isDigit a && isDigit b && isDigit c && isDigit d
      then Some (digit a * 1000 + digit b * 100 + digit c * 10 + digit d, rest)
      else None
  | _ => None
  end.

Definition isLeap (year : Z) : bool :=
  (year mod 4 =? 0) && (negb (year mod 100 =? 0) || (year mod 400 =? 0)).

Definition daysIn (month year : Z) : Z :=
  if month =? 2 then (if isLeap year then 29 else 28)
  else if (month =? 4) || (month =? 6) || (month =? 9) || (month =? 11)
       then 30 else 31.

(** Days from 1970-01-01 to the civil date, in the proleptic Gregorian
    calendar. *)
Definition daysSinceEpoch (year month day : Z) : Z :=
  let y := if month <=? 2 then year - 1 else year in
  let era := y / 400 in
  let yoe := y - era * 400 in
  let mp := if 2 <? month then month - 3 else month + 9 in
  let doy := (153 * mp + 2) / 5 + day - 1 in
  let doe := yoe * 365 + yoe / 4 - yoe / 100 + doy in
  era * 146097 + doe - 719468.

(** [time.Date(...).Unix()] in the zone of offset [loc]. *)
Definition unixDate (loc year month day hour min sec : Z) : Z :=
  daysSinceEpoch year month day * 86400 + hour * 3600 + min * 60 + sec - loc.

Fixpoint dropDigits (s : list ascii) : list ascii :=
  match s with
  | a :: rest => if isDigit a then dropDigits rest else s
  | [] => []
  end.

Definition commaOrPeriod (a : ascii) : bool :=
  Ascii.eqb a "." || Ascii.eqb a ",".

(** What may follow the seconds: nothing, or a fractional second (a
    period or comma and at least one digit) and then nothing. *)
Definition afterSeconds (s : list ascii) : option unit :=
  match s with
  | [] => Some tt
  | p :: d :: rest =>
      if commaOrPeriod p && isDigit d then
        match dropDigits rest with
        | [] => Some tt
        | _ => None
        end
      else None
  | _ => None
  end.

Definition inRange (lo x hi : Z) : bool := (lo <=? x) && (x <=? hi).

(** The Unix second of a timestamp, or [None] where [time.Parse] returns
    an error. *)
Definition ParseInLocation (loc : Z) (value : string) : option Z :=
  '(year, s) ← getnum4 (list_ascii_of_string value);
  '(month, s) ← getnum2 s;
  if negb (inRange 1 month 12) then None else
  '(day, s) ← getnum2 s;
  '(hour, s) ← getnum2 s;
  if negb (inRange 0 hour 23) then None else
  '(min, s) ← getnum2 s;
  if negb (inRange 0 min 59) then None else
  '(sec, s) ← getnum2 s;
  if negb (inRange 0 sec 59) then None else
  _ ← afterSeconds s;
  if negb (inRange 1 day (daysIn month year)) then None else
  Some (unixDate loc year month day hour min sec).

(** The error of a failed parse; its text is not used by the recorder. *)
Definition parseError (value : string) : error :=
  ErrMsg ("parsing time " ++ value ++ ": cannot parse").

End GoTime.

(** ** The data model of radiko.go *)

Definition radikoTimeLayout : string := "20060102150405".
Definition playerUrl : string :=
  "http://radiko.jp/apps/js/flash/myplayer-release.swf".

(** [xml.Name] *)
Record xml_Name : Type := mkName {
  Space : string;
  Local : string
}.

Record RadikoProg : Type := mkProg {
  XMLName : xml_Name;
  Ft : string;
  To : string;
  Ftl : string;
  Tol : string;
  Dur : string;
  Title : string;
  Subtitle : string;
  Pfm : string;
  Desc : string;
  Info : string;
  Url : string
}.

(** One element of [RadikoPrograms.Stations.Station]; the nested anonymous
    structs are flattened, a field being named by its access path. *)
Record StationEntry : Type := mkStation {
  Id : string;
  Name : string;
  Scd_Progs_Date : string;
  Scd_Progs_Prog : list RadikoProg
}.

Record RadikoPrograms : Type := mkPrograms {
  Stations_Station : list StationEntry
}.

Record RadikoResult : Type := mkResult {
  Mp3Path : string;
  Prog : RadikoProg;
  Station : string
}.

(** The receiver of the recorder's methods (its [Result] field is what
    [Run] assigns and is returned by the model of [Run]). *)
Record Radiko : Type := mkRadiko {
  r_Station : string;
  r_Bitrate : string;
  r_Buffer : Z;
  r_Converter : string;
  r_TempDir : string
}.

(** The wall clock: [clock n] is the Unix second returned by the [n]-th
    call of [time.Now()].  Functions that read the clock take the number
    of readings made so far and return it updated. *)
Definition Clock : Type := nat -> Z.

Section Programs.

(** Offset of [time.Local]. *)
Variable loc : Z.

Definition FtTime (p : RadikoProg) : result Z :=
  match GoTime.ParseInLocation loc (Ft p) with
  | Some t => Ok t
  | None => Err (GoTime.parseError (Ft p))
  end.

Definition ToTime (p : RadikoProg) : result Z :=
  match GoTime.ParseInLocation loc (To p) with
  | Some t => Ok t
  | None => Err (GoTime.parseError (To p))
  end.

(** [RadikoProg.Duration]: seconds from now to the end of the program. *)
Definition Duration (clock : Clock) (tick : nat) (p : RadikoProg)
  : result Z * nat :=
  match ToTime p with
  | Err e => (Err e, tick)
  | Ok to => (Ok (to - clock tick), S tick)
  end.

(** The inner loop of [nowProgram] over one station's programs: [Some]
    when the loop returns from the function, [None] when it runs to its
    end. *)
Fixpoint scanProgs (clock : Clock) (tick : nat) (progs : list RadikoProg)
  : option (result RadikoProg) * nat :=
  match progs with
  | [] => (None, tick)
  | prog :: rest =>
      match FtTime prog with
      | Err e => (Some (Err e), tick)
      | Ok ft =>
          match ToTime prog with
          | Err e => (Some (Err e), tick)
          | Ok to =>
              let now := clock tick in
              if (ft <=? now) && (now <? to) then (Some (Ok prog), S tick)
              else scanProgs clock (S tick) rest
          end
      end
  end.

(** The outer loop of [nowProgram] over the stations. *)
Fixpoint scanStations (clock : Clock) (tick : nat) (station : string)
    (stations : list StationEntry) : result RadikoProg * nat :=
  match stations with
  | [] => (Err (errors_New "not found program"), tick)
  | s :: rest =>
      if String.eqb (Id s) station then
        match scanProgs clock tick (Scd_Progs_Prog s) with
        | (Some r, tick') => (r, tick')
        | (None, tick') => scanStations clock tick' station rest
        end
      else scanStations clock tick station rest
  end.

(** [Radiko.nowProgram], given what [todayPrograms] returned. *)
Definition nowProgram (today : result RadikoPrograms) (clock : Clock)
    (tick : nat) (station : string) : result RadikoProg * nat :=
  match today with
  | Err e => (Err e, tick)
  | Ok progs => scanStations clock tick station (Stations_Station progs)
  end.

End Programs.

(** ** Outcomes that may panic

    A Go function either returns or panics (an index out of range is a
    run-time panic, which no caller of the recorder recovers). *)

Inductive outcome (A : Type) : Type :=
| Returned (a : A)
| Panicked (msg : string).
Arguments Returned {A} a.
Arguments Panicked {A} msg.

(** ** The regular expression of the second auth stage

    [FindAllStringSubmatch(s, -1)] for the pattern of [auth]: three greedy
    groups of any characters other than a newline, separated by two
    commas.  Matches are searched from left to right, a later match
    starting where the earlier one ended. *)

Module GoRegexp.

Definition isNewline (a : ascii) : bool := Ascii.eqb a "010".
Definition isComma (a : ascii) : bool := Ascii.eqb a ",".

(** The last group: the longest run of characters other than a
    newline. *)
Fixpoint dotStar (s : list ascii) : list ascii * list ascii :=
  match s with
  | a :: rest =>
      if isNewline a then ([], s)
      else let '(g, r) := dotStar rest in (a :: g, r)
  | [] => ([], [])
  end.

(** [groups k s] matches one group followed by [k] times a comma and a
    group at the start of [s], by backtracking: a group first takes one
    more character and gives it back only when the rest cannot match.
    It returns the groups and what is left of [s]. *)
Fixpoint groups (k : nat) : list ascii -> option (list (list ascii) * list ascii) :=
  match k with
  | O => fun s => let '(g, r) := dotStar s in Some ([g], r)
  | S k' =>
      fix star (s : list ascii) : option (list (list ascii) * list ascii) :=
        let stop :=
          match s with
          | a :: rest =>
              if isComma a then
                match groups k' rest with
                | Some (gs, r) => Some ([] :: gs, r)
                | None => None
                end
              else None
          | [] => None
          end in
        match s with
        | a :: rest =>
            if isNewline a then stop
            else
              match star rest with
              | Some (g :: gs, r) => Some ((a :: g) :: gs, r)
              | _ => stop
              end
        | [] => stop
        end
  end.

(** One match of the pattern at the start of [s]: the whole match, the
    three groups, and the rest of the text. *)
Definition matchHere (s : list ascii) : option (list string * list ascii) :=
  match groups 2 s with
  | Some (gs, r) =>
      let whole := take (length s - length r)%nat s in
      Some (string_of_list_ascii whole :: map string_of_list_ascii gs, r)
  | None => None
  end.

(** All matches, from left to right; [fuel] bounds the number of
    positions tried. *)
Fixpoint findAll (fuel : nat) (s : list ascii) : list (list string) :=
  match fuel with
  | O => []
  | S fuel' =>
      match matchHere s with
      | Some (m, r) => m :: findAll fuel' r
      | None =>
          match s with
          | _ :: rest => findAll fuel' rest
          | [] => []
          end
      end
  end.

Definition FindAllStringSubmatch (s : string) : list (list string) :=
  let l := list_ascii_of_string s in
  findAll (S (length l)) l.

End GoRegexp.

(** ** Authentication

    [Radiko.auth] returns the token of the first exchange and the area read
    from the body of the second.  Everything up to and including the first
    exchange (the player download, [swfextract], the [auth1_fms] request,
    the partial key) is taken by its outcome [stage1]: the token, or the
    first error met.  [stage2] is what the second exchange delivers: the
    body read from the response, or the transport error. *)

Record AuthWorld : Type := mkAuthWorld {
  stage1 : result string;
  stage2 : result string
}.

(** The callback given to [httpDo] for [auth2_fms], on the body read. *)
Definition auth2 (body : string) : outcome (result string) :=
  let matches := GoRegexp.FindAllStringSubmatch body in
  let guard :=
    match matches with
    | [m] => negb (length m =? 4)%nat
    | _ => false
    end in
  if guard then Returned (Err (errors_New "failed to auth"))
  else
    match matches with
    | [] => Panicked "index out of range [0] with length 0"
    | m :: _ =>
        match m with
        | _ :: area :: _ => Returned (Ok area)
        | _ => Panicked "index out of range [1]"
        end
    end.

(** [Radiko.auth]: the token and the area, or an error. *)
Definition auth (w : AuthWorld) : outcome (result (string * string)) :=
  match stage1 w with
  | Err e => Returned (Err e)
  | Ok authtoken =>
      match stage2 w with
      | Err e => Returned (Err e)
      | Ok body =>
          match auth2 body with
          | Panicked msg => Panicked msg
          | Returned (Err e) => Returned (Err e)
          | Returned (Ok area) => Returned (Ok (authtoken, area))
          end
      end
  end.

(** ** Time, contexts and [select]

    The supervisor and the capture call wait on channels.  Their model is
    timed: an instant is a Unix second, every channel operation that can
    proceed is given the instant from which it can, and a [select] takes
    the branch that can proceed first.  When several can at the same
    instant Go picks one at random: the pick is read from an oracle. *)

(** A [context.Context]: the instant at which [Done] is closed, if ever,
    and the error [Err] reports from then on. *)
Record Context : Type := mkContext {
  done_at : option Z;
  ctx_Err : error
}.

Inductive branch : Type :=
| BrStart      (* [<-c] *)
| BrDone       (* [<-ctx.Done()] *)
| BrErrChan    (* [<-errChan] *)
| BrTimer.     (* [<-time.After(...)] *)

(** The earliest instant among the branches, [None] when there is none. *)
Fixpoint earliest (evs : list (branch * Z)) : option Z :=
  match evs with
  | [] => None
  | (_, t) :: rest =>
      match earliest rest with
      | None => Some t
      | Some t' => Some (Z.min t t')
      end
  end.

(** [select]: among the branches that can proceed first, the one the
    oracle picks; [None] when no branch can ever proceed (the goroutine
    blocks for ever). *)
Definition select (pick : nat) (evs : list (branch * Z)) : option (branch * Z) :=
  match earliest evs with
  | None => None
  | Some t =>
      let ready := filter (fun ev => snd ev = t) evs in
      ready !! (pick mod length ready)%nat
  end.

(** A branch waiting since [now] for something available from [t] on. *)
Definition from (now : Z) (b : branch) (t : option Z) : list (branch * Z) :=
  match t with
  | Some t => [(b, Z.max now t)]
  | None => []
  end.

(** A call that returns at an instant, that never returns, or that
    panics at an instant. *)
Inductive returns (A : Type) : Type :=
| ReturnsAt (t : Z) (a : A)
| Never
| PanicsAt (t : Z) (msg : string).
Arguments ReturnsAt {A} t a.
Arguments Never {A}.
Arguments PanicsAt {A} t msg.

(** ** The capture pipeline *)

(** What the two processes of one capture do, given the instant at which
    the capture process is killed (if it is): the error of starting the
    converter, the instant from which [rtmpdumpCmd.Process] is set (by the
    [Start] inside [rtmpdumpCmd.Run()]; [None] when the capture process is
    never started), the instant and error of running the capture process to
    its end, the instant and error of waiting for the converter.  [None]
    is a process that never ends. *)
Record Processes : Type := mkProcesses {
  converter_Start : option error;
  rtmpdump_Process : option Z;
  rtmpdump_Run : option (Z * option error);
  converter_Wait : option (Z * option error)
}.

Record DownloadWorld : Type := mkDownloadWorld {
  lookPath_rtmpdump : result string;
  stdoutPipe : option error;
  processes : Cmd -> Cmd -> option Z -> Processes;
  download_pick : nat
}.

Definition quote : string := String "034"%char EmptyString.

Definition newRtmpdumpCmd (rtmpdump authtoken station sec : string) : Cmd :=
  exec_Command rtmpdump
    [ "--live";
      "--quiet";
      "-r"; "rtmpe://f-radiko.smartstream.ne.jp";
      "--playpath"; "simul-stream.stream";
      "--app"; station ++ "/_definst_";
      "-W"; playerUrl;
      "-C"; "S:" ++ quote ++ quote;
      "-C"; "S:" ++ quote ++ quote;
      "-C"; "S:" ++ quote ++ quote;
      "-C"; "S:" ++ authtoken;
      "--stop"; sec;
      "-o"; "-" ].

(** The two commands [download] builds before it runs anything. *)
Definition downloadCmds (converter : string) (w : DownloadWorld)
    (authtoken station sec bitrate output title author : string)
  : result (Cmd * Cmd) :=
  match lookPath_rtmpdump w with
  | Err e => Err e
  | Ok rtmpdump =>
      let rtmpdumpCmd := newRtmpdumpCmd rtmpdump authtoken station sec in
      match Converter.newConverterCmd converter bitrate output title author with
      | Err e => Err e
      | Ok converterCmd => Ok (rtmpdumpCmd, converterCmd)
      end
  end.

(** The goroutine of [download]: start the converter, run the capture
    process, wait for the converter; the first error ends it.  The result
    is the instant from which it offers its error on [errChan]. *)
Definition pipeline (start : Z) (p : Processes) : option (Z * option error) :=
  match converter_Start p with
  | Some e => Some (start, Some e)
  | None =>
      match rtmpdump_Run p with
      | None => None
      | Some (t1, Some e) => Some (t1, Some e)
      | Some (t1, None) =>
          match converter_Wait p with
          | None => None
          | Some (t2, Some e) => Some (t2, Some e)
          | Some (t2, None) => Some (t2, None)
          end
      end
  end.

(** The instant from which [rtmpdumpCmd.Process] is not nil: the
    goroutine reaches [rtmpdumpCmd.Run()] only when the converter has
    started. *)
Definition process_set (p : Processes) : option Z :=
  match converter_Start p with
  | Some _ => None
  | None => rtmpdump_Process p
  end.

Definition nil_dereference : string :=
  "runtime error: invalid memory address or nil pointer dereference".

(** [Radiko.download], called at [start].  When the context is cancelled
    before the goroutine has started the capture process,
    [rtmpdumpCmd.Process] is still nil and [rtmpdumpCmd.Process.Kill()]
    panics. *)
Definition download (converter : string) (w : DownloadWorld) (ctx : Context)
    (start : Z) (authtoken station sec bitrate output title author : string)
  : returns (option error) :=
  match downloadCmds converter w authtoken station sec bitrate output title author with
  | Err e => ReturnsAt start (Some e)
  | Ok (rtmpdumpCmd, converterCmd) =>
      match stdoutPipe w with
      | Some e => ReturnsAt start (Some e)
      | None =>
          let undisturbed := pipeline start (processes w rtmpdumpCmd converterCmd None) in
          match select (download_pick w)
                  (from start BrDone (done_at ctx) ++
                   from start BrErrChan (fst <$> undisturbed))%list with
          | Some (BrDone, t) =>
              (* [rtmpdumpCmd.Process.Kill()] and then [err := <-errChan] *)
              let started :=
                match process_set (processes w rtmpdumpCmd converterCmd None) with
                | Some ts => ts <=? t
                | None => false
                end in
              if negb started then PanicsAt t nil_dereference
              else
                let signal :=
                  match undisturbed with
                  | Some (te, e) =>
                      if te <=? t then Some (te, e)
                      else pipeline start (processes w rtmpdumpCmd converterCmd (Some t))
                  | None => pipeline start (processes w rtmpdumpCmd converterCmd (Some t))
                  end in
                match signal with
                | None => Never
                | Some (te, None) => ReturnsAt (Z.max t te) (Some (ctx_Err ctx))
                | Some (te, Some e) => ReturnsAt (Z.max t te) (Some e)
                end
          | Some (_, t) =>
              match undisturbed with
              | Some (_, e) => ReturnsAt t e
              | None => Never
              end
          | None => Never
          end
      end
  end.

(** ** One capture attempt *)

(** How a call of [record] ends: it returns its two values at an instant,
    it never returns, or it panics. *)
Inductive attempt : Type :=
| Completes (t : Z) (ret : option RadikoResult) (err : option error)
| Hangs
| Crashes (t : Z) (msg : string).

(** What one attempt meets outside the program: the auth exchanges, the
    schedule of an area, the clock, the processes, and whether [os.Stat]
    finds a path once the download has returned. *)
Record RecordWorld : Type := mkRecordWorld {
  w_auth : AuthWorld;
  w_today : string -> result RadikoPrograms;
  w_clock : Clock;
  w_download : DownloadWorld;
  w_stat : string -> bool
}.

Section Recorder.

(** Offset of [time.Local]; [filepath.Join] of two elements;
    [Time.String] of the instant of a Unix second. *)
Variable loc : Z.
Variable filepath_Join : string -> string -> string.
Variable Time_String : Z -> string.

(** [Radiko.record], called at [start].  The requests of [auth] and of
    the schedule take no time in this model: an attempt lasts as long as
    its download. *)
Definition record (r : Radiko) (w : RecordWorld) (ctx : Context) (start : Z)
    (output station bitrate : string) (buffer : Z) : attempt :=
  match auth (w_auth w) with
  | Panicked msg => Crashes start msg
  | Returned (Err e) => Completes start None (Some e)
  | Returned (Ok (authtoken, area)) =>
      match nowProgram loc (w_today w area) (w_clock w) 0 station with
      | (Err e, _) => Completes start None (Some e)
      | (Ok prog, tick) =>
          match Duration loc (w_clock w) tick prog with
          | (Err e, _) => Completes start None (Some e)
          | (Ok duration, _) =>
              let duration := duration + buffer in
              match FtTime loc prog with
              | Err e => Completes start None (Some e)
              | Ok ft =>
                  let title := Title prog ++ " (" ++ Time_String ft ++ ")" in
                  match download (r_Converter r) (w_download w) ctx start
                          authtoken station (pretty duration) bitrate output
                          title (Pfm prog) with
                  | Never => Hangs
                  | PanicsAt t msg => Crashes t msg
                  | ReturnsAt t err =>
                      if w_stat w output then
                        Completes t
                          (Some {| Mp3Path := output;
                                   Station := station;
                                   Prog := prog |})
                          err
                      else Completes t None err
                  end
              end
          end
      end
  end.

(** ** The session supervisor *)

(** The lines [run] logs, with the instant of each. *)
Inductive event : Type :=
| LogStartRecord (t : Z) (output : string)
| LogContextErr (t : Z) (e : error)
| LogErr (t : Z) (err : option error)
| LogTimeout (t : Z)
| LogFinished (t : Z)
| LogGotErr (t : Z) (e : error)
| LogRetryAfter (t : Z) (sec : Z).

(** How [run] ends: it returns its results at an instant, it blocks for
    ever, or the process dies of a panic in the recording goroutine. *)
Inductive session : Type :=
| Finished (t : Z) (results : list RadikoResult) (log : list event)
| Stuck (log : list event)
| Crashed (msg : string) (log : list event)
| OutOfFuel.

(** The variables of [run]: the instant, [retry], [results], the instant
    from which [c] holds a value, the recording goroutine that has not
    delivered its error yet, the number of [select]s made, the log. *)
Record RunState : Type := mkRunState {
  now : Z;
  retry : nat;
  results : list RadikoResult;
  c : option Z;
  flight : option attempt;
  selects : nat;
  log : list event
}.

Definition append_ret (results : list RadikoResult) (ret : option RadikoResult)
  : list RadikoResult :=
  match ret with
  | Some x => (results ++ [x])%list
  | None => results
  end.

(** The instant from which the recording goroutine offers its error on
    [errChan] (a panic is placed at its instant too). *)
Definition delivers (f : option attempt) : option Z :=
  match f with
  | Some (Completes t _ _) => Some t
  | Some (Crashes t _) => Some t
  | _ => None
  end.

(** [results] as [run] reads it at [t]: the goroutine appends to it when
    [record] returns. *)
Definition results_at (t : Z) (st : RunState) : list RadikoResult :=
  match flight st with
  | Some (Completes te ret _) =>
      if te <=? t then append_ret (results st) ret else results st
  | _ => results st
  end.

Section Run.

Variable r : Radiko.
Variable ctx : Context.
(** [r.record(ctx, output, r.Station, r.Bitrate, r.Buffer)] called at an
    instant, and the oracle of the [select]s. *)
Variable recordFn : string -> Z -> attempt.
Variable pick : nat -> nat.

Definition output_of (retry : nat) : string :=
  filepath_Join (r_TempDir r) ("radiko_" ++ pretty retry ++ ".m4a").

(** One iteration of the [for] loop of [run]: the next state, or how
    the session ended. *)
Definition run_step (st : RunState) : RunState + session :=
  match select (pick (selects st))
          (from (now st) BrStart (c st) ++
           from (now st) BrDone (done_at ctx) ++
           from (now st) BrErrChan (delivers (flight st)))%list with
  | None => inr (Stuck (log st))
  | Some (BrStart, t) =>
      let output := output_of (retry st) in
      inl {| now := t; retry := retry st; results := results st;
             c := None;
             flight := Some (recordFn output t);
             selects := S (selects st);
             log := (log st ++ [LogStartRecord t output])%list |}
  | Some (BrDone, t) =>
      let log1 := (log st ++ [LogContextErr t (ctx_Err ctx)])%list in
      match select (pick (S (selects st)))
              (from t BrErrChan (delivers (flight st)) ++
               [(BrTimer, t + 10)])%list with
      | Some (BrErrChan, t') =>
          match flight st with
          | Some (Completes _ ret err) =>
              inr (Finished t' (append_ret (results st) ret)
                     (log1 ++ [LogErr t' err])%list)
          | Some (Crashes _ msg) => inr (Crashed msg log1)
          | _ => inr (Stuck log1)
          end
      | Some (_, t') =>
          inr (Finished t' (results_at t' st) (log1 ++ [LogTimeout t'])%list)
      | None => inr (Stuck log1)
      end
  | Some (_, t) =>
      match flight st with
      | Some (Completes _ ret err) =>
          let results' := append_ret (results st) ret in
          let log1 := (log st ++ [LogFinished t])%list in
          match err with
          | None => inr (Finished t results' log1)
          | Some e =>
              if (retry st <? 5)%nat then
                let sec := 10 in
                inl {| now := t; retry := S (retry st); results := results';
                       c := Some (t + sec);
                       flight := None;
                       selects := S (selects st);
                       log := (log1 ++ [LogGotErr t e; LogRetryAfter t sec])%list |}
              else inr (Finished t results' (log1 ++ [LogGotErr t e])%list)
          end
      | Some (Crashes _ msg) => inr (Crashed msg (log st))
      | _ => inr (Stuck (log st))
      end
  end.

Fixpoint run_loop (fuel : nat) (st : RunState) : session :=
  match fuel with
  | O => OutOfFuel
  | S fuel' =>
      match run_step st with
      | inl st' => run_loop fuel' st'
      | inr s => s
      end
  end.

(** The state before the loop: [retry] is 0, [results] is empty and
    [c] holds the first value. *)
Definition run_init (start : Z) : RunState :=
  {| now := start; retry := 0; results := []; c := Some start;
     flight := None; selects := 0; log := [] |}.

(** [Radiko.run], called at [start].  The loop makes at most two
    iterations for each of the six attempts. *)
Definition run (start : Z) : session :=
  run_loop 13 (run_init start).

End Run.

End Recorder.

(** ** Merging the outputs and ending the session *)

Section Session.

Variable filepath_Join : string -> string -> string.
(** [cmd.Run()] of the converter in concatenation mode. *)
Variable cmd_Run : Cmd -> option error.

(** The command [ConcatOutput] builds. *)
Definition concatCmd (r : Radiko) (dir : string) (results : list RadikoResult)
  : Cmd :=
  let output := filepath_Join dir "radiko_concat.m4a" in
  let outputs := map Mp3Path results in
  let args :=
    [ "-i";
      "concat:" ++ GoStrings.Join outputs "|";
      "-acodec";
      "copy";
      output ] in
  exec_Command (r_Converter r) args.

(** [Radiko.ConcatOutput]. *)
Definition ConcatOutput (r : Radiko) (dir : string) (results : list RadikoResult)
  : outcome (result RadikoResult) :=
  let output := filepath_Join dir "radiko_concat.m4a" in
  match cmd_Run (concatCmd r dir results) with
  | Some err => Returned (Err err)
  | None =>
      match results with
      | [] => Panicked "index out of range [0] with length 0"
      | first :: _ =>
          Returned (Ok {| Mp3Path := output;
                          Station := Station first;
                          Prog := Prog first |})
      end
  end.

(** What [Run] leaves: the field [r.Result] (nil before the call), the
    error returned, and the converter commands that were run. *)
Record RunResult : Type := mkRunResult {
  Result : option RadikoResult;
  Run_err : option error;
  merges : list Cmd
}.

(** The [switch] of [Radiko.Run] on what [run] returned. *)
Definition Run_results (r : Radiko) (results : list RadikoResult)
  : outcome RunResult :=
  match results with
  | [] =>
      Returned {| Result := None;
                  Run_err := Some (ErrMsg "empty outputs");
                  merges := [] |}
  | [single] =>
      Returned {| Result := Some single; Run_err := None; merges := [] |}
  | _ =>
      let cmd := concatCmd r (r_TempDir r) results in
      match ConcatOutput r (r_TempDir r) results with
      | Panicked msg => Panicked msg
      | Returned (Err err) =>
          Returned {| Result := None; Run_err := Some err; merges := [cmd] |}
      | Returned (Ok result) =>
          Returned {| Result := Some result; Run_err := None; merges := [cmd] |}
      end
  end.

(** [Radiko.Run]: [None] when [run] does not return. *)
Definition Run (r : Radiko) (ctx : Context) (recordFn : string -> Z -> attempt)
    (pick : nat -> nat) (start : Z) : option (outcome RunResult) :=
  match run filepath_Join r ctx recordFn pick start with
  | Finished _ results _ => Some (Run_results r results)
  | _ => None
  end.

End Session.

(** ** The file system and the result persister *)

(** The files of the file system, with their contents, and its
    directories. *)
Record FS : Type := mkFS {
  files : gmap string string;
  dirs : gset string
}.

Definition exists_file (fs : FS) (path : string) : bool :=
  bool_decide (is_Some (files fs !! path)).

(** How [RenameOrCopy] goes about its work. *)
Inductive move : Type :=
| Renamed
| Copied
| MoveFails (e : error).

(** What the system calls of one [Save] meet: the error of [os.MkdirAll],
    the way of [RenameOrCopy], the error of [os.Create], and for a failing
    [Encode] the number of bytes written before its error. *)
Record SaveWorld : Type := mkSaveWorld {
  mkdirAll_err : option error;
  renameOrCopy_way : move;
  create_err : option error;
  encode_err : option (nat * error)
}.

Definition MkdirAll (w : SaveWorld) (fs : FS) (dir : string) : FS * option error :=
  match mkdirAll_err w with
  | Some e => (fs, Some e)
  | None => ({| files := files fs; dirs := {[dir]} ∪ dirs fs |}, None)
  end.

(** Modelled from the spec: [RenameOrCopy], whose source is not among the
    files: the persister moves or copies the audio artifact to its new
    path.  A rename takes the file away from the old path, a copy leaves it
    there, and a failure (also for want of the source file) leaves the file
    system as it was. *)
Definition RenameOrCopy (w : SaveWorld) (fs : FS) (oldpath newpath : string)
  : FS * option error :=
  match files fs !! oldpath with
  | None => (fs, Some (ErrMsg ("rename " ++ oldpath ++ ": no such file or directory")))
  | Some content =>
      match renameOrCopy_way w with
      | MoveFails e => (fs, Some e)
      | Renamed =>
          ({| files := <[newpath := content]> (delete oldpath (files fs));
              dirs := dirs fs |}, None)
      | Copied =>
          ({| files := <[newpath := content]> (files fs); dirs := dirs fs |}, None)
      end
  end.

(** [os.Create]: the file exists and is empty. *)
Definition Create (w : SaveWorld) (fs : FS) (path : string) : FS * option error :=
  match create_err w with
  | Some e => (fs, Some e)
  | None => ({| files := <[path := ""]> (files fs); dirs := dirs fs |}, None)
  end.

(** Writing a document through the encoder to a created file. *)
Definition Encode (w : SaveWorld) (fs : FS) (path doc : string) : FS * option error :=
  match encode_err w with
  | Some (n, e) =>
      ({| files := <[path := substring 0 n doc]> (files fs); dirs := dirs fs |},
       Some e)
  | None => ({| files := <[path := doc]> (files fs); dirs := dirs fs |}, None)
  end.

Section Save.

Variable filepath_Join : string -> string -> string.
(** The document [xml.Encoder] writes for a program. *)
Variable xml_Marshal : RadikoProg -> string.

Definition programDir (r : RadikoResult) (dir : string) : string :=
  filepath_Join dir (Ft (Prog r) ++ "_" ++ Station r).

Definition m4aPath (r : RadikoResult) (dir : string) : string :=
  filepath_Join (programDir r dir) "podcast.m4a".

Definition xmlPath (r : RadikoResult) (dir : string) : string :=
  filepath_Join (programDir r dir) "podcast.xml".

(** [RadikoResult.Save]. *)
Definition Save (w : SaveWorld) (fs : FS) (r : RadikoResult) (dir : string)
  : FS * option error :=
  match MkdirAll w fs (programDir r dir) with
  | (fs, Some err) => (fs, Some err)
  | (fs, None) =>
      match RenameOrCopy w fs (Mp3Path r) (m4aPath r dir) with
      | (fs, Some err) => (fs, Some err)
      | (fs, None) =>
          match Create w fs (xmlPath r dir) with
          | (fs, Some err) => (fs, Some err)
          | (fs, None) =>
              match Encode w fs (xmlPath r dir) (xml_Marshal (Prog r)) with
              | (fs, Some err) => (fs, Some err)
              | (fs, None) => (fs, None)
              end
          end
      end
  end.

End Save.

(** ** The metadata sidecar: [encoding/xml] on a program

    [Save] writes a program with [xml.Encoder] and the feed server reads it
    back with [xml.Decoder].  Both are modelled on bytes, for the one type
    they are used at: the encoder as the text it writes for a
    [RadikoProg], the decoder as the tokenizer of [encoding/xml] (start
    tags with attributes, end tags, character data with its references)
    followed by the assignment of attributes and child elements to the
    fields.  Comments, processing instructions, directives, CDATA sections
    and names with a colon or outside ASCII do not occur in a sidecar and
    are not modelled: the tokenizer stops at them as at a syntax error. *)

Module Xml.

(** The code of a byte. *)
Definition code (a : ascii) : Z := Z.of_N (N_of_ascii a).

Definition byte_of (n : Z) : ascii := ascii_of_N (Z.to_N n).

(** *** UTF-8 *)

Definition RuneError : Z := 65533.   (* U+FFFD *)
Definition MaxRune : Z := 1114111.   (* U+10FFFF *)

Definition between (lo x hi : Z) : bool := (lo <=? x) && (x <=? hi).

(** [utf8.DecodeRune]: the first rune of a text and its width in bytes;
    [(RuneError, 1)] for a byte that begins no well-formed encoding and
    [(RuneError, 0)] for the empty text. *)
Definition decodeRune (s : list ascii) : Z * nat :=
  match s with
  | [] => (RuneError, 0%nat)
  | a0 :: rest =>
      let b0 := code a0 in
      if b0 <? 128 then (b0, 1%nat)
      else if between 194 b0 223 then
        match rest with
        | a1 :: _ =>
            let b1 := code a1 in
            if between 128 b1 191
            then ((b0 - 192) * 64 + (b1 - 128), 2%nat)
            else (RuneError, 1%nat)
        | _ => (RuneError, 1%nat)
        end
      else if between 224 b0 239 then
        match rest with
        | a1 :: a2 :: _ =>
            let b1 := code a1 in
            let b2 := code a2 in
            let lo := if b0 =? 224 then 160 else 128 in
            let hi := if b0 =? 237 then 159 else 191 in
            if between lo b1 hi && between 128 b2 191
            then ((b0 - 224) * 4096 + (b1 - 128) * 64 + (b2 - 128), 3%nat)
            else (RuneError, 1%nat)
        | _ => (RuneError, 1%nat)
        end
      else if between 240 b0 244 then
        match rest with
        | a1 :: a2 :: a3 :: _ =>
            let b1 := code a1 in
            let b2 := code a2 in
            let b3 := code a3 in
            let lo := if b0 =? 240 then 144 else 128 in
            let hi := if b0 =? 244 then 143 else 191 in
            if between lo b1 hi && between 128 b2 191 && between 128 b3 191
            then ((b0 - 240) * 262144 + (b1 - 128) * 4096
                  + (b2 - 128) * 64 + (b3 - 128), 4%nat)
            else (RuneError, 1%nat)
        | _ => (RuneError, 1%nat)
        end
      else (RuneError, 1%nat)
  end.

(** [string(rune(n))]: the UTF-8 encoding of a rune, that of U+FFFD for
    a surrogate or a value beyond the last rune. *)
Definition encodeRune (n : Z) : list ascii :=
  if n <? 0 then [byte_of 239; byte_of 191; byte_of 189]
  else if n <? 128 then [byte_of n]
  else if n <? 2048 then [byte_of (192 + n / 64); byte_of (128 + n mod 64)]
  else if between 55296 n 57343 || (MaxRune <? n)
       then [byte_of 239; byte_of 191; byte_of 189]
  else if n <? 65536 then
    [byte_of (224 + n / 4096); byte_of (128 + (n / 64) mod 64);
     byte_of (128 + n mod 64)]
  else
    [byte_of (240 + n / 262144); byte_of (128 + (n / 4096) mod 64);
     byte_of (128 + (n / 64) mod 64); byte_of (128 + n mod 64)].

(** [isInCharacterRange]: the characters XML allows. *)
Definition isInCharacterRange (r : Z) : bool :=
  (r =? 9) || (r =? 10) || (r =? 13)
  || between 32 r 55295 || between 57344 r 65533 || between 65536 r 1114111.

(** A rune the encoder replaces and the decoder refuses. *)
Definition illegal (r : Z) (width : nat) : bool :=
  negb (isInCharacterRange r) || ((r =? RuneError) && (width =? 1)%nat).

(** The check the decoder makes of a text it has read: well-formed UTF-8
    of allowed characters.  [fuel] bounds the number of runes. *)
Fixpoint validRunes (fuel : nat) (s : list ascii) : bool :=
  match fuel with
  | O => match s with [] => true | _ => false end
  | S fuel' =>
      match s with
      | [] => true
      | _ =>
          let '(r, width) := decodeRune s in
          negb (illegal r width) && validRunes fuel' (drop width s)
      end
  end.

Definition validText (s : list ascii) : bool := validRunes (length s) s.

(** *** The encoder *)

(** The escape of a rune in [EscapeText], if it has one. *)
Definition escape_of (r : Z) (width : nat) : option string :=
  if r =? 34 then Some "&#34;"         (* double quote *)
  else if r =? 39 then Some "&#39;"    (* apostrophe *)
  else if r =? 38 then Some "&amp;"
  else if r =? 60 then Some "&lt;"
  else if r =? 62 then Some "&gt;"
  else if r =? 9 then Some "&#x9;"
  else if r =? 10 then Some "&#xA;"
  else if r =? 13 then Some "&#xD;"
  else if illegal r width
       then Some (string_of_list_ascii [byte_of 239; byte_of 191; byte_of 189])
  else None.

(** [escapeText] with [escapeNewline] set, rune by rune. *)
Fixpoint escapeRunes (fuel : nat) (s : list ascii) : list ascii :=
  match fuel with
  | O => []
  | S fuel' =>
      match s with
      | [] => []
      | _ =>
          let '(r, width) := decodeRune s in
          (match escape_of r width with
           | Some esc => list_ascii_of_string esc
           | None => take width s
           end ++ escapeRunes fuel' (drop width s))%list
      end
  end.

Definition EscapeText (s : string) : list ascii :=
  let l := list_ascii_of_string s in escapeRunes (length l) l.

Definition dquote : ascii := "034"%char.

Definition bytes (s : string) : list ascii := list_ascii_of_string s.

(** An attribute of the start tag. *)
Definition attribute (name value : string) : list ascii :=
  (bytes " " ++ bytes name ++ bytes "=" ++ [dquote] ++ EscapeText value
   ++ [dquote])%list.

(** A child element holding a string, on its own line at depth one of
    the indentation of [Save] (four spaces). *)
Definition element (name value : string) : list ascii :=
  (["010"%char] ++ bytes "    " ++ bytes "<" ++ bytes name ++ bytes ">"
   ++ EscapeText value ++ bytes "</" ++ bytes name ++ bytes ">")%list.

(** What [enc.Indent("", "    "); enc.Encode(prog)] writes: the element
    [prog], the five attributes and the six children in the order of the
    fields. *)
Definition MarshalIndent (p : RadikoProg) : list ascii :=
  (bytes "<prog"
   ++ attribute "ft" (Ft p)
   ++ attribute "to" (To p)
   ++ attribute "ftl" (Ftl p)
   ++ attribute "tol" (Tol p)
   ++ attribute "dur" (Dur p)
   ++ bytes ">"
   ++ element "title" (Title p)
   ++ element "subtitle" (Subtitle p)
   ++ element "pfm" (Pfm p)
   ++ element "desc" (Desc p)
   ++ element "info" (Info p)
   ++ element "url" (Url p)
   ++ ["010"%char] ++ bytes "</prog>")%list.

Definition Marshal (p : RadikoProg) : string :=
  string_of_list_ascii (MarshalIndent p).

(** *** The decoder: character data *)

(** Where the reader of a text stands: in plain text, with the two bytes
    read before (zero at the start and after a reference), or inside a
    reference: after the ampersand, after the number sign, in the digits
    of a number (their base, how many, their value), in a name (its
    bytes, last first). *)
Inductive text_state : Type :=
| Plain (b0 b1 : Z)
| Amp
| Hash
| Num (hex : bool) (digits : nat) (n : Z)
| Named (name : list ascii).

(** What a byte does to the text: it goes on, it ends the text (the
    byte is the [<] after character data or the closing quote of an
    attribute value), or it is a syntax error. *)
Inductive text_step_result : Type :=
| Continue (acc : list ascii) (ts : text_state)
| Stop
| Bad.

(** [isNameByte] *)
Definition isNameByte (b : Z) : bool :=
  between 65 b 90 || between 97 b 122 || between 48 b 57
  || (b =? 95) || (b =? 58) || (b =? 46) || (b =? 45) || (128 <=? b).

Definition digit_value (hex : bool) (b : Z) : option Z :=
  if between 48 b 57 then Some (b - 48)
  else if hex && between 97 b 102 then Some (b - 87)
  else if hex && between 65 b 70 then Some (b - 55)
  else None.

(** The five entities every decoder knows. *)
Definition entity (name : string) : option ascii :=
  if String.eqb name "lt" then Some "<"%char
  else if String.eqb name "gt" then Some ">"%char
  else if String.eqb name "amp" then Some "&"%char
  else if String.eqb name "apos" then Some "'"%char
  else if String.eqb name "quot" then Some dquote
  else None.

(** One byte of [Decoder.text] in strict mode; [quote] is the quote of
    the attribute value being read, if one is; [acc] is the text read so
    far, last byte first. *)
Definition text_step (quote : option Z) (acc : list ascii) (ts : text_state)
    (a : ascii) : text_step_result :=
  let b := code a in
  match ts with
  | Plain b0 b1 =>
      if (b0 =? 93) && (b1 =? 93) && (b =? 62) then Bad   (* ]]> *)
      else if b =? 60 then                                 (* < *)
        match quote with None => Stop | Some _ => Bad end
      else if match quote with Some q => b =? q | None => false end then Stop
      else if b =? 38 then Continue acc Amp                (* & *)
      else if b =? 13 then Continue ("010"%char :: acc) (Plain b1 b)
      else if (b1 =? 13) && (b =? 10) then Continue acc (Plain b1 b)
      else Continue (a :: acc) (Plain b1 b)
  | Amp =>
      if b =? 35 then Continue acc Hash                    (* # *)
      else if isNameByte b then Continue acc (Named [a])
      else Bad
  | Hash =>
      if b =? 120 then Continue acc (Num true 0 0)         (* x *)
      else match digit_value false b with
           | Some d => Continue acc (Num false 1 d)
           | None => Bad
           end
  | Num hex digits n =>
      match digit_value hex b with
      | Some d => Continue acc (Num hex (S digits) (n * (if hex then 16 else 10) + d))
      | None =>
          if (b =? 59) && (0 <? digits)%nat && (n <=? MaxRune)   (* ; *)
          then Continue (rev (encodeRune n) ++ acc)%list (Plain 0 0)
          else Bad
      end
  | Named name =>
      if isNameByte b then Continue acc (Named (a :: name))
      else if b =? 59 then
        match entity (string_of_list_ascii (rev name)) with
        | Some c => Continue (c :: acc) (Plain 0 0)
        | None => Bad
        end
      else Bad
  end.

(** *** The decoder: tokens *)

Inductive Token : Type :=
| StartElement (name : string) (attrs : list (string * string))
| EndElement (name : string)
| CharData (data : list ascii).

(** A name the model reads: ASCII letters, digits, [_], [-] and [.],
    not starting with a digit, [-] or [.]. *)
Definition isName (name : list ascii) : bool :=
  match name with
  | [] => false
  | a :: _ =>
      let b := code a in
      (between 65 b 90 || between 97 b 122 || (b =? 95))
      && forallb (fun a => let b := code a in
                           isNameByte b && negb (b =? 58) && (b <? 128)) name
  end.

Definition isSpace (b : Z) : bool :=
  (b =? 32) || (b =? 13) || (b =? 10) || (b =? 9).

(** Where the tokenizer stands.  Names and texts being read are kept
    last byte first; [attrs] are the attributes read so far, last
    first. *)
Inductive mode : Type :=
| Text (acc : list ascii) (ts : text_state)
| Lt
| StartName (acc : list ascii)
| InTag (name : string) (attrs : list (string * string))
| Slash (name : string) (attrs : list (string * string))
| AttrName (name : string) (attrs : list (string * string)) (acc : list ascii)
| AfterAttrName (name : string) (attrs : list (string * string)) (aname : string)
| AfterEq (name : string) (attrs : list (string * string)) (aname : string)
| AttrValue (name : string) (attrs : list (string * string)) (aname : string)
    (q : Z) (acc : list ascii) (ts : text_state)
| EndSlash
| EndName (acc : list ascii)
| AfterEndName (name : string)
| Failed.

(** The tokens delivered so far (last first), the open elements
    (innermost first), and the mode. *)
Record tokenizer : Type := mkTokenizer {
  out : list Token;
  open : list string;
  at_ : mode
}.

Definition fail (t : tokenizer) : tokenizer :=
  {| out := out t; open := open t; at_ := Failed |}.

Definition goto (t : tokenizer) (m : mode) : tokenizer :=
  {| out := out t; open := open t; at_ := m |}.

(** A byte between the attributes of a start tag. *)
Definition in_tag (t : tokenizer) (name : string)
    (attrs : list (string * string)) (a : ascii) : tokenizer :=
  let b := code a in
  if isSpace b then goto t (InTag name attrs)
  else if b =? 47 then goto t (Slash name attrs)          (* / *)
  else if b =? 62 then                                     (* > *)
    {| out := StartElement name (rev attrs) :: out t;
       open := name :: open t;
       at_ := Text [] (Plain 0 0) |}
  else if isNameByte b then goto t (AttrName name attrs [a])
  else fail t.

(** A byte after the name of an attribute. *)
Definition after_attr_name (t : tokenizer) (name : string)
    (attrs : list (string * string)) (aname : string) (a : ascii) : tokenizer :=
  let b := code a in
  if isSpace b then goto t (AfterAttrName name attrs aname)
  else if b =? 61 then goto t (AfterEq name attrs aname)  (* = *)
  else fail t.

(** A byte after the name of an end tag. *)
Definition after_end_name (t : tokenizer) (name : string) (a : ascii)
  : tokenizer :=
  let b := code a in
  if isSpace b then goto t (AfterEndName name)
  else if b =? 62 then
    match open t with
    | top :: rest =>
        if String.eqb top name then
          {| out := EndElement name :: out t; open := rest;
             at_ := Text [] (Plain 0 0) |}
        else fail t
    | [] => fail t
    end
  else fail t.

(** One byte of input. *)
Definition step (t : tokenizer) (a : ascii) : tokenizer :=
  let b := code a in
  match at_ t with
  | Failed => t
  | Text acc ts =>
      match text_step None acc ts a with
      | Continue acc' ts' => goto t (Text acc' ts')
      | Bad => fail t
      | Stop =>
          match acc with
          | [] => goto t Lt
          | _ =>
              if validText (rev acc)
              then {| out := CharData (rev acc) :: out t; open := open t;
                      at_ := Lt |}
              else fail t
          end
      end
  | Lt =>
      if b =? 47 then goto t EndSlash
      else if isNameByte b then goto t (StartName [a])
      else fail t
  | StartName acc =>
      if isNameByte b then goto t (StartName (a :: acc))
      else if isName (rev acc)
           then in_tag t (string_of_list_ascii (rev acc)) [] a
      else fail t
  | InTag name attrs => in_tag t name attrs a
  | Slash name attrs =>
      if b =? 62 then
        {| out := EndElement name :: StartElement name (rev attrs) :: out t;
           open := open t;
           at_ := Text [] (Plain 0 0) |}
      else fail t
  | AttrName name attrs acc =>
      if isNameByte b then goto t (AttrName name attrs (a :: acc))
      else if isName (rev acc)
           then after_attr_name t name attrs (string_of_list_ascii (rev acc)) a
      else fail t
  | AfterAttrName name attrs aname => after_attr_name t name attrs aname a
  | AfterEq name attrs aname =>
      if isSpace b then goto t (AfterEq name attrs aname)
      else if (b =? 34) || (b =? 39)
           then goto t (AttrValue name attrs aname b [] (Plain 0 0))
      else fail t
  | AttrValue name attrs aname q acc ts =>
      match text_step (Some q) acc ts a with
      | Continue acc' ts' => goto t (AttrValue name attrs aname q acc' ts')
      | Bad => fail t
      | Stop =>
          if validText (rev acc)
          then goto t (InTag name
                         ((aname, string_of_list_ascii (rev acc)) :: attrs))
          else fail t
      end
  | EndSlash =>
      if isNameByte b then goto t (EndName [a]) else fail t
  | EndName acc =>
      if isNameByte b then goto t (EndName (a :: acc))
      else if isName (rev acc)
           then after_end_name t (string_of_list_ascii (rev acc)) a
      else fail t
  | AfterEndName name => after_end_name t name a
  end.

Definition start : tokenizer :=
  {| out := []; open := []; at_ := Text [] (Plain 0 0) |}.

(** The tokens the decoder can deliver from a document, in order: those
    read before the end of the input or the first syntax error.  At the
    end of the input a text in progress is delivered too. *)
Definition tokens (doc : list ascii) : list Token :=
  let t := fold_left step doc start in
  match at_ t with
  | Text (a :: acc) (Plain _ _) =>
      if validText (rev (a :: acc))
      then rev (CharData (rev (a :: acc)) :: out t)
      else rev (out t)
  | _ => rev (out t)
  end.

(** *** The decoder: a program from the tokens *)

Definition set_attr (p : RadikoProg) (attr : string * string) : RadikoProg :=
  let '(name, v) := attr in
  if String.eqb name "ft" then
    mkProg (XMLName p) v (To p) (Ftl p) (Tol p) (Dur p) (Title p) (Subtitle p)
      (Pfm p) (Desc p) (Info p) (Url p)
  else if String.eqb name "to" then
    mkProg (XMLName p) (Ft p) v (Ftl p) (Tol p) (Dur p) (Title p) (Subtitle p)
      (Pfm p) (Desc p) (Info p) (Url p)
  else if String.eqb name "ftl" then
    mkProg (XMLName p) (Ft p) (To p) v (Tol p) (Dur p) (Title p) (Subtitle p)
      (Pfm p) (Desc p) (Info p) (Url p)
  else if String.eqb name "tol" then
    mkProg (XMLName p) (Ft p) (To p) (Ftl p) v (Dur p) (Title p) (Subtitle p)
      (Pfm p) (Desc p) (Info p) (Url p)
  else if String.eqb name "dur" then
    mkProg (XMLName p) (Ft p) (To p) (Ftl p) (Tol p) v (Title p) (Subtitle p)
      (Pfm p) (Desc p) (Info p) (Url p)
  else p.

(** The fields read from child elements. *)
Inductive field : Type :=
| FTitle | FSubtitle | FPfm | FDesc | FInfo | FUrl.

Definition field_of (name : string) : option field :=
  if String.eqb name "title" then Some FTitle
  else if String.eqb name "subtitle" then Some FSubtitle
  else if String.eqb name "pfm" then Some FPfm
  else if String.eqb name "desc" then Some FDesc
  else if String.eqb name "info" then Some FInfo
  else if String.eqb name "url" then Some FUrl
  else None.

Definition set_field (p : RadikoProg) (f : field) (v : string) : RadikoProg :=
  match f with
  | FTitle =>
      mkProg (XMLName p) (Ft p) (To p) (Ftl p) (Tol p) (Dur p) v (Subtitle p)
        (Pfm p) (Desc p) (Info p) (Url p)
  | FSubtitle =>
      mkProg (XMLName p) (Ft p) (To p) (Ftl p) (Tol p) (Dur p) (Title p) v
        (Pfm p) (Desc p) (Info p) (Url p)
  | FPfm =>
      mkProg (XMLName p) (Ft p) (To p) (Ftl p) (Tol p) (Dur p) (Title p)
        (Subtitle p) v (Desc p) (Info p) (Url p)
  | FDesc =>
      mkProg (XMLName p) (Ft p) (To p) (Ftl p) (Tol p) (Dur p) (Title p)
        (Subtitle p) (Pfm p) v (Info p) (Url p)
  | FInfo =>
      mkProg (XMLName p) (Ft p) (To p) (Ftl p) (Tol p) (Dur p) (Title p)
        (Subtitle p) (Pfm p) (Desc p) v (Url p)
  | FUrl =>
      mkProg (XMLName p) (Ft p) (To p) (Ftl p) (Tol p) (Dur p) (Title p)
        (Subtitle p) (Pfm p) (Desc p) (Info p) v
  end.

(** Where [Unmarshal] stands among the tokens: looking for the first
    start element; among the children of [prog]; inside the child of a
    field, [depth] elements deep, with the character data gathered at
    depth zero; skipping an element that belongs to no field. *)
Inductive place : Type :=
| Seeking
| Children
| InField (f : field) (depth : nat) (data : list ascii)
| Skipping (depth : nat).

Definition zero : RadikoProg :=
  mkProg (mkName "" "") "" "" "" "" "" "" "" "" "" "" "".

(** Reading a [RadikoProg] from the tokens; running out of tokens is the
    error the tokenizer stopped at, or the end of the input. *)
Fixpoint unmarshal (pl : place) (p : RadikoProg) (toks : list Token)
  : option RadikoProg :=
  match toks with
  | [] => None
  | tok :: rest =>
      match pl, tok with
      | Seeking, StartElement name attrs =>
          if String.eqb name "prog" then
            let named :=
              mkProg (mkName "" name) (Ft p) (To p) (Ftl p) (Tol p) (Dur p)
                (Title p) (Subtitle p) (Pfm p) (Desc p) (Info p) (Url p) in
            unmarshal Children (fold_left set_attr attrs named) rest
          else None
      | Seeking, _ => unmarshal Seeking p rest
      | Children, StartElement name _ =>
          match field_of name with
          | Some f => unmarshal (InField f 0 []) p rest
          | None => unmarshal (Skipping 0) p rest
          end
      | Children, EndElement _ => Some p
      | Children, CharData _ => unmarshal Children p rest
      | InField f depth data, StartElement _ _ =>
          unmarshal (InField f (S depth) data) p rest
      | InField f O data, EndElement _ =>
          unmarshal Children (set_field p f (string_of_list_ascii data)) rest
      | InField f (S depth) data, EndElement _ =>
          unmarshal (InField f depth data) p rest
      | InField f O data, CharData d =>
          unmarshal (InField f O (data ++ d)) p rest
      | InField f depth data, CharData _ =>
          unmarshal (InField f depth data) p rest
      | Skipping depth, StartElement _ _ => unmarshal (Skipping (S depth)) p rest
      | Skipping O, EndElement _ => unmarshal Children p rest
      | Skipping (S depth), EndElement _ => unmarshal (Skipping depth) p rest
      | Skipping depth, CharData _ => unmarshal (Skipping depth) p rest
      end
  end.

(** [xml.NewDecoder(file).Decode(&prog)] on a fresh [prog]. *)
Definition Unmarshal (doc : string) : option RadikoProg :=
  unmarshal Seeking zero (tokens (list_ascii_of_string doc)).

End Xml.

(** ** Reading the sidecar back

    The feed server's [itemByDir] opens the sidecar of a program directory
    and decodes it into a [RadikoProg]; the feed item it then builds is not
    modelled. *)
Definition itemByDir_prog (fs : FS) (xmlPath : string) : result RadikoProg :=
  match files fs !! xmlPath with
  | None => Err (ErrMsg ("open " ++ xmlPath ++ ": no such file or directory"))
  | Some doc =>
      match Xml.Unmarshal doc with
      | Some prog => Ok prog
      | None => Err (ErrMsg "XML syntax error")
      end
  end.

(** ** Notions used to state the properties *)

(** The number of commas of a text. *)
Fixpoint commas (s : list ascii) : nat :=
  match s with
  | [] => 0
  | a :: rest => (if GoRegexp.isComma a then 1 else 0) + commas rest
  end%nat.

(** The number of comma-separated fields of a body, the length of
    [strings.Split(body, ",")]. *)
Definition fields (body : string) : nat := S (GoStrings.Count body ",").

Section Lookup.

Variable loc : Z.

(** Both timestamps of a program are well formed. *)
Definition wellTimed (p : RadikoProg) : bool :=
  match GoTime.ParseInLocation loc (Ft p), GoTime.ParseInLocation loc (To p) with
  | Some _, Some _ => true
  | _, _ => false
  end.

(** The program is on the air at [now]: its start is not after [now] and
    its end is after [now]. *)
Definition airing (now : Z) (p : RadikoProg) : bool :=
  match GoTime.ParseInLocation loc (Ft p), GoTime.ParseInLocation loc (To p) with
  | Some ft, Some to => (ft <=? now) && (now <? to)
  | _, _ => false
  end.

(** The programs listed under the stations of identifier [station], in
    the order of the schedule. *)
Definition listed (station : string) (sched : RadikoPrograms) : list RadikoProg :=
  flat_map
    (fun s => if String.eqb (Id s) station then Scd_Progs_Prog s else [])
    (Stations_Station sched).

(** [p] is the first program of [progs] on the air at [now]. *)
Definition first_airing (now : Z) (progs : list RadikoProg) (p : RadikoProg)
  : Prop :=
  exists before after,
    progs = (before ++ p :: after)%list
    /\ airing now p = true
    /\ Forall (fun q => airing now q = false) before.

(** The error the lookup returns at a program with a malformed timestamp:
    that of the start when the start is malformed, else that of the end. *)
Definition timeError (p : RadikoProg) : option error :=
  match GoTime.ParseInLocation loc (Ft p) with
  | None => Some (GoTime.parseError (Ft p))
  | Some _ =>
      match GoTime.ParseInLocation loc (To p) with
      | None => Some (GoTime.parseError (To p))
      | Some _ => None
      end
  end.

(** A program the lookup passes over: its timestamps are well formed and
    it is not on the air at [now]. *)
Definition passed (now : Z) (p : RadikoProg) : bool :=
  wellTimed p && negb (airing now p).

(** [p] is the first program of [progs] that is not passed over: every
    program before it is well formed and off the air, and [p] is malformed
    or on the air. *)
Definition stops_at (now : Z) (progs : list RadikoProg) (p : RadikoProg)
  : Prop :=
  exists before after,
    progs = (before ++ p :: after)%list
    /\ passed now p = false
    /\ Forall (fun q => passed now q = true) before.

End Lookup.

(** A clock that stands still at [now]. *)
Definition still (now : Z) : Clock := fun _ => now.

Definition not_found : error := errors_New "not found program".

(** ** A schedule and its worlds, for the examples

    Station TEST1 broadcasts "Morning Show" from 12:00:00 to 13:00:00 on
    the first of January 2024; the local zone is nine hours east of UTC
    and the lookup is made at 12:30:00. *)

Module Example.

Definition jst : Z := 32400.

Definition morning : RadikoProg :=
  {| XMLName := {| Space := ""; Local := "prog" |};
     Ft := "20240101120000"; To := "20240101130000";
     Ftl := "1200"; Tol := "1300"; Dur := "3600";
     Title := "Morning Show"; Subtitle := ""; Pfm := "DJ";
     Desc := ""; Info := ""; Url := "" |}.

(** A [prog] element that came without its [ft] attribute. *)
Definition untimed : RadikoProg :=
  {| XMLName := {| Space := ""; Local := "prog" |};
     Ft := ""; To := "20240101120000";
     Ftl := ""; Tol := "1200"; Dur := "";
     Title := "Night Music"; Subtitle := ""; Pfm := "";
     Desc := ""; Info := ""; Url := "" |}.

Definition schedule : RadikoPrograms :=
  {| Stations_Station :=
       [ {| Id := "TEST1"; Name := "Test One";
            Scd_Progs_Date := "20240101";
            Scd_Progs_Prog := [morning] |} ] |}.

Definition schedule_untimed : RadikoPrograms :=
  {| Stations_Station :=
       [ {| Id := "TEST1"; Name := "Test One";
            Scd_Progs_Date := "20240101";
            Scd_Progs_Prog := [untimed; morning] |} ] |}.

(** 2024-01-01 12:30:00 +0900 *)
Definition half_past_noon : Z := 1704079800.

Definition simple_join (dir name : string) : string := dir ++ "/" ++ name.

Definition radiko : Radiko :=
  {| r_Station := "TEST1"; r_Bitrate := "64k"; r_Buffer := 60;
     r_Converter := "/usr/bin/ffmpeg"; r_TempDir := "/tmp/radicast" |}.

Definition background : Context :=
  {| done_at := None; ctx_Err := ErrMsg "context canceled" |}.

Definition cancelled_at (t : Z) : Context :=
  {| done_at := Some t; ctx_Err := ErrMsg "context canceled" |}.

(** Processes of a capture that breaks after [lasts] seconds, or that
    ends [dies] seconds after it is killed. *)
Definition breaking (start lasts dies : Z) (kill : option Z) : Processes :=
  match kill with
  | None =>
      {| converter_Start := None;
         rtmpdump_Process := Some start;
         rtmpdump_Run := Some (start + lasts, Some (ErrMsg "exit status 1"));
         converter_Wait := Some (start + lasts, None) |}
  | Some t =>
      {| converter_Start := None;
         rtmpdump_Process := Some start;
         rtmpdump_Run := Some (t + dies, Some (ErrMsg "signal: killed"));
         converter_Wait := Some (t + dies, None) |}
  end.

Definition world (start lasts dies : Z) (stat : bool) : RecordWorld :=
  {| w_auth := {| stage1 := Ok "token"; stage2 := Ok "JP13,tokyo,Japan" |};
     w_today := fun _ => Ok schedule;
     w_clock := still half_past_noon;
     w_download :=
       {| lookPath_rtmpdump := Ok "/usr/bin/rtmpdump";
          stdoutPipe := None;
          processes := fun _ _ => breaking start lasts dies;
          download_pick := 0 |};
     w_stat := fun _ => stat |}.

Definition show_time (t : Z) : string := pretty t.

End Example.

(** The outputs of a session of two attempts: the first breaks after 40
    seconds and leaves its file, the second runs to the end. *)
Module Example2.

Definition first_part : RadikoResult :=
  {| Mp3Path := "/tmp/radicast/radiko_0.m4a";
     Prog := Example.morning; Station := "TEST1" |}.

Definition second_part : RadikoResult :=
  {| Mp3Path := "/tmp/radicast/radiko_1.m4a";
     Prog := Example.morning; Station := "TEST1" |}.

Definition flaky (output : string) (t : Z) : attempt :=
  if String.eqb output "/tmp/radicast/radiko_0.m4a"
  then Completes (t + 40) (Some first_part) (Some (ErrMsg "exit status 1"))
  else Completes (t + 1750)
         (Some {| Mp3Path := output; Prog := Example.morning; Station := "TEST1" |})
         None.

Definition always_first (n : nat) : nat := 0.

Definition converter_runs (c : Cmd) : option error := None.

(** A file system holding one captured file, and a [Save] whose
    [os.Create] is refused. *)
Definition captured : FS :=
  {| files := {[ "/tmp/radicast/radiko_0.m4a" := "audio" ]}; dirs := ∅ |}.

Definition create_refused : SaveWorld :=
  {| mkdirAll_err := None;
     renameOrCopy_way := Renamed;
     create_err := Some (ErrMsg "open podcast.xml: permission denied");
     encode_err := None |}.

Definition all_well : SaveWorld :=
  {| mkdirAll_err := None; renameOrCopy_way := Renamed;
     create_err := None; encode_err := None |}.

End Example2.

(** ** Reading the log of a session *)

(** The attempts started: the instant and the output path of each. *)
Fixpoint starts (lg : list event) : list (Z * string) :=
  match lg with
  | [] => []
  | LogStartRecord t output :: rest => (t, output) :: starts rest
  | _ :: rest => starts rest
  end.

(** The instants at which the supervisor received the error of an
    attempt in its loop. *)
Fixpoint finishes (lg : list event) : list Z :=
  match lg with
  | [] => []
  | LogFinished t :: rest => t :: finishes rest
  | _ :: rest => finishes rest
  end.

(** The delays before the retries, in seconds. *)
Fixpoint backoffs (lg : list event) : list Z :=
  match lg with
  | [] => []
  | LogRetryAfter _ sec :: rest => sec :: backoffs rest
  | _ :: rest => backoffs rest
  end.

(** The instants at which the supervisor saw its context cancelled. *)
Fixpoint cancellations (lg : list event) : list Z :=
  match lg with
  | [] => []
  | LogContextErr t _ :: rest => t :: cancellations rest
  | _ :: rest => cancellations rest
  end.

(** An attempt function that fails after three seconds, every time. *)
Definition failing (output : string) (t : Z) : attempt :=
  Completes (t + 3) None (Some (ErrMsg "exit status 1")).

(** ** The supervisor's invariant

    Before the supervisor has seen a cancellation: a value in [c] means
    that no goroutine is recording, and every attempt started is either
    the one in flight or has handed its result, if it had one, to
    [results]. *)
Definition supervised (recordFn : string -> Z -> attempt) (st : RunState) : Prop :=
  cancellations (log st) = []
  /\ (c st <> None -> flight st = None)
  /\ forall ts output,
       In (ts, output) (starts (log st)) ->
       flight st = Some (recordFn output ts)
       \/ forall te ret err,
            recordFn output ts = Completes te (Some ret) err ->
            In ret (results st).

(** Worlds for a cancelled capture. *)
Module Example3.

(** Processes that end quietly one second after the capture process is
    killed, and after half an hour if it is not. *)
Definition quiet (start : Z) (kill : option Z) : Processes :=
  match kill with
  | None =>
      {| converter_Start := None;
         rtmpdump_Process := Some start;
         rtmpdump_Run := Some (start + 1800, None);
         converter_Wait := Some (start + 1800, None) |}
  | Some t =>
      {| converter_Start := None;
         rtmpdump_Process := Some start;
         rtmpdump_Run := Some (t + 1, None);
         converter_Wait := Some (t + 1, None) |}
  end.

Definition downloads (procs : option Z -> Processes) : DownloadWorld :=
  {| lookPath_rtmpdump := Ok "/usr/bin/rtmpdump";
     stdoutPipe := None;
     processes := fun _ _ => procs;
     download_pick := 0 |}.

(** [r.record] bound to a context cancelled after five seconds; the
    capture process dies one second after it is killed and the file is
    there. *)
Definition recording (output : string) (t : Z) : attempt :=
  record Example.jst Example.show_time Example.radiko
    (Example.world t 1800 1 true) (Example.cancelled_at 5) t
    output "TEST1" "64k" 60.

End Example3.

Module Example4.

Definition output : string := "/tmp/radicast/radiko_0.m4a".

Definition part : RadikoResult :=
  {| Mp3Path := output; Prog := Example.morning; Station := "TEST1" |}.

Definition cancelled_log : list event :=
  [LogStartRecord 0 output;
   LogContextErr 5 (ErrMsg "context canceled");
   LogErr 6 (Some (ErrMsg "signal: killed"))].


Definition quiet : DownloadWorld :=
  Example3.downloads (Example3.quiet 0).

Definition rtmp : Cmd :=
  newRtmpdumpCmd "/usr/bin/rtmpdump" "token" "TEST1" "1860".

Definition conv : Cmd :=
  Converter.newFfmpegCmd "/usr/bin/ffmpeg" "64k" output "Morning Show" "DJ".

End Example4.

(** ** Notions for the sidecar *)

(** A string the decoder accepts as a text: well-formed UTF-8 of
    characters XML allows. *)
Definition clean (s : string) : Prop :=
  Xml.validText (list_ascii_of_string s) = true.

Definition cleanProg (p : RadikoProg) : Prop :=
  clean (Ft p) /\ clean (To p) /\ clean (Ftl p) /\ clean (Tol p)
  /\ clean (Dur p) /\ clean (Title p) /\ clean (Subtitle p) /\ clean (Pfm p)
  /\ clean (Desc p) /\ clean (Info p) /\ clean (Url p).

(** The program as the decoder fills it: the name of the element and the
    eleven strings. *)
Definition decoded (p : RadikoProg) : RadikoProg :=
  mkProg (mkName "" "prog") (Ft p) (To p) (Ftl p) (Tol p) (Dur p) (Title p)
    (Subtitle p) (Pfm p) (Desc p) (Info p) (Url p).

(** Reading a text byte after byte: [None] when a byte ends the text or is
    a syntax error. *)
Fixpoint text_run (quote : option Z) (acc : list ascii) (ts : Xml.text_state)
    (s : list ascii) : option (list ascii * Xml.text_state) :=
  match s with
  | [] => Some (acc, ts)
  | a :: rest =>
      match Xml.text_step quote acc ts a with
      | Xml.Continue acc' ts' => text_run quote acc' ts' rest
      | _ => None
      end
  end.

(** A byte the reader of a text takes as it is, whatever came before. *)
Definition normal (b : Z) : bool :=
  negb ((b =? 60) || (b =? 62) || (b =? 38) || (b =? 34) || (b =? 39)
        || (b =? 13) || (b =? 10)).

(** The quotes a text is read under: none, the double or the single. *)
Definition quoting (quote : option Z) : Prop :=
  quote = None \/ quote = Some 34 \/ quote = Some 39.

(** The token of the character data of an element, none when empty. *)
Definition chardata (v : list ascii) : list Xml.Token :=
  match v with
  | [] => []
  | _ => [Xml.CharData v]
  end.

(** The line break and indentation before a child element. *)
Definition indent : list ascii :=
  "010"%char :: list_ascii_of_string "    ".

(** The tokens of a child element holding the text [v]. *)
Definition element_tokens (name : string) (v : list ascii) : list Xml.Token :=
  (Xml.CharData indent :: Xml.StartElement name [] :: chardata v
   ++ [Xml.EndElement name])%list.

(** The tokens of the sidecar of a program. *)
Definition sidecar_tokens (p : RadikoProg) : list Xml.Token :=
  ([Xml.StartElement "prog"
      [("ft", Ft p); ("to", To p); ("ftl", Ftl p); ("tol", Tol p);
       ("dur", Dur p)]]
   ++ element_tokens "title" (list_ascii_of_string (Title p))
   ++ element_tokens "subtitle" (list_ascii_of_string (Subtitle p))
   ++ element_tokens "pfm" (list_ascii_of_string (Pfm p))
   ++ element_tokens "desc" (list_ascii_of_string (Desc p))
   ++ element_tokens "info" (list_ascii_of_string (Info p))
   ++ element_tokens "url" (list_ascii_of_string (Url p))
   ++ [Xml.CharData ["010"%char]; Xml.EndElement "prog"])%list.

Module Example5.

(** A program whose title holds a control character, which XML does not
    allow (a Go string may hold any bytes). *)
Definition control : RadikoProg :=
  {| XMLName := {| Space := ""; Local := "prog" |};
     Ft := "20240101120000"; To := "20240101130000";
     Ftl := "1200"; Tol := "1300"; Dur := "3600";
     Title := String "001"%char "Morning Show"; Subtitle := ""; Pfm := "DJ";
     Desc := ""; Info := ""; Url := "" |}.

(** U+FFFD, the replacement character, in UTF-8. *)
Definition replacement : string :=
  String "239"%char (String "191"%char (String "189"%char "")).


End Example5.

(** ** The outputs of a session, in the order of capture *)

(** The result an attempt hands over, if it returns one. *)
Definition ret_of (a : attempt) : option RadikoResult :=
  match a with
  | Completes _ ret _ => ret
  | _ => None
  end.

(** The results of the attempts started at the given instants on the
    given paths, in that order. *)
Definition outputs_of (recordFn : string -> Z -> attempt)
    (started : list (Z * string)) : list RadikoResult :=
  omap (fun s => ret_of (recordFn (snd s) (fst s))) started.

(** [results] holds the results of the attempts started, in the order in
    which they were started; the attempt in flight, the last one started,
    has not handed its result over yet. *)
Definition ordered (recordFn : string -> Z -> attempt) (st : RunState) : Prop :=
  (c st <> None -> flight st = None)
  /\ match flight st with
     | None => results st = outputs_of recordFn (starts (log st))
     | Some a =>
         exists prev ts out,
           starts (log st) = (prev ++ [(ts, out)])%list
           /\ a = recordFn out ts
           /\ results st = outputs_of recordFn prev
     end.

(** What a finished session returns: the results of all the attempts it
    started, in the order of capture, or of all but the last one. *)
Definition in_capture_order (recordFn : string -> Z -> attempt)
    (results : list RadikoResult) (lg : list event) : Prop :=
  results = outputs_of recordFn (starts lg)
  \/ exists prev last,
       starts lg = (prev ++ [last])%list
       /\ results = outputs_of recordFn prev.

(** ** Further notions for the supervisor *)

(** The log a session leaves, however it ends. *)
Definition log_of (s : session) : option (list event) :=
  match s with
  | Finished _ _ lg => Some lg
  | Stuck lg => Some lg
  | Crashed _ lg => Some lg
  | OutOfFuel => None
  end.

(** The iterations the loop of [run] can still make: two for each attempt
    left, one less once the attempt of this round has been started. *)
Definition rounds_left (st : RunState) : nat :=
  (2 * (6 - retry st) - match c st with Some _ => 0 | None => 1 end)%nat.

(** The attempts started are those numbered from 0 up to [retry],
    excluded while a value waits in [c], included once it is taken. *)
Definition paced (output_of : nat -> string) (st : RunState) : Prop :=
  (retry st <= 5)%nat
  /\ match c st with
     | Some _ =>
         flight st = None
         /\ map snd (starts (log st)) = map output_of (seq 0 (retry st))
     | None =>
         map snd (starts (log st)) = map output_of (seq 0 (S (retry st)))
     end.

(** An attempt that returned an error. *)
Definition failed (recordFn : string -> Z -> attempt) (s : Z * string) : Prop :=
  exists te ret e, recordFn (snd s) (fst s) = Completes te ret (Some e).

(** Every attempt started before the one in flight, or every attempt when
    none is in flight, returned an error. *)
Definition retried (recordFn : string -> Z -> attempt) (st : RunState) : Prop :=
  (c st <> None -> flight st = None)
  /\ match flight st with
     | None => Forall (failed recordFn) (starts (log st))
     | Some a =>
         exists prev ts out,
           starts (log st) = (prev ++ [(ts, out)])%list
           /\ a = recordFn out ts
           /\ Forall (failed recordFn) prev
     end.

(** ** Further notions for the second auth stage *)

(** A text without a line break. *)
Definition oneline (s : list ascii) : Prop :=
  Forall (fun a => GoRegexp.isNewline a = false) s.

(** ** Finding the converter

    [lookConverterCommand] asks [exec.LookPath] for [ffmpeg] and then for
    [avconv]; [lookPath] is what [exec.LookPath] answers for a name. *)
Definition lookConverterCommand (lookPath : string -> result string)
  : result string :=
  match lookPath "ffmpeg" with
  | Ok cmd => Ok cmd
  | Err _ =>
      match lookPath "avconv" with
      | Ok cmd => Ok cmd
      | Err _ => Err (ErrMsg "not found converter cmd such also ffmpeg, avconv.")
      end
  end.

(** ** HTTP requests under a context

    [Radiko.httpDo], called at [start]: the request and the callback [f]
    run in a goroutine, which offers the error of [f] on [errChan].
    [callback] tells when and with what error it does so, given the instant
    at which the request is cancelled (if it is); [None] is a callback that
    never returns. *)
Definition httpDo (ctx : Context) (start : Z) (pick : nat)
    (callback : option Z -> option (Z * option error)) : returns (option error) :=
  let undisturbed := callback None in
  match select pick
          (from start BrDone (done_at ctx) ++
           from start BrErrChan (fst <$> undisturbed))%list with
  | Some (BrDone, t) =>
      (* [CancelRequest(req)] and then [err := <-errChan] *)
      let signal :=
        match undisturbed with
        | Some (te, e) => if te <=? t then Some (te, e) else callback (Some t)
        | None => callback (Some t)
        end in
      match signal with
      | None => Never
      | Some (te, None) => ReturnsAt (Z.max t te) (Some (ctx_Err ctx))
      | Some (te, Some e) => ReturnsAt (Z.max t te) (Some e)
      end
  | Some (_, t) =>
      match undisturbed with
      | Some (_, e) => ReturnsAt t e
      | None => Never
      end
  | None => Never
  end.

(** ** The list of stations *)

(** [Radiko.StationList], given what [auth] meets and what [todayPrograms]
    returns for an area. *)
Definition StationList (w : AuthWorld) (today : string -> result RadikoPrograms)
  : outcome (result (list string)) :=
  match auth w with
  | Panicked msg => Panicked msg
  | Returned (Err e) => Returned (Err e)
  | Returned (Ok (_, area)) =>
      match today area with
      | Err e => Returned (Err e)
      | Ok progs => Returned (Ok (map Id (Stations_Station progs)))
      end
  end.

(** ** The feed server on the saved programs *)

Record Server : Type := mkServer {
  Output : string;
  Feed_Title : string;
  Addr : string
}.

(** [os.Stat] succeeds on the files and the directories of the file
    system; the empty path names neither. *)
Definition Stat (fs : FS) (path : string) : bool :=
  negb (String.eqb path "")
  && (exists_file fs path || bool_decide (path ∈ dirs fs)).

(** What an [os.FileInfo] tells that the server uses: the base name and
    the size (of a directory, the size is not modelled and is zero). *)
Record FileInfo : Type := mkFileInfo {
  fi_Name : string;
  fi_Size : nat
}.

(** What the handler of an audio file answers: 404, the content served
    under a name, the handle of a directory given to [http.ServeContent]
    (what that makes of it is not modelled), or 500 for an error. *)
Inductive response : Type :=
| NotFound
| ServeContent (name : string) (content : string)
| ServeDirectory (name : string)
| InternalServerError (e : error).

Section FeedServer.

(** [filepath.Join] of two elements ([Join] of three is taken as the
    [Join] of the first two and the third); [os.Open] may be refused a path
    that exists. *)
Variable filepath_Join : string -> string -> string.
Variable open_err : string -> option error.

(** [Server.pathStat]: the path, its file info and no error, or the empty
    path and the error of [os.Stat]. *)
Definition pathStat (s : Server) (fs : FS) (dir name : string)
  : string * option FileInfo * option error :=
  let p := filepath_Join (filepath_Join (Output s) dir) name in
  if Stat fs p then
    (p,
     Some {| fi_Name := name;
             fi_Size := match files fs !! p with
                        | Some content => String.length content
                        | None => 0
                        end |},
     None)
  else ("", None, Some (ErrMsg ("stat " ++ p ++ ": no such file or directory"))).

Definition server_m4aPath (s : Server) (fs : FS) (dir : string) :=
  pathStat s fs dir "podcast.m4a".

Definition server_xmlPath (s : Server) (fs : FS) (dir : string) :=
  pathStat s fs dir "podcast.xml".

(** The handler of [/podcast/{program}.m4a], behind [errorHandler];
    [dir] is the value of [program]. *)
Definition serve_m4a (s : Server) (fs : FS) (dir : string) : response :=
  let '(m4aPath, m4aStat, _) := server_m4aPath s fs dir in
  if negb (Stat fs m4aPath) then NotFound
  else
    let '(xmlPath, _, _) := server_xmlPath s fs dir in
    if negb (Stat fs xmlPath) then NotFound
    else
      match open_err m4aPath with
      | Some err => InternalServerError err
      | None =>
          let name := match m4aStat with Some fi => fi_Name fi | None => "" end in
          match files fs !! m4aPath with
          | Some content => ServeContent name content
          | None => ServeDirectory name
          end
      end.

(** The fields of a feed item that [itemByDir] fills from the sidecar and
    the audio file (its address and its date are not modelled). *)
Record PodcastItem : Type := mkPodcastItem {
  Item_Title : string;
  ITunesAuthor : string;
  ITunesSummary : string;
  Enclosure_Type : string;
  Enclosure_Length : nat
}.

Variable loc : Z.
Variable Time_String : Z -> string.

(** The zero [time.Time], which [FtTime] returns beside an error:
    0001-01-01 00:00:00 UTC. *)
Definition zeroTime : Z := -62135596800.

(** [Server.itemByDir], without the address and the date of the item;
    [url_err] is the error of [url.Parse] on the address, if any. *)
Definition itemByDir (s : Server) (fs : FS) (url_err : option error)
    (dir : string) : result PodcastItem :=
  match server_m4aPath s fs dir with
  | (_, _, Some err) => Err err
  | (_, m4aStat, None) =>
      match server_xmlPath s fs dir with
      | (_, _, Some err) => Err err
      | (xmlPath, _, None) =>
          match open_err xmlPath with
          | Some err => Err err
          | None =>
              match option_map Xml.Unmarshal (files fs !! xmlPath) with
              | None => Err (ErrMsg ("read " ++ xmlPath ++ ": is a directory"))
              | Some None => Err (ErrMsg "XML syntax error")
              | Some (Some prog) =>
                  match url_err with
                  | Some err => Err err
                  | None =>
                      let ft := match FtTime loc prog with
                                | Ok t => t
                                | Err _ => zeroTime
                                end in
                      Ok {| Item_Title := Title prog ++ " (" ++ Time_String ft ++ ")";
                            ITunesAuthor := Pfm prog;
                            ITunesSummary := Info prog;
                            Enclosure_Type := "audio/mpeg";
                            Enclosure_Length :=
                              match m4aStat with
                              | Some fi => fi_Size fi
                              | None => 0
                              end |}
                  end
              end
          end
      end
  end.

End FeedServer.

(** ** Further worlds, for the examples *)

Module Example6.

(** An [exec.LookPath] that finds avconv only. *)
Definition only_avconv (name : string) : result string :=
  if String.eqb name "avconv" then Ok "/usr/bin/avconv"
  else Err (ErrMsg "executable file not found in $PATH").

Definition server : Server :=
  {| Output := "/var/radicast"; Feed_Title := "radicast"; Addr := ":3355" |}.

Definition opens (path : string) : option error := None.

(** A capture whose capture process is started three seconds after the
    call, and runs for half an hour. *)
Definition slow_start (start : Z) (kill : option Z) : Processes :=
  {| converter_Start := None;
     rtmpdump_Process := Some (start + 3);
     rtmpdump_Run := Some (start + 1800, None);
     converter_Wait := Some (start + 1800, None) |}.

Definition slow : DownloadWorld := Example3.downloads (slow_start 0).

(** An auth exchange whose second answer has four fields. *)
Definition four_fields : AuthWorld :=
  {| stage1 := Ok "token"; stage2 := Ok "JP13,Kanto,tokyo,Japan" |}.

(** A callback of [httpDo] that ends without error after two seconds. *)
Definition two_seconds (cancelled : option Z) : option (Z * option error) :=
  Some (2, None).

End Example6.

(* ================================================================== *)
(** * Part II: properties *)
(* ================================================================== *)

(** ** Byte strings *)

Lemma HasSuffix_inv (s suffix : string) :
  GoStrings.HasSuffix s suffix = true ->
  substring (String.length s - String.length suffix) (String.length suffix) s
  = suffix.
Proof.
  unfold GoStrings.HasSuffix. intros H.
  apply andb_prop in H as [_ H]. now apply String.eqb_eq in H.
Qed.

Lemma avconv_not_ffmpeg (path : string) :
  Converter.match_avconv path = true -> Converter.match_ffmpeg path = false.
Proof.
  intros Ha. destruct (Converter.match_ffmpeg path) eqn:Hf; [|reflexivity].
  apply HasSuffix_inv in Ha. apply HasSuffix_inv in Hf.
  cbn [String.length] in Ha, Hf. rewrite Ha in Hf. discriminate.
Qed.

(** ** The converter command *)

(** C9. The command built for the converter does not depend on the
    bitrate: for any two bitrates the factory returns the same command (or
    the same error), and so does the pair of commands that [download]
    builds; whichever converter is chosen, its command copies the audio
    stream ([-acodec copy] for ffmpeg, [-c:a copy] for avconv). *)
Theorem bitrate_has_no_effect
    (path output title author b1 b2 : string)
    (w : DownloadWorld) (authtoken station sec : string) :
  Converter.newConverterCmd path b1 output title author
  = Converter.newConverterCmd path b2 output title author
  /\ downloadCmds path w authtoken station sec b1 output title author
     = downloadCmds path w authtoken station sec b2 output title author
  /\ match Converter.newConverterCmd path b1 output title author with
     | Ok cmd =>
         exists flag before after,
           (flag = "-acodec" \/ flag = "-c:a")
           /\ Args cmd = (before ++ flag :: "copy" :: after)%list
     | Err _ => True
     end.
Proof.
  split; [reflexivity|]. split; [reflexivity|].
  unfold Converter.newConverterCmd.
  destruct (Converter.match_ffmpeg path).
  - exists "-acodec", [path; "-y"; "-i"; "-"; "-vn"],
      ["-metadata"; "title=" ++ title; "-metadata"; "artist=" ++ author;
       "-metadata"; "genre=radio"; output].
    split; [now left | reflexivity].
  - destruct (Converter.match_avconv path); [|exact I].
    exists "-c:a", [path; "-y"; "-i"; "-"; "-vn"], [output].
    split; [now right | reflexivity].
Qed.

(** C10. When the converter is avconv (its path ends in [avconv]) the
    command is the fixed avconv template around the output path: it gives
    no [-metadata] option and is the same for every title and author.
    Metadata options appear only for ffmpeg, where they are the title, the
    artist and the genre. *)
Theorem avconv_drops_metadata
    (path bitrate output title author : string) :
  Converter.match_avconv path = true ->
  Converter.newConverterCmd path bitrate output title author
  = Ok (mkCmd path [path; "-y"; "-i"; "-"; "-vn"; "-c:a"; "copy"; output])
  /\ (forall title' author',
        Converter.newConverterCmd path bitrate output title' author'
        = Converter.newConverterCmd path bitrate output title author)
  /\ Converter.metadata_values
       (Converter.options
          (mkCmd path [path; "-y"; "-i"; "-"; "-vn"; "-c:a"; "copy"; output]))
     = []
  /\ (forall p cmd,
        Converter.newConverterCmd p bitrate output title author = Ok cmd ->
        Converter.metadata_values (Converter.options cmd) <> [] ->
        Converter.match_ffmpeg p = true
        /\ Converter.metadata_values (Converter.options cmd)
           = ["title=" ++ title; "artist=" ++ author; "genre=radio"]).
Proof.
  intros Ha. pose proof (avconv_not_ffmpeg _ Ha) as Hf.
  unfold Converter.newConverterCmd. rewrite Hf, Ha.
  repeat split; try reflexivity.
  - destruct (Converter.match_ffmpeg p); [reflexivity|].
    destruct (Converter.match_avconv p); [|discriminate].
    injection H as <-. now contradiction H0.
  - destruct (Converter.match_ffmpeg p).
    + injection H as <-. reflexivity.
    + destruct (Converter.match_avconv p); [|discriminate].
      injection H as <-. now contradiction H0.
Qed.

Lemma avconv_drops_metadata_witness :
  Converter.match_avconv "/usr/bin/avconv" = true
  /\ Converter.newConverterCmd "/usr/bin/avconv" "64k" "/tmp/radiko_0.m4a"
       "Morning Show" "DJ"
     = Ok (mkCmd "/usr/bin/avconv"
             ["/usr/bin/avconv"; "-y"; "-i"; "-"; "-vn"; "-c:a"; "copy";
              "/tmp/radiko_0.m4a"]).
Proof.
  split; [reflexivity|].
  apply (avconv_drops_metadata "/usr/bin/avconv" "64k" "/tmp/radiko_0.m4a"
           "Morning Show" "DJ").
  reflexivity.
Defined.

(** ** The second auth stage *)

Lemma Count_commas (s : string) :
  GoStrings.Count s "," = commas (list_ascii_of_string s).
Proof.
  induction s as [|a s IH]; [reflexivity|].
  cbn [GoStrings.Count list_ascii_of_string commas].
  unfold GoRegexp.isComma. now rewrite IH.
Qed.

Lemma groups_unfold (k : nat) (s : list ascii) :
  GoRegexp.groups (S k) s =
  let stop :=
    match s with
    | a :: rest =>
        if GoRegexp.isComma a then
          match GoRegexp.groups k rest with
          | Some (gs, r) => Some ([] :: gs, r)
          | None => None
          end
        else None
    | [] => None
    end in
  match s with
  | a :: rest =>
      if GoRegexp.isNewline a then stop
      else
        match GoRegexp.groups (S k) rest with
        | Some (g :: gs, r) => Some ((a :: g) :: gs, r)
        | _ => stop
        end
  | [] => stop
  end.
Proof. destruct s; reflexivity. Qed.

(** A match of [k] commas needs [k] commas. *)
Lemma groups_commas (k : nat) :
  forall s gs r, GoRegexp.groups k s = Some (gs, r) -> (k <= commas s)%nat.
Proof.
  induction k as [|k IHk]; [intros; lia|].
  induction s as [|a rest IHs]; intros gs r H; rewrite groups_unfold in H.
  - discriminate.
  - cbn zeta in H. cbn [commas].
    assert (Hstop : forall gs r,
               (if GoRegexp.isComma a
                then match GoRegexp.groups k rest with
                     | Some (gs, r) => Some ([] :: gs, r)
                     | None => None
                     end
                else None) = Some (gs, r) ->
               (S k <= (if GoRegexp.isComma a then 1 else 0) + commas rest)%nat).
    { intros gs' r' Hs. destruct (GoRegexp.isComma a); [|discriminate].
      destruct (GoRegexp.groups k rest) as [[gs0 r0]|] eqn:Hg; [|discriminate].
      apply IHk in Hg. lia. }
    destruct (GoRegexp.isNewline a); [now apply Hstop in H|].
    set (star := GoRegexp.groups (S k)) in IHs.
    destruct (GoRegexp.groups (S k) rest) as [[[|g gs0] r0]|] eqn:Hg.
    + now apply Hstop in H.
    + apply IHs in Hg. lia.
    + now apply Hstop in H.
Qed.

Lemma findAll_few_commas (fuel : nat) :
  forall s, (commas s < 2)%nat -> GoRegexp.findAll fuel s = [].
Proof.
  induction fuel as [|fuel IH]; intros s Hs; [reflexivity|].
  cbn [GoRegexp.findAll]. unfold GoRegexp.matchHere.
  destruct (GoRegexp.groups 2 s) as [[gs r]|] eqn:Hg.
  - apply groups_commas in Hg. lia.
  - destruct s as [|a rest]; [reflexivity|].
    apply IH. cbn [commas] in Hs. lia.
Qed.

(** C3. A second-stage body with fewer than three comma-separated fields
    does not make [auth] return the error "failed to auth": the pattern
    finds no match, the guard (which asks for exactly one match) lets the
    empty list of matches through, and reading the first match panics.  No
    area is returned either. *)
Theorem auth_few_fields_panics (authtoken body : string) :
  (fields body < 3)%nat ->
  auth {| stage1 := Ok authtoken; stage2 := Ok body |}
  = Panicked "index out of range [0] with length 0".
Proof.
  intros H. unfold fields in H. rewrite Count_commas in H.
  unfold auth, auth2, GoRegexp.FindAllStringSubmatch. cbn [stage1 stage2].
  rewrite findAll_few_commas by lia. reflexivity.
Qed.

Lemma auth_few_fields_panics_witness :
  (fields "JP13" < 3)%nat
  /\ auth {| stage1 := Ok "token"; stage2 := Ok "JP13" |}
     = Panicked "index out of range [0] with length 0".
Proof.
  split; [vm_compute; lia|].
  apply (auth_few_fields_panics "token" "JP13"). vm_compute. lia.
Defined.

(** ** The current program *)

Lemma find_first {A} (f : A -> bool) (l : list A) (x : A) :
  List.find f l = Some x <->
  exists before after,
    l = (before ++ x :: after)%list /\ f x = true
    /\ Forall (fun y => f y = false) before.
Proof.
  induction l as [|a l IH]; cbn [List.find].
  - split; [discriminate|]. intros (b & c & H & _). now destruct b.
  - destruct (f a) eqn:Hfa.
    + split.
      * intros [= <-]. exists [], l. auto.
      * intros ([|b0 b] & c & H & Hx & Hb).
        -- now injection H as ->.
        -- injection H as <- _. inversion Hb; congruence.
    + rewrite IH. split.
      * intros (b & c & -> & Hx & Hb). exists (a :: b), c. auto.
      * intros ([|b0 b] & c & H & Hx & Hb).
        -- injection H as -> _. congruence.
        -- injection H as <- ->. inversion Hb; subst. eauto.
Qed.

Lemma find_none_Forall {A} (f : A -> bool) (l : list A) :
  List.find f l = None <-> Forall (fun y => f y = false) l.
Proof.
  induction l as [|a l IH]; cbn [List.find].
  - split; auto.
  - destruct (f a) eqn:Hfa.
    + split; [discriminate|]. inversion 1; congruence.
    + rewrite IH. split; [auto|]. now inversion 1.
Qed.

Lemma find_app_l {A} (f : A -> bool) (l1 l2 : list A) :
  List.find f (l1 ++ l2)%list =
  match List.find f l1 with
  | Some x => Some x
  | None => List.find f l2
  end.
Proof.
  induction l1 as [|a l1 IH]; [reflexivity|].
  cbn. now destruct (f a).
Qed.

Section LookupFacts.

Variable loc : Z.

(** What the lookup answers at the program it stops at. *)
Let verdict (q : RadikoProg) : result RadikoProg :=
  match timeError loc q with
  | Some e => Err e
  | None => Ok q
  end.

Let stop (now : Z) (q : RadikoProg) : bool := negb (passed loc now q).

(** The inner loop at a standing clock: it stops at the first program
    that is malformed or on the air, or runs to its end. *)
Lemma scanProgs_stop (now : Z) (progs : list RadikoProg) :
  forall tick,
    fst (scanProgs loc (still now) tick progs)
    = (verdict <$> List.find (stop now) progs).
Proof.
  induction progs as [|p rest IH]; intros tick; [reflexivity|].
  cbn [scanProgs List.find]. unfold FtTime, ToTime.
  assert (Hstop : stop now p
                  = match GoTime.ParseInLocation loc (Ft p),
                          GoTime.ParseInLocation loc (To p) with
                    | Some ft, Some to => (ft <=? now) && (now <? to)
                    | _, _ => true
                    end).
  { unfold stop, passed, wellTimed, airing.
    destruct (GoTime.ParseInLocation loc (Ft p));
      [destruct (GoTime.ParseInLocation loc (To p))|]; try reflexivity.
    cbn [andb]. apply negb_involutive. }
  assert (Hverdict : verdict p
                     = match GoTime.ParseInLocation loc (Ft p),
                             GoTime.ParseInLocation loc (To p) with
                       | Some _, Some _ => Ok p
                       | Some _, None => Err (GoTime.parseError (To p))
                       | None, _ => Err (GoTime.parseError (Ft p))
                       end).
  { unfold verdict, timeError.
    destruct (GoTime.ParseInLocation loc (Ft p));
      [destruct (GoTime.ParseInLocation loc (To p))|]; reflexivity. }
  rewrite Hstop.
  destruct (GoTime.ParseInLocation loc (Ft p)) as [ft|];
    [|cbn; now rewrite Hverdict].
  destruct (GoTime.ParseInLocation loc (To p)) as [to|];
    [|cbn; now rewrite Hverdict].
  unfold still at 1 2.
  destruct ((ft <=? now) && (now <? to)); [cbn; now rewrite Hverdict|].
  apply IH.
Qed.

Lemma scanStations_stop (now : Z) (station : string)
    (stations : list StationEntry) :
  forall tick,
    fst (scanStations loc (still now) tick station stations)
    = match List.find (stop now) (listed station (mkPrograms stations)) with
      | Some q => verdict q
      | None => Err not_found
      end.
Proof.
  unfold listed. cbn [Stations_Station].
  induction stations as [|s rest IH]; intros tick; [reflexivity|].
  cbn [scanStations flat_map].
  destruct (String.eqb (Id s) station); [|apply IH].
  pose proof (scanProgs_stop now (Scd_Progs_Prog s) tick) as Hscan.
  rewrite find_app_l.
  destruct (scanProgs loc (still now) tick (Scd_Progs_Prog s)) as [[res|] tick'];
    cbn [fst] in Hscan;
    destruct (List.find (stop now) (Scd_Progs_Prog s)); try discriminate.
  - now injection Hscan as ->.
  - apply IH.
Qed.

Lemma stops_at_find (now : Z) (progs : list RadikoProg) (p : RadikoProg) :
  List.find (stop now) progs = Some p <-> stops_at loc now progs p.
Proof.
  rewrite find_first. unfold stops_at, stop.
  split; intros (before & after & -> & Hp & Hb); exists before, after;
    (split; [reflexivity|]).
  - split; [now apply negb_true_iff in Hp|].
    eapply Forall_impl; [exact Hb|]. intros q Hq. now apply negb_false_iff in Hq.
  - split; [now apply negb_true_iff|].
    eapply Forall_impl; [exact Hb|]. intros q Hq. now apply negb_false_iff.
Qed.

Lemma passed_find (now : Z) (progs : list RadikoProg) :
  List.find (stop now) progs = None
  <-> Forall (fun q => passed loc now q = true) progs.
Proof.
  rewrite find_none_Forall. unfold stop.
  split; intros H; (eapply Forall_impl; [exact H|]); cbn; intros q Hq.
  - now apply negb_false_iff in Hq.
  - now apply negb_false_iff.
Qed.

(** The error of a parse is not the not-found error. *)
Lemma timeError_not_found (q : RadikoProg) (e : error) :
  timeError loc q = Some e -> e <> not_found.
Proof.
  unfold timeError, GoTime.parseError, not_found, errors_New.
  destruct (GoTime.ParseInLocation loc (Ft q));
    [destruct (GoTime.ParseInLocation loc (To q))|];
    intros [= <-]; discriminate.
Qed.

(** A program the lookup stops at is on the air exactly when its
    timestamps are well formed. *)
Lemma stopped_airing (now : Z) (q : RadikoProg) :
  passed loc now q = false ->
  (airing loc now q = true <-> timeError loc q = None).
Proof.
  unfold passed, wellTimed, airing, timeError.
  destruct (GoTime.ParseInLocation loc (Ft q)) as [ft|];
    [destruct (GoTime.ParseInLocation loc (To q)) as [to|]|].
  - cbn [andb]. intros H. apply negb_false_iff in H. tauto.
  - intros _. split; discriminate.
  - intros _. split; discriminate.
Qed.

Lemma airing_stops (now : Z) (q : RadikoProg) :
  airing loc now q = true -> passed loc now q = false.
Proof.
  unfold passed. intros ->. cbn [negb]. apply andb_false_r.
Qed.

Lemma timeError_stops (now : Z) (q : RadikoProg) (e : error) :
  timeError loc q = Some e -> passed loc now q = false.
Proof.
  unfold passed, wellTimed, timeError.
  destruct (GoTime.ParseInLocation loc (Ft q));
    [destruct (GoTime.ParseInLocation loc (To q))|]; try discriminate;
    reflexivity.
Qed.

(** The answer of the lookup at a standing clock. *)
Lemma nowProgram_stop (sched : RadikoPrograms) (station : string) (now : Z)
    (tick : nat) :
  fst (nowProgram loc (Ok sched) (still now) tick station)
  = match List.find (stop now) (listed station sched) with
    | Some q => verdict q
    | None => Err not_found
    end.
Proof.
  destruct sched as [stations]. unfold nowProgram. cbn [Stations_Station].
  apply scanStations_stop.
Qed.

Lemma nowProgram_Ok_iff (sched : RadikoPrograms) (station : string) (now : Z)
    (tick : nat) (p : RadikoProg) :
  fst (nowProgram loc (Ok sched) (still now) tick station) = Ok p
  <-> stops_at loc now (listed station sched) p /\ airing loc now p = true.
Proof.
  rewrite nowProgram_stop, <- stops_at_find. unfold verdict.
  destruct (List.find (stop now) (listed station sched)) as [q|] eqn:Hfind.
  - apply stops_at_find in Hfind as Hstop.
    destruct Hstop as (_ & _ & _ & Hq & _).
    pose proof (stopped_airing now q Hq) as Hair.
    destruct (timeError loc q) as [e|] eqn:He.
    + split; [discriminate|]. intros [[= ->] Hp].
      apply Hair in Hp. discriminate.
    + split.
      * intros [= <-]. split; [reflexivity | now apply Hair].
      * now intros [[= ->] _].
  - split; [discriminate | now intros [? _]].
Qed.

Lemma nowProgram_not_found_iff (sched : RadikoPrograms) (station : string)
    (now : Z) (tick : nat) :
  fst (nowProgram loc (Ok sched) (still now) tick station) = Err not_found
  <-> Forall (fun q => passed loc now q = true) (listed station sched).
Proof.
  rewrite nowProgram_stop, <- passed_find. unfold verdict.
  destruct (List.find (stop now) (listed station sched)) as [q|] eqn:Hfind.
  - destruct (timeError loc q) as [e|] eqn:He.
    + split; [|discriminate]. intros [= ->].
      now apply timeError_not_found in He.
    + split; discriminate.
  - tauto.
Qed.

Lemma nowProgram_parse_error_iff (sched : RadikoPrograms) (station : string)
    (now : Z) (tick : nat) (e : error) :
  (fst (nowProgram loc (Ok sched) (still now) tick station) = Err e
   /\ e <> not_found)
  <-> exists q,
        stops_at loc now (listed station sched) q /\ timeError loc q = Some e.
Proof.
  rewrite nowProgram_stop. unfold verdict.
  destruct (List.find (stop now) (listed station sched)) as [q|] eqn:Hfind.
  - apply stops_at_find in Hfind as Hstop. split.
    + intros [H _]. exists q. split; [exact Hstop|].
      destruct (timeError loc q); [|discriminate]. now injection H as ->.
    + intros (q' & Hq' & He). apply stops_at_find in Hq'.
      assert (q' = q) by congruence. subst q'. rewrite He.
      split; [reflexivity | eapply timeError_not_found; eauto].
  - split.
    + intros [[= <-] H]. now destruct H.
    + intros (q' & Hq' & _). apply stops_at_find in Hq'. congruence.
Qed.

(** On well-formed programs, the program the lookup stops at is the
    first on the air. *)
Lemma stops_at_first_airing (now : Z) (progs : list RadikoProg)
    (p : RadikoProg) :
  Forall (fun q => wellTimed loc q = true) progs ->
  (stops_at loc now progs p /\ airing loc now p = true
   <-> first_airing loc now progs p).
Proof.
  intros Hw. unfold stops_at, first_airing, passed. split.
  - intros [(before & after & -> & _ & Hb) Hp]. exists before, after.
    split; [reflexivity|]. split; [exact Hp|].
    eapply Forall_impl; [exact Hb|]. intros q Hq.
    apply andb_prop in Hq as [_ Hq]. now apply negb_true_iff in Hq.
  - intros (before & after & -> & Hp & Hb). split; [|exact Hp].
    exists before, after. split; [reflexivity|].
    split; [rewrite Hp; apply andb_false_r|].
    apply Forall_app in Hw as [Hw _].
    rewrite Forall_forall in *. intros q Hq.
    rewrite (Hw q Hq), (Hb q Hq). reflexivity.
Qed.

Lemma passed_not_airing (now : Z) (progs : list RadikoProg) :
  Forall (fun q => wellTimed loc q = true) progs ->
  (Forall (fun q => passed loc now q = true) progs
   <-> Forall (fun q => airing loc now q = false) progs).
Proof.
  intros Hw. unfold passed. rewrite !Forall_forall in *.
  split; intros H q Hq.
  - specialize (H q Hq). apply andb_prop in H as [_ H].
    now apply negb_true_iff in H.
  - rewrite (Hw q Hq), (H q Hq). reflexivity.
Qed.



End LookupFacts.

(** C2, as the code has it.  At a standing clock the lookup goes through
    the programs listed under the stations of identifier [station], in the
    order of the schedule, and stops at the first one that has a malformed
    timestamp or is on the air at [now] (its start is not after [now] and
    its end is after [now]).  It returns a program exactly when it stops at
    that program and the program is on the air; it fails with the not-found
    error exactly when every program listed is well formed and off the air,
    as when no station has the identifier; and it fails with another error
    exactly when it stops at a malformed program, the error being that of
    parsing its start, or else its end.  When all the timestamps listed are
    well formed, the program returned is the first one on the air, and the
    lookup fails with the not-found error exactly when none is on the
    air. *)
Theorem nowProgram_first_airing
    (loc : Z) (sched : RadikoPrograms) (station : string) (now : Z) (tick : nat) :
  let progs := listed station sched in
  let answer := fst (nowProgram loc (Ok sched) (still now) tick station) in
  (forall p,
      answer = Ok p <-> stops_at loc now progs p /\ airing loc now p = true)
  /\ (answer = Err not_found
      <-> Forall (fun q => passed loc now q = true) progs)
  /\ (forall e,
        answer = Err e /\ e <> not_found
        <-> exists q, stops_at loc now progs q /\ timeError loc q = Some e)
  /\ (Forall (fun p => wellTimed loc p = true) progs ->
      (forall p, answer = Ok p <-> first_airing loc now progs p)
      /\ (answer = Err not_found
          <-> Forall (fun q => airing loc now q = false) progs)).
Proof.
  intros progs answer. subst progs answer.
  split; [intros p; apply nowProgram_Ok_iff|].
  split; [apply nowProgram_not_found_iff|].
  split; [intros e; apply nowProgram_parse_error_iff|].
  intros Hw. split.
  - intros p. rewrite nowProgram_Ok_iff. now apply stops_at_first_airing.
  - rewrite nowProgram_not_found_iff. now apply passed_not_airing.
Qed.

Lemma nowProgram_first_airing_witness :
  Forall (fun p => wellTimed Example.jst p = true)
    (listed "TEST1" Example.schedule)
  /\ fst (nowProgram Example.jst (Ok Example.schedule)
            (still Example.half_past_noon) 0 "TEST1")
     = Ok Example.morning
  /\ fst (nowProgram Example.jst (Ok Example.schedule_untimed)
            (still Example.half_past_noon) 0 "TEST1")
     = Err (GoTime.parseError "").
Proof.
  assert (H : Forall (fun p => wellTimed Example.jst p = true)
                (listed "TEST1" Example.schedule))
    by (repeat constructor).
  split; [exact H|]. split.
  - destruct (nowProgram_first_airing Example.jst Example.schedule "TEST1"
                Example.half_past_noon 0) as (_ & _ & _ & Hwell).
    apply (proj1 (Hwell H)).
    exists [], []. repeat split. constructor.
  - destruct (nowProgram_first_airing Example.jst Example.schedule_untimed
                "TEST1" Example.half_past_noon 0) as (_ & _ & Hparse & _).
    apply (Hparse (GoTime.parseError "")).
    exists Example.untimed. split; [|reflexivity].
    exists [], [Example.morning]. repeat split. constructor.
Defined.

(** C2 as stated fails on a schedule with a malformed timestamp.  With an
    element without [ft] listed before "Morning Show", the show is the
    first program of the station on the air at 12:30:00 and yet the lookup
    does not return it; listed alone, no program of the station is on the
    air and yet the lookup does not fail with the not-found error.  Both
    times it returns the error of the parse. *)
Lemma nowProgram_malformed_counterexample :
  (first_airing Example.jst Example.half_past_noon
     (listed "TEST1" Example.schedule_untimed) Example.morning
   /\ fst (nowProgram Example.jst (Ok Example.schedule_untimed)
             (still Example.half_past_noon) 0 "TEST1")
      <> Ok Example.morning)
  /\ (let alone :=
        {| Stations_Station :=
             [ {| Id := "TEST1"; Name := "Test One";
                  Scd_Progs_Date := "20240101";
                  Scd_Progs_Prog := [Example.untimed] |} ] |} in
      Forall (fun q => airing Example.jst Example.half_past_noon q = false)
        (listed "TEST1" alone)
      /\ fst (nowProgram Example.jst (Ok alone)
                (still Example.half_past_noon) 0 "TEST1")
         <> Err not_found).
Proof.
  split; [split|split].
  - exists [Example.untimed], []. repeat split. repeat constructor.
  - vm_compute. discriminate.
  - repeat constructor.
  - vm_compute. discriminate.
Qed.

(** ** One capture attempt *)



(** ** The end of a session: merge or not *)

Section SessionFacts.

Variable filepath_Join : string -> string -> string.
Variable cmd_Run : Cmd -> option error.

Lemma Run_results_merges (r : Radiko) (results : list RadikoResult) :
  exists rr,
    Run_results filepath_Join cmd_Run r results = Returned rr
    /\ (merges rr <> [] <-> (1 < length results)%nat)
    /\ (length (merges rr) <= 1)%nat
    /\ (results = [] ->
        rr = {| Result := None; Run_err := Some (ErrMsg "empty outputs");
                merges := [] |})
    /\ (forall single, results = [single] ->
        rr = {| Result := Some single; Run_err := None; merges := [] |})
    /\ ((1 < length results)%nat ->
        let output := filepath_Join (r_TempDir r) "radiko_concat.m4a" in
        let cmd :=
          exec_Command (r_Converter r)
            ["-i"; "concat:" ++ GoStrings.Join (map Mp3Path results) "|";
             "-acodec"; "copy"; output] in
        merges rr = [cmd]
        /\ match cmd_Run cmd with
           | None =>
               exists first rest,
                 results = first :: rest
                 /\ Result rr = Some {| Mp3Path := output; Prog := Prog first;
                                        Station := Station first |}
                 /\ Run_err rr = None
           | Some e => Result rr = None /\ Run_err rr = Some e
           end).
Proof.
  destruct results as [|x [|y rest]].
  - eexists. split; [reflexivity|]. cbn. repeat split; try easy; try lia.
  - eexists. split; [reflexivity|]. cbn. repeat split; try easy; try lia.
    now intros single [= <-].
  - unfold Run_results, ConcatOutput, concatCmd.
    destruct (cmd_Run _) as [e|] eqn:Hrun.
    + eexists. split; [reflexivity|]. cbn [merges Result Run_err length].
      split; [split; [lia | easy]|]. split; [lia|].
      split; [easy|]. split; [easy|].
      intros _. lazy zeta. easy.
    + eexists. split; [reflexivity|]. cbn [merges Result Run_err length].
      split; [split; [lia | easy]|]. split; [lia|].
      split; [easy|]. split; [easy|].
      intros _. lazy zeta. eauto 6.
Qed.

End SessionFacts.

(** ** The result persister *)

Section SaveFacts.

Variable filepath_Join : string -> string -> string.
Variable xml_Marshal : RadikoProg -> string.



End SaveFacts.


(** ** [select] *)

Lemma select_single (k : nat) (b : branch) (t : Z) :
  select k [(b, t)] = Some (b, t).
Proof.
  unfold select. cbn [earliest].
  rewrite filter_cons_True by reflexivity. rewrite filter_nil.
  cbn [length]. now rewrite Nat.mod_1_r.
Qed.

Lemma select_earlier (k : nat) (b1 b2 : branch) (t1 t2 : Z) :
  t1 < t2 -> select k [(b1, t1); (b2, t2)] = Some (b1, t1).
Proof.
  intros H. unfold select. cbn [earliest].
  replace (Z.min t1 t2) with t1 by lia.
  rewrite filter_cons_True by reflexivity.
  rewrite filter_cons_False by (cbn; lia). rewrite filter_nil.
  cbn [length]. now rewrite Nat.mod_1_r.
Qed.

Lemma earliest_le (evs : list (branch * Z)) (t : Z) :
  earliest evs = Some t -> forall b t', In (b, t') evs -> t <= t'.
Proof.
  revert t. induction evs as [|[b0 t0] rest IH]; intros t H b t' Hin.
  - destruct Hin.
  - cbn [earliest] in H. destruct (earliest rest) as [tr|] eqn:Hr.
    + injection H as <-. destruct Hin as [[= <- <-]|Hin].
      * lia.
      * specialize (IH tr eq_refl b t' Hin). lia.
    + injection H as <-. destruct Hin as [[= <- <-]|Hin]; [lia|].
      destruct rest as [|[b1 t1] rest]; [destruct Hin|].
      cbn in Hr. destruct (earliest rest); discriminate.
Qed.

(** What [select] takes is one of the branches, and none could proceed
    before it. *)
Lemma select_spec (k : nat) (evs : list (branch * Z)) (b : branch) (t : Z) :
  select k evs = Some (b, t) ->
  In (b, t) evs /\ forall b' t', In (b', t') evs -> t <= t'.
Proof.
  unfold select. destruct (earliest evs) as [te|] eqn:He; [|discriminate].
  intros H. apply list_elem_of_lookup_2 in H.
  apply list_elem_of_filter in H as [Ht Hin]. cbn in Ht. subst te.
  split; [now apply list_elem_of_In|].
  now apply earliest_le.
Qed.

(** ** The supervisor without cancellation *)

Section RunFacts.

Variable filepath_Join : string -> string -> string.
Variable r : Radiko.
Variable ctx : Context.
Variable recordFn : string -> Z -> attempt.
Variable pick : nat -> nat.

Let step := run_step filepath_Join r ctx recordFn pick.
Let loop := run_loop filepath_Join r ctx recordFn pick.
Let path := output_of filepath_Join r.

(** With a value in [c], no goroutine recording and no cancellation the
    loop starts an attempt. *)
Lemma run_step_start (st : RunState) (tc : Z) :
  done_at ctx = None -> c st = Some tc -> flight st = None ->
  step st =
  inl {| now := Z.max (now st) tc; retry := retry st; results := results st;
         c := None;
         flight := Some (recordFn (path (retry st)) (Z.max (now st) tc));
         selects := S (selects st);
         log := (log st ++ [LogStartRecord (Z.max (now st) tc)
                              (path (retry st))])%list |}.
Proof.
  intros Hd Hc Hf. unfold step, run_step.
  rewrite Hd, Hc, Hf. cbn [from delivers app].
  now rewrite select_single.
Qed.

(** With an attempt that has failed and no cancellation the loop takes
    its error, and retries ten seconds later unless [retry] has reached
    five. *)
Lemma run_step_failed (st : RunState) (te : Z) (ret : option RadikoResult)
    (e : error) :
  done_at ctx = None -> c st = None ->
  flight st = Some (Completes te ret (Some e)) ->
  step st =
  let t := Z.max (now st) te in
  if (retry st <? 5)%nat then
    inl {| now := t; retry := S (retry st);
           results := append_ret (results st) ret;
           c := Some (t + 10);
           flight := None;
           selects := S (selects st);
           log := ((log st ++ [LogFinished t])
                   ++ [LogGotErr t e; LogRetryAfter t 10])%list |}
  else
    inr (Finished t (append_ret (results st) ret)
           ((log st ++ [LogFinished t]) ++ [LogGotErr t e])%list).
Proof.
  intros Hd Hc Hf. unfold step, run_step.
  rewrite Hd, Hc, Hf. cbn [from delivers app].
  now rewrite select_single.
Qed.

(** One round of the loop: an attempt is started and fails. *)
Lemma run_round (fuel : nat) (st : RunState) (tc te : Z)
    (ret : option RadikoResult) (e : error) :
  done_at ctx = None -> c st = Some tc -> flight st = None ->
  recordFn (path (retry st)) (Z.max (now st) tc)
  = Completes te ret (Some e) ->
  loop (S (S fuel)) st =
  let ts := Z.max (now st) tc in
  let tf := Z.max ts te in
  let round := [LogStartRecord ts (path (retry st)); LogFinished tf;
                LogGotErr tf e] in
  if (retry st <? 5)%nat then
    loop fuel
      {| now := tf; retry := S (retry st);
         results := append_ret (results st) ret;
         c := Some (tf + 10);
         flight := None;
         selects := S (S (selects st));
         log := (log st ++ round ++ [LogRetryAfter tf 10])%list |}
  else Finished tf (append_ret (results st) ret) (log st ++ round)%list.
Proof.
  intros Hd Hc Hf Hrec. unfold loop. cbn [run_loop].
  fold step. rewrite (run_step_start st tc Hd Hc Hf).
  fold step. fold path.
  erewrite run_step_failed;
    [|exact Hd|reflexivity|cbn [flight]; now rewrite Hrec].
  cbn [now retry results c flight selects log]. cbn zeta.
  destruct (retry st <? 5)%nat; rewrite <- !app_assoc; reflexivity.
Qed.

End RunFacts.

(** One failing round of [run], taken in the goal. *)
Ltac failing_round Hd Hfail :=
  lazymatch goal with
  | |- context [run_loop ?fj ?r ?ctx ?rf ?pick (S (S ?fuel)) ?st] =>
      let tc := eval cbn [c run_init] in (c st) in
      lazymatch tc with
      | Some ?tc' =>
          let nw := eval cbn [now run_init] in (now st) in
          let k := eval cbn [retry run_init] in (retry st) in
          let te := fresh "te" in
          let ret := fresh "ret" in
          let e := fresh "e" in
          let H := fresh "Hrec" in
          destruct (Hfail (output_of fj r k) (Z.max nw tc')) as (te & ret & e & H);
          rewrite (run_round fj r ctx rf pick fuel st tc' te ret e
                     Hd eq_refl eq_refl H);
          lazy zeta;
          cbn [retry now results c flight selects log run_init Nat.ltb Nat.leb]
      end
  end.

(** C1, as the code has it.  In a session whose context is not cancelled
    and in which every attempt returns an error, the supervisor starts
    exactly six attempts, on the output paths numbered 0 to 5; each of the
    five retries starts ten seconds after the error of the attempt before
    it was received; and the supervisor returns when it receives the error
    of the sixth attempt, without starting a seventh. *)
Theorem retry_ceiling
    (filepath_Join : string -> string -> string) (r : Radiko) (ctx : Context)
    (recordFn : string -> Z -> attempt) (pick : nat -> nat) (start : Z) :
  done_at ctx = None ->
  (forall output t, exists t' ret e,
      recordFn output t = Completes t' ret (Some e)) ->
  exists t results lg,
    run filepath_Join r ctx recordFn pick start = Finished t results lg
    /\ map snd (starts lg) = map (output_of filepath_Join r) (seq 0 6)
    /\ length (finishes lg) = 6%nat
    /\ backoffs lg = [10; 10; 10; 10; 10]
    /\ (forall i tf,
          (i < 5)%nat -> finishes lg !! i = Some tf ->
          fst <$> starts lg !! S i = Some (tf + 10))
    /\ last (finishes lg) = Some t.
Proof.
  intros Hd Hfail. unfold run.
  do 6 failing_round Hd Hfail.
  do 3 eexists. split; [reflexivity|].
  cbn [app starts finishes backoffs map seq length last fst snd].
  repeat split.
  intros i tf Hi.
  destruct i as [|[|[|[|[|i]]]]]; [..|lia];
    cbn; intros [= <-]; f_equal; lia.
Qed.

Lemma retry_ceiling_witness :
  exists t results lg,
    run Example.simple_join Example.radiko Example.background failing
      Example2.always_first 0
    = Finished t results lg
    /\ map snd (starts lg)
       = map (output_of Example.simple_join Example.radiko) (seq 0 6)
    /\ length (finishes lg) = 6%nat
    /\ backoffs lg = [10; 10; 10; 10; 10]
    /\ (forall i tf,
          (i < 5)%nat -> finishes lg !! i = Some tf ->
          fst <$> starts lg !! S i = Some (tf + 10))
    /\ last (finishes lg) = Some t.
Proof.
  apply (retry_ceiling Example.simple_join Example.radiko Example.background
           failing Example2.always_first 0).
  - reflexivity.
  - intros output t. exists (t + 3), None, (ErrMsg "exit status 1"). reflexivity.
Defined.

(** C1 as stated fails when the context is cancelled.  Every attempt of
    this session returns an error; the context is cancelled five seconds
    after the start, while the supervisor waits for the first retry; the
    supervisor returns ten seconds later and has started one attempt, not
    six. *)
Lemma retry_ceiling_cancelled_counterexample :
  (forall output t, exists t' ret e,
      failing output t = Completes t' ret (Some e))
  /\ exists lg,
       run Example.simple_join Example.radiko (Example.cancelled_at 5) failing
         Example2.always_first 0
       = Finished 15 [] lg
       /\ starts lg = [(0, "/tmp/radicast/radiko_0.m4a")]
       /\ length (starts lg) <> 6%nat.
Proof.
  split.
  - intros output t. exists (t + 3), None, (ErrMsg "exit status 1"). reflexivity.
  - eexists. split; [vm_compute; reflexivity|]. split; [reflexivity|].
    cbn. discriminate.
Qed.

(** ** The supervisor under cancellation *)

Lemma starts_app (l1 l2 : list event) :
  starts (l1 ++ l2) = (starts l1 ++ starts l2)%list.
Proof.
  induction l1 as [|[] l1 IH]; cbn [app starts]; try assumption.
  - reflexivity.
  - now rewrite IH.
Qed.

Lemma cancellations_app (l1 l2 : list event) :
  cancellations (l1 ++ l2) = (cancellations l1 ++ cancellations l2)%list.
Proof.
  induction l1 as [|[] l1 IH]; cbn [app cancellations]; try assumption.
  - reflexivity.
  - now rewrite IH.
Qed.

Lemma in_from (now : Z) (b b' : branch) (o : option Z) (t : Z) :
  In (b, t) (from now b' o) ->
  b = b' /\ exists t0, o = Some t0 /\ t = Z.max now t0.
Proof.
  destruct o as [t0|]; cbn; [|tauto].
  intros [[= <- <-]|[]]. eauto.
Qed.

Lemma in_append_ret (results : list RadikoResult) (ret : option RadikoResult)
    (x : RadikoResult) :
  In x results -> In x (append_ret results ret).
Proof.
  destruct ret; cbn; [|auto]. intros H. apply in_or_app. now left.
Qed.

Lemma in_append_ret_new (results : list RadikoResult) (x : RadikoResult) :
  In x (append_ret results (Some x)).
Proof. cbn. apply in_or_app. right. now left. Qed.

Section Supervision.

Variable filepath_Join : string -> string -> string.
Variable r : Radiko.
Variable ctx : Context.
Variable recordFn : string -> Z -> attempt.
Variable pick : nat -> nat.

Let step := run_step filepath_Join r ctx recordFn pick.
Let loop := run_loop filepath_Join r ctx recordFn pick.

(** What the theorem on cancellation says of a finished session. *)
Let drained (t : Z) (results : list RadikoResult) (lg : list event) : Prop :=
  (forall T, In T (cancellations lg) -> T <= t <= T + 10)
  /\ forall ts output te ret err,
       In (ts, output) (starts lg) ->
       recordFn output ts = Completes te (Some ret) err ->
       te <= t -> In ret results.

Lemma supervised_init (start : Z) : supervised recordFn (run_init start).
Proof.
  split; [reflexivity|]. split; [reflexivity|]. intros ? ? [].
Qed.

Lemma run_step_supervised (st st' : RunState) :
  supervised recordFn st -> step st = inl st' -> supervised recordFn st'.
Proof.
  intros (Hcan & Hc & Hst). unfold step, run_step.
  destruct (select _ _) as [[b t]|] eqn:Hsel; [|discriminate].
  apply select_spec in Hsel as [Hin _].
  destruct b.
  - (* an attempt starts *)
    intros [= <-]. unfold supervised.
    cbn [log c flight results].
    rewrite cancellations_app, starts_app, Hcan. cbn [cancellations starts app].
    split; [reflexivity|]. split; [congruence|].
    assert (Hf : flight st = None).
    { apply Hc. rewrite !in_app_iff in Hin.
      destruct Hin as [Hin|[Hin|Hin]]; apply in_from in Hin as [? (? & ? & ?)];
        congruence. }
    intros ts output Hts. apply in_app_iff in Hts as [Hts|[[= <- <-]|[]]].
    + right. destruct (Hst ts output Hts) as [H|H]; [congruence|exact H].
    + now left.
  - (* the context is cancelled: the loop ends *)
    destruct (select _ _) as [[[] ?]|]; try discriminate;
      destruct (flight st) as [[]|]; discriminate.
  - (* an error is received *)
    destruct (flight st) as [[te ret [e|]| |]|] eqn:Hf; try discriminate.
    destruct (retry st <? 5)%nat; [|discriminate].
    intros [= <-]. unfold supervised. cbn [log c flight results].
    rewrite !cancellations_app, !starts_app, Hcan.
    cbn [cancellations starts app]. rewrite !app_nil_r.
    split; [reflexivity|]. split; [reflexivity|].
    intros ts output Hts. right. intros te' ret' err' Hrec.
    destruct (Hst ts output Hts) as [H|H].
    + rewrite Hrec in H. injection H as _ -> _. apply in_append_ret_new.
    + apply in_append_ret. eauto.
  - destruct (flight st) as [[te ret [e|]| |]|] eqn:Hf; try discriminate.
    destruct (retry st <? 5)%nat; [|discriminate].
    intros [= <-]. unfold supervised. cbn [log c flight results].
    rewrite !cancellations_app, !starts_app, Hcan.
    cbn [cancellations starts app]. rewrite !app_nil_r.
    split; [reflexivity|]. split; [reflexivity|].
    intros ts output Hts. right. intros te' ret' err' Hrec.
    destruct (Hst ts output Hts) as [H|H].
    + rewrite Hrec in H. injection H as _ -> _. apply in_append_ret_new.
    + apply in_append_ret. eauto.
Qed.

(** A delivery that ends the loop hands the result of the attempt in
    flight to [results]. *)
Lemma delivered_drained (st : RunState) (t te : Z)
    (ret : option RadikoResult) (err : option error) (extra : list event) :
  supervised recordFn st ->
  flight st = Some (Completes te ret err) ->
  cancellations extra = [] -> starts extra = [] ->
  drained t (append_ret (results st) ret) (log st ++ extra).
Proof.
  intros (Hcan & Hc & Hst) Hf Hx1 Hx2. split.
  - intros T. rewrite cancellations_app, Hcan, Hx1. intros [].
  - intros ts output te' ret' err'. rewrite starts_app, Hx2, app_nil_r.
    intros Hts Hrec _. destruct (Hst ts output Hts) as [H|H].
    + rewrite Hf, Hrec in H. injection H as _ -> _. apply in_append_ret_new.
    + apply in_append_ret. eauto.
Qed.

Lemma run_step_drained (st : RunState) (t : Z) (results : list RadikoResult)
    (lg : list event) :
  supervised recordFn st -> step st = inr (Finished t results lg) ->
  drained t results lg.
Proof.
  intros Hsup. pose proof Hsup as (Hcan & Hc & Hst). unfold step, run_step.
  destruct (select _ _) as [[b T]|] eqn:Hsel; [|discriminate].
  destruct b.
  - discriminate.
  - (* the context is cancelled *)
    clear Hsel.
    destruct (select _ _) as [[b' t']|] eqn:Hin; [|discriminate].
    apply select_spec in Hin as [Hin Hmin].
    assert (Hwait : T <= t' <= T + 10).
    { split.
      - apply in_app_iff in Hin as [Hin|[[= <- <-]|[]]]; [|lia].
        apply in_from in Hin as [_ (t0 & _ & ->)]. lia.
      - apply (Hmin BrTimer). apply in_app_iff. right. now left. }
    assert (Hcan' : forall extra1 T0,
               In T0 (cancellations
                        ((log st ++ [LogContextErr T (ctx_Err ctx)]) ++ extra1)) ->
               cancellations extra1 = [] -> T0 = T).
    { intros extra1 T0. rewrite !cancellations_app, Hcan.
      cbn [cancellations app]. intros H1 H2. rewrite H2 in H1.
      destruct H1 as [<-|[]]. reflexivity. }
    assert (Hsta : forall extra1,
               starts extra1 = [] ->
               starts ((log st ++ [LogContextErr T (ctx_Err ctx)]) ++ extra1)
               = starts (log st)).
    { intros extra1 H1. rewrite !starts_app, H1. cbn [starts].
      now rewrite !app_nil_r. }
    destruct b'.
    + (* no value of [c] is awaited here *)
      apply in_app_iff in Hin as [Hin|[[= ]|[]]].
      apply in_from in Hin as [[= ] _].
    + apply in_app_iff in Hin as [Hin|[[= ]|[]]].
      apply in_from in Hin as [[= ] _].
    + (* the error of the attempt in flight arrives in time *)
      destruct (flight st) as [[te ret err| |]|] eqn:Hf; try discriminate.
      intros [= <- <- <-]. split.
      * intros T0 H0. apply Hcan' in H0; [subst T0; exact Hwait | reflexivity].
      * intros ts output te' ret' err'. rewrite Hsta by reflexivity.
        intros Hts Hrec _. destruct (Hst ts output Hts) as [H|H].
        -- rewrite Hrec in H. injection H as _ -> _. apply in_append_ret_new.
        -- apply in_append_ret. eauto.
    + (* the ten seconds pass *)
      intros [= <- <- <-]. split.
      * intros T0 H0. apply Hcan' in H0; [subst T0; exact Hwait | reflexivity].
      * intros ts output te' ret' err'. rewrite Hsta by reflexivity.
        intros Hts Hrec Hte. unfold results_at.
        destruct (Hst ts output Hts) as [H|H].
        -- rewrite H, Hrec. apply Z.leb_le in Hte. rewrite Hte.
           apply in_append_ret_new.
        -- destruct (flight st) as [[te ret err| |]|]; eauto.
           destruct (te <=? t'); eauto using in_append_ret.
  - (* an error is received and the loop ends *)
    destruct (flight st) as [[te ret [e|]| |]|] eqn:Hf; try discriminate.
    + destruct (retry st <? 5)%nat; [discriminate|].
      intros [= <- <- <-]. rewrite <- app_assoc.
      eapply delivered_drained; eauto.
    + intros [= <- <- <-]. eapply delivered_drained; eauto.
  - destruct (flight st) as [[te ret [e|]| |]|] eqn:Hf; try discriminate.
    + destruct (retry st <? 5)%nat; [discriminate|].
      intros [= <- <- <-]. rewrite <- app_assoc.
      eapply delivered_drained; eauto.
    + intros [= <- <- <-]. eapply delivered_drained; eauto.
Qed.

Lemma run_loop_drained (fuel : nat) :
  forall st t results lg,
    supervised recordFn st -> loop fuel st = Finished t results lg ->
    drained t results lg.
Proof.
  induction fuel as [|fuel IH]; intros st t results lg Hsup; [discriminate|].
  unfold loop. cbn [run_loop]. fold step. fold loop.
  destruct (step st) as [st'|s] eqn:Hstep.
  - apply IH. eapply run_step_supervised; eauto.
  - intros ->. eapply run_step_drained; eauto.
Qed.

End Supervision.

(** ** The outputs are in the order of capture *)

Lemma outputs_snoc (recordFn : string -> Z -> attempt)
    (prev : list (Z * string)) (ts : Z) (out : string) :
  outputs_of recordFn (prev ++ [(ts, out)])
  = append_ret (outputs_of recordFn prev) (ret_of (recordFn out ts)).
Proof.
  unfold outputs_of. rewrite omap_app. simpl.
  destruct (ret_of (recordFn out ts)); cbn [append_ret];
    [reflexivity | apply app_nil_r].
Qed.

Section CaptureOrder.

Variable filepath_Join : string -> string -> string.
Variable r : Radiko.
Variable ctx : Context.
Variable recordFn : string -> Z -> attempt.
Variable pick : nat -> nat.

Let step := run_step filepath_Join r ctx recordFn pick.
Let loop := run_loop filepath_Join r ctx recordFn pick.

Lemma ordered_init (start : Z) : ordered recordFn (run_init start).
Proof. split; [reflexivity|]. reflexivity. Qed.

(** Taking the error of the attempt in flight appends its result. *)
Lemma ordered_delivered (st : RunState) (te : Z) (ret : option RadikoResult)
    (err : option error) :
  ordered recordFn st ->
  flight st = Some (Completes te ret err) ->
  append_ret (results st) ret = outputs_of recordFn (starts (log st)).
Proof.
  intros [_ Hord] Hf. rewrite Hf in Hord.
  destruct Hord as (prev & ts & out & -> & Hrec & ->).
  rewrite outputs_snoc, <- Hrec. reflexivity.
Qed.

Lemma run_step_ordered (st st' : RunState) :
  ordered recordFn st -> step st = inl st' -> ordered recordFn st'.
Proof.
  intros Hord. pose proof Hord as [Hc Hres]. unfold step, run_step.
  destruct (select _ _) as [[b t]|] eqn:Hsel; [|discriminate].
  apply select_spec in Hsel as [Hin _].
  destruct b.
  - (* an attempt starts *)
    assert (Hf : flight st = None).
    { apply Hc. rewrite !in_app_iff in Hin.
      destruct Hin as [Hin|[Hin|Hin]]; apply in_from in Hin as [? (? & ? & ?)];
        congruence. }
    rewrite Hf in Hres.
    intros [= <-]. split; cbn [c flight results log]; [congruence|].
    rewrite starts_app. cbn [starts]. eexists _, _, _. eauto.
  - destruct (select _ _) as [[[] ?]|]; try discriminate;
      destruct (flight st) as [[]|]; discriminate.
  - destruct (flight st) as [[te ret [e|]| |]|] eqn:Hf; try discriminate.
    destruct (retry st <? 5)%nat; [|discriminate].
    intros [= <-]. split; cbn [c flight results log]; [reflexivity|].
    rewrite !starts_app. cbn [starts]. rewrite !app_nil_r.
    eapply ordered_delivered; eauto.
  - destruct (flight st) as [[te ret [e|]| |]|] eqn:Hf; try discriminate.
    destruct (retry st <? 5)%nat; [|discriminate].
    intros [= <-]. split; cbn [c flight results log]; [reflexivity|].
    rewrite !starts_app. cbn [starts]. rewrite !app_nil_r.
    eapply ordered_delivered; eauto.
Qed.

Lemma delivered_in_capture_order (st : RunState) (te : Z)
    (ret : option RadikoResult) (err : option error) (extra : list event) :
  ordered recordFn st ->
  flight st = Some (Completes te ret err) -> starts extra = [] ->
  in_capture_order recordFn (append_ret (results st) ret) (log st ++ extra).
Proof.
  intros Hord Hf Hx. left. rewrite starts_app, Hx, app_nil_r.
  eapply ordered_delivered; eauto.
Qed.

Lemma run_step_in_capture_order (st : RunState) (t : Z)
    (res : list RadikoResult) (lg : list event) :
  ordered recordFn st -> step st = inr (Finished t res lg) ->
  in_capture_order recordFn res lg.
Proof.
  intros Hord. pose proof Hord as [Hc Hres]. unfold step, run_step.
  destruct (select _ _) as [[b T]|] eqn:Hsel; [|discriminate]. clear Hsel.
  destruct b.
  - discriminate.
  - (* the context is cancelled *)
    destruct (select _ _) as [[b' t']|] eqn:Hin; [|discriminate]. clear Hin.
    assert (Htimer :
              in_capture_order recordFn (results_at t' st)
                ((log st ++ [LogContextErr T (ctx_Err ctx)]) ++ [LogTimeout t'])).
    { unfold results_at, in_capture_order.
      rewrite !starts_app. cbn [starts]. rewrite !app_nil_r.
      destruct (flight st) as [a|] eqn:Hf; [|now left].
      assert (Hright : exists prev last,
                 starts (log st) = (prev ++ [last])%list
                 /\ results st = outputs_of recordFn prev).
      { destruct Hres as (prev & ts & out & -> & _ & ->). eauto. }
      destruct a as [te ret err| |]; [|now right|now right].
      destruct (te <=? t'); [|now right].
      left. eapply ordered_delivered; eauto. }
    destruct b'; try (intros [= <- <- <-]; exact Htimer).
    destruct (flight st) as [[te ret err| |]|] eqn:Hf; try discriminate.
    intros [= <- <- <-]. rewrite <- app_assoc.
    eapply delivered_in_capture_order; eauto.
  - destruct (flight st) as [[te ret [e|]| |]|] eqn:Hf; try discriminate.
    + destruct (retry st <? 5)%nat; [discriminate|].
      intros [= <- <- <-]. rewrite <- app_assoc.
      eapply delivered_in_capture_order; eauto.
    + intros [= <- <- <-]. eapply delivered_in_capture_order; eauto.
  - destruct (flight st) as [[te ret [e|]| |]|] eqn:Hf; try discriminate.
    + destruct (retry st <? 5)%nat; [discriminate|].
      intros [= <- <- <-]. rewrite <- app_assoc.
      eapply delivered_in_capture_order; eauto.
    + intros [= <- <- <-]. eapply delivered_in_capture_order; eauto.
Qed.

Lemma run_loop_in_capture_order (fuel : nat) :
  forall st t res lg,
    ordered recordFn st -> loop fuel st = Finished t res lg ->
    in_capture_order recordFn res lg.
Proof.
  induction fuel as [|fuel IH]; intros st t res lg Hord; [discriminate|].
  unfold loop. cbn [run_loop]. fold step. fold loop.
  destruct (step st) as [st'|s] eqn:Hstep.
  - apply IH. eapply run_step_ordered; eauto.
  - intros ->. eapply run_step_in_capture_order; eauto.
Qed.

End CaptureOrder.

(** ** The end of a session *)

(** C5. When the supervisor has returned its outputs, they are the results
    of the attempts it started, in the order of capture (the last attempt
    may have left none), and [Run] returns too.  It ran the converter in
    concatenation mode if and only if there is more than one output, and
    then once.  Without outputs it returns the error "empty outputs".  With
    one output the result is that output as it is.  With more, the one
    command run is the concatenation of the output paths in that order,
    joined by bars, with the audio copied; when it succeeds the result is
    the merged file with the program and the station of the first output,
    and when it fails its error is returned. *)
Theorem Run_merges_iff_many
    (filepath_Join : string -> string -> string) (cmd_Run : Cmd -> option error)
    (r : Radiko) (ctx : Context) (recordFn : string -> Z -> attempt)
    (pick : nat -> nat) (start t : Z)
    (results : list RadikoResult) (lg : list event) :
  run filepath_Join r ctx recordFn pick start = Finished t results lg ->
  in_capture_order recordFn results lg
  /\ exists rr,
    Run filepath_Join cmd_Run r ctx recordFn pick start = Some (Returned rr)
    /\ (merges rr <> [] <-> (1 < length results)%nat)
    /\ (length (merges rr) <= 1)%nat
    /\ (results = [] ->
        rr = {| Result := None; Run_err := Some (ErrMsg "empty outputs");
                merges := [] |})
    /\ (forall single, results = [single] ->
        rr = {| Result := Some single; Run_err := None; merges := [] |})
    /\ ((1 < length results)%nat ->
        let output := filepath_Join (r_TempDir r) "radiko_concat.m4a" in
        let cmd :=
          exec_Command (r_Converter r)
            ["-i"; "concat:" ++ GoStrings.Join (map Mp3Path results) "|";
             "-acodec"; "copy"; output] in
        merges rr = [cmd]
        /\ match cmd_Run cmd with
           | None =>
               exists first rest,
                 results = first :: rest
                 /\ Result rr = Some {| Mp3Path := output; Prog := Prog first;
                                        Station := Station first |}
                 /\ Run_err rr = None
           | Some e => Result rr = None /\ Run_err rr = Some e
           end).
Proof.
  intros Hrun. split.
  - exact (run_loop_in_capture_order filepath_Join r ctx recordFn pick 13
             (run_init start) t results lg (ordered_init recordFn start) Hrun).
  - unfold Run. rewrite Hrun.
    destruct (Run_results_merges filepath_Join cmd_Run r results)
      as (rr & -> & H).
    exists rr. split; [reflexivity | exact H].
Qed.

Lemma Run_merges_iff_many_witness :
  run Example.simple_join Example.radiko Example.background Example2.flaky
    Example2.always_first 0
  = Finished 1800 [Example2.first_part; Example2.second_part]
      [LogStartRecord 0 "/tmp/radicast/radiko_0.m4a"; LogFinished 40;
       LogGotErr 40 (ErrMsg "exit status 1"); LogRetryAfter 40 10;
       LogStartRecord 50 "/tmp/radicast/radiko_1.m4a"; LogFinished 1800]
  /\ exists rr,
       Run Example.simple_join Example2.converter_runs Example.radiko
         Example.background Example2.flaky Example2.always_first 0
       = Some (Returned rr)
       /\ merges rr =
          [exec_Command "/usr/bin/ffmpeg"
             ["-i";
              "concat:/tmp/radicast/radiko_0.m4a|/tmp/radicast/radiko_1.m4a";
              "-acodec"; "copy"; "/tmp/radicast/radiko_concat.m4a"]].
Proof.
  assert (H : run Example.simple_join Example.radiko Example.background
                Example2.flaky Example2.always_first 0
              = Finished 1800 [Example2.first_part; Example2.second_part]
                  [LogStartRecord 0 "/tmp/radicast/radiko_0.m4a"; LogFinished 40;
                   LogGotErr 40 (ErrMsg "exit status 1"); LogRetryAfter 40 10;
                   LogStartRecord 50 "/tmp/radicast/radiko_1.m4a";
                   LogFinished 1800])
    by (vm_compute; reflexivity).
  split; [exact H|].
  destruct (Run_merges_iff_many Example.simple_join Example2.converter_runs
              Example.radiko Example.background Example2.flaky
              Example2.always_first 0 1800 _ _ H)
    as (_ & rr & HRun & _ & _ & _ & _ & Hmany).
  exists rr. split; [exact HRun|].
  apply Hmany. cbn. lia.
Defined.

(** ** The pace of the supervisor *)

Section Pace.

Variable filepath_Join : string -> string -> string.
Variable r : Radiko.
Variable ctx : Context.
Variable recordFn : string -> Z -> attempt.
Variable pick : nat -> nat.

Let step := run_step filepath_Join r ctx recordFn pick.
Let loop := run_loop filepath_Join r ctx recordFn pick.
Let path := output_of filepath_Join r.

(** The attempts a log shows are the first [n] numbered paths, for an
    [n] of six at most. *)
Let numbered (lg : list event) : Prop :=
  exists n, (n <= 6)%nat /\ map snd (starts lg) = map path (seq 0 n).

Lemma paced_numbered (st : RunState) (extra : list event) :
  paced path st -> starts extra = [] -> numbered (log st ++ extra).
Proof.
  intros [Hr Hp] Hx. unfold numbered. rewrite starts_app, Hx, app_nil_r.
  destruct (c st).
  - exists (retry st). split; [lia | apply Hp].
  - exists (S (retry st)). split; [lia | exact Hp].
Qed.

Lemma paced_init (start : Z) : paced path (run_init start).
Proof. split; [cbn; lia|]. cbn. auto. Qed.

Lemma run_step_paced (st : RunState) :
  paced path st ->
  match step st with
  | inl st' => paced path st' /\ (rounds_left st' < rounds_left st)%nat
  | inr s => exists lg, log_of s = Some lg /\ numbered lg
  end.
Proof.
  intros Hp. pose proof Hp as [Hr Hc]. unfold step, run_step.
  destruct (select _ _) as [[b t]|] eqn:Hsel.
  2:{ exists (log st). split; [reflexivity|].
      rewrite <- (app_nil_r (log st)). now apply paced_numbered. }
  apply select_spec in Hsel as [Hin _].
  destruct b.
  - (* an attempt starts *)
    assert (Hsome : exists tc, c st = Some tc).
    { rewrite !in_app_iff in Hin.
      destruct Hin as [Hin|[Hin|Hin]]; apply in_from in Hin as [? (? & ? & ?)];
        try congruence; eauto. }
    destruct Hsome as [tc Htc]. rewrite Htc in Hc. destruct Hc as [Hf Hs].
    split.
    + split; cbn [retry c log]; [exact Hr|].
      rewrite starts_app, map_app, Hs. cbn [starts map snd].
      rewrite seq_S, map_app. reflexivity.
    + unfold rounds_left. cbn [retry c]. rewrite Htc. lia.
  - (* the context is cancelled *)
    destruct (select _ _) as [[[] ?]|]; try destruct (flight st) as [[]|];
      eexists; (split; [reflexivity|]);
      try rewrite <- app_assoc; apply paced_numbered; auto.
  - (* an error is received *)
    destruct (flight st) as [[te ret [e|]| |]|] eqn:Hf;
      try (eexists; (split; [reflexivity|]);
           try rewrite <- app_assoc;
           first [ apply paced_numbered; now auto
                 | rewrite <- (app_nil_r (log st)); apply paced_numbered;
                   now auto ]).
    destruct (retry st <? 5)%nat eqn:Hlt.
    + apply Nat.ltb_lt in Hlt.
      destruct (c st) as [tc|] eqn:Htc; [destruct Hc; congruence|].
      split.
      * split; cbn [retry c flight log]; [lia|]. split; [reflexivity|].
        rewrite !starts_app. cbn [starts]. rewrite !app_nil_r. exact Hc.
      * unfold rounds_left. cbn [retry c]. rewrite Htc. lia.
    + eexists. split; [reflexivity|]. rewrite <- app_assoc.
      apply paced_numbered; auto.
  - destruct (flight st) as [[te ret [e|]| |]|] eqn:Hf;
      try (eexists; (split; [reflexivity|]);
           try rewrite <- app_assoc;
           first [ apply paced_numbered; now auto
                 | rewrite <- (app_nil_r (log st)); apply paced_numbered;
                   now auto ]).
    destruct (retry st <? 5)%nat eqn:Hlt.
    + apply Nat.ltb_lt in Hlt.
      destruct (c st) as [tc|] eqn:Htc; [destruct Hc; congruence|].
      split.
      * split; cbn [retry c flight log]; [lia|]. split; [reflexivity|].
        rewrite !starts_app. cbn [starts]. rewrite !app_nil_r. exact Hc.
      * unfold rounds_left. cbn [retry c]. rewrite Htc. lia.
    + eexists. split; [reflexivity|]. rewrite <- app_assoc.
      apply paced_numbered; auto.
Qed.

Lemma run_loop_paced (fuel : nat) :
  forall st,
    paced path st -> (rounds_left st < fuel)%nat ->
    exists lg, log_of (loop fuel st) = Some lg /\ numbered lg.
Proof.
  induction fuel as [|fuel IH]; intros st Hp Hfuel; [lia|].
  unfold loop. cbn [run_loop]. fold step. fold loop.
  pose proof (run_step_paced st Hp) as Hstep.
  destruct (step st) as [st'|s].
  - destruct Hstep as [Hp' Hless]. apply IH; [exact Hp' | lia].
  - exact Hstep.
Qed.

End Pace.
(** ** The capture call under cancellation *)


(** ** The supervisor under cancellation: it returns in time *)



Section Prompt.

Variable filepath_Join : string -> string -> string.
Variable r : Radiko.
Variable ctx : Context.
Variable recordFn : string -> Z -> attempt.
Variable pick : nat -> nat.
Variable start tc : Z.
Hypothesis cancelled : done_at ctx = Some tc.

Let step := run_step filepath_Join r ctx recordFn pick.
Let loop := run_loop filepath_Join r ctx recordFn pick.
Let path := output_of filepath_Join r.







End Prompt.




(** ** The sidecar: bytes and runes *)

Lemma code_range (a : ascii) : 0 <= Xml.code a < 256.
Proof.
  unfold Xml.code. pose proof (N_ascii_bounded a). lia.
Qed.

Lemma byte_of_code (a : ascii) : Xml.byte_of (Xml.code a) = a.
Proof.
  unfold Xml.byte_of, Xml.code. rewrite N2Z.id. apply ascii_N_embedding.
Qed.

Lemma code_eq (a : ascii) (n : Z) : Xml.code a = n -> a = Xml.byte_of n.
Proof. intros <-. symmetry. apply byte_of_code. Qed.

(** Boolean tests on codes, turned into arithmetic. *)
Ltac arith_hyps :=
  repeat match goal with
    | H : (_ && _)%bool = true |- _ => apply andb_prop in H as [? ?]
    | H : (_ || _)%bool = false |- _ => apply orb_false_elim in H as [? ?]
    | H : negb _ = true |- _ => apply negb_true_iff in H
    | H : negb _ = false |- _ => apply negb_false_iff in H
    | H : (_ <=? _) = true |- _ => apply Z.leb_le in H
    | H : (_ <=? _) = false |- _ => apply Z.leb_gt in H
    | H : (_ <? _) = true |- _ => apply Z.ltb_lt in H
    | H : (_ <? _) = false |- _ => apply Z.ltb_ge in H
    | H : (_ =? _) = true |- _ => apply Z.eqb_eq in H
    | H : (_ =? _) = false |- _ => apply Z.eqb_neq in H
    | H : context [if ?c then _ else _] |- _ =>
        let E := fresh "E" in destruct c eqn:E
    end.

(** The cases of [decodeRune] on a text that is not empty. *)
Ltac rune_cases :=
  repeat match goal with
    | |- context [match ?l with [] => _ | _ :: _ => _ end] => destruct l
    | |- context [if ?c then _ else _] =>
        let E := fresh "E" in destruct c eqn:E
    end.

(** A rune below 128 is a byte of the text. *)
Lemma decodeRune_ascii (a : ascii) (s : list ascii) (r : Z) (w : nat) :
  Xml.decodeRune (a :: s) = (r, w) -> r < 128 -> r = Xml.code a /\ w = 1%nat.
Proof.
  unfold Xml.decodeRune, Xml.between, Xml.RuneError.
  rune_cases; intros [= <- <-] Hr; arith_hyps; try lia; auto.
Qed.

Lemma normal_intro (b : Z) :
  b <> 60 -> b <> 62 -> b <> 38 -> b <> 34 -> b <> 39 -> b <> 13 -> b <> 10 ->
  normal b = true.
Proof.
  intros. unfold normal. apply negb_true_iff.
  repeat (apply orb_false_intro); now apply Z.eqb_neq.
Qed.

Lemma normal_high (b : Z) : 128 <= b -> normal b = true.
Proof. intros. apply normal_intro; lia. Qed.

Lemma escape_of_None (r : Z) (w : nat) :
  Xml.escape_of r w = None ->
  r <> 34 /\ r <> 39 /\ r <> 38 /\ r <> 60 /\ r <> 62 /\ r <> 9 /\ r <> 10
  /\ r <> 13.
Proof.
  unfold Xml.escape_of.
  repeat match goal with
         | |- context [if ?c then _ else _] =>
             let E := fresh "E" in destruct c eqn:E; [discriminate|]
         end.
  intros _. arith_hyps. repeat split; assumption.
Qed.

(** The bytes of a rune the encoder copies are taken by the reader as
    they are. *)
Lemma decodeRune_chunk (a : ascii) (s : list ascii) (r : Z) (w : nat) :
  Xml.decodeRune (a :: s) = (r, w) ->
  Xml.illegal r w = false ->
  Xml.escape_of r w = None ->
  Forall (fun x => normal (Xml.code x) = true) (take w (a :: s)).
Proof.
  intros Hd Hl He. apply escape_of_None in He.
  revert Hd. unfold Xml.decodeRune, Xml.between.
  rune_cases; intros [= <- <-];
    lazymatch type of Hl with
    | Xml.illegal Xml.RuneError 1 = false => discriminate Hl
    | _ => idtac
    end;
    cbn [take]; arith_hyps; repeat constructor;
    first [ apply normal_high; lia | apply normal_intro; lia ].
Qed.

Lemma decodeRune_width (a : ascii) (s : list ascii) (r : Z) (w : nat) :
  Xml.decodeRune (a :: s) = (r, w) -> (1 <= w)%nat.
Proof.
  unfold Xml.decodeRune. rune_cases; intros [= <- <-]; lia.
Qed.

(** ** The sidecar: a text written and read *)

Lemma text_run_app (q : option Z) (s1 s2 : list ascii) :
  forall acc ts,
    text_run q acc ts (s1 ++ s2) =
    match text_run q acc ts s1 with
    | Some (acc', ts') => text_run q acc' ts' s2
    | None => None
    end.
Proof.
  induction s1 as [|a s1 IH]; intros acc ts; [reflexivity|].
  cbn [app text_run]. destruct (Xml.text_step q acc ts a); auto.
Qed.

Lemma text_step_normal (q : option Z) (acc : list ascii) (b0 b1 : Z) (a : ascii) :
  quoting q -> normal (Xml.code a) = true ->
  Xml.text_step q acc (Xml.Plain b0 b1) a
  = Xml.Continue (a :: acc) (Xml.Plain b1 (Xml.code a)).
Proof.
  intros Hq Hn. unfold normal in Hn. arith_hyps.
  unfold Xml.text_step.
  repeat match goal with
         | H : ?b <> ?n |- context [?b =? ?n] =>
             rewrite (proj2 (Z.eqb_neq b n) H)
         end.
  rewrite !andb_false_r.
  destruct Hq as [->|[->| ->]]; [reflexivity| |];
    repeat match goal with
           | H : ?b <> ?n |- context [?b =? ?n] =>
               rewrite (proj2 (Z.eqb_neq b n) H)
           end; reflexivity.
Qed.

Lemma text_run_normal (q : option Z) (chunk : list ascii) :
  quoting q ->
  Forall (fun x => normal (Xml.code x) = true) chunk ->
  forall acc b0 b1,
  exists b0' b1',
    text_run q acc (Xml.Plain b0 b1) chunk
    = Some ((rev chunk ++ acc)%list, Xml.Plain b0' b1').
Proof.
  intros Hq. induction 1 as [|a chunk Ha _ IH]; intros acc b0 b1.
  - exists b0, b1. reflexivity.
  - cbn [text_run]. rewrite text_step_normal by assumption.
    destruct (IH (a :: acc) b1 (Xml.code a)) as (b0' & b1' & ->).
    exists b0', b1'. cbn [rev]. now rewrite <- app_assoc.
Qed.

Lemma text_step_amp (q : option Z) (acc : list ascii) (b0 b1 : Z) :
  quoting q ->
  Xml.text_step q acc (Xml.Plain b0 b1) "&"%char = Xml.Continue acc Xml.Amp.
Proof.
  intros Hq. unfold Xml.text_step.
  change (Xml.code "&") with 38. cbn [Z.eqb Pos.eqb].
  rewrite !andb_false_r. now destruct Hq as [->|[->| ->]].
Qed.

(** The escape of a character is read back as the character. *)
Lemma text_run_escape_of (q : option Z) (acc : list ascii) (b0 b1 : Z)
    (a : ascii) (w : nat) (esc : string) :
  quoting q ->
  Xml.escape_of (Xml.code a) w = Some esc ->
  Xml.illegal (Xml.code a) w = false ->
  text_run q acc (Xml.Plain b0 b1) (list_ascii_of_string esc)
  = Some (a :: acc, Xml.Plain 0 0).
Proof.
  intros Hq He Hl. unfold Xml.escape_of in He. rewrite Hl in He.
  repeat match type of He with
         | (if ?c then _ else _) = _ =>
             let E := fresh "E" in
             destruct c eqn:E;
             [ apply Z.eqb_eq in E; apply code_eq in E; subst a;
               injection He as <-;
               cbn [list_ascii_of_string text_run];
               rewrite text_step_amp by assumption;
               destruct Hq as [->|[->| ->]]; reflexivity
             | ]
         end.
  discriminate.
Qed.

Lemma text_run_escape (q : option Z) (fuel : nat) :
  quoting q ->
  forall s acc b0 b1,
    Xml.validRunes fuel s = true ->
    exists b0' b1',
      text_run q acc (Xml.Plain b0 b1) (Xml.escapeRunes fuel s)
      = Some ((rev s ++ acc)%list, Xml.Plain b0' b1').
Proof.
  intros Hq. induction fuel as [|fuel IH]; intros s acc b0 b1 Hv.
  - destruct s; [|discriminate]. exists b0, b1. reflexivity.
  - destruct s as [|a s]; [exists b0, b1; reflexivity|].
    cbn [Xml.validRunes Xml.escapeRunes] in *.
    destruct (Xml.decodeRune (a :: s)) as [r w] eqn:Hd.
    apply andb_prop in Hv as [Hl Hv]. apply negb_true_iff in Hl.
    rewrite text_run_app.
    assert (Hrev : forall pre,
               (rev (drop w (a :: s)) ++ rev (take w (a :: s)) ++ pre)%list
               = (rev (a :: s) ++ pre)%list).
    { intros pre. rewrite app_assoc, <- rev_app_distr.
      now rewrite take_drop. }
    destruct (Xml.escape_of r w) as [esc|] eqn:He.
    + (* an escaped character *)
      assert (Hr : r < 128).
      { unfold Xml.escape_of in He. rewrite Hl in He.
        repeat match type of He with
               | (if ?c then _ else _) = _ =>
                   let E := fresh "E" in
                   destruct c eqn:E; [apply Z.eqb_eq in E; lia|]
               end.
        discriminate. }
      destruct (decodeRune_ascii a s r w Hd Hr) as [-> ->].
      rewrite (text_run_escape_of q acc b0 b1 a 1 esc Hq He Hl).
      destruct (IH (drop 1 (a :: s)) (a :: acc) 0 0 Hv) as (b0' & b1' & ->).
      exists b0', b1'. f_equal. f_equal.
      rewrite <- (Hrev acc). reflexivity.
    + (* a copied rune *)
      pose proof (decodeRune_chunk a s r w Hd Hl He) as Hchunk.
      destruct (text_run_normal q _ Hq Hchunk acc b0 b1) as (c0 & c1 & ->).
      destruct (IH (drop w (a :: s)) (rev (take w (a :: s)) ++ acc)%list c0 c1 Hv)
        as (b0' & b1' & ->).
      exists b0', b1'. now rewrite Hrev.
Qed.

(** ** The sidecar: tokens *)

Lemma fold_Text_run (o : list Xml.Token) (st : list string) (s : list ascii) :
  forall acc ts acc' ts',
    text_run None acc ts s = Some (acc', ts') ->
    fold_left Xml.step s {| Xml.out := o; Xml.open := st; Xml.at_ := Xml.Text acc ts |}
    = {| Xml.out := o; Xml.open := st; Xml.at_ := Xml.Text acc' ts' |}.
Proof.
  induction s as [|a s IH]; intros acc ts acc' ts' H; cbn [text_run] in H.
  - now injection H as <- <-.
  - cbn [fold_left]. unfold Xml.step at 2. cbn [Xml.at_].
    destruct (Xml.text_step None acc ts a); try discriminate.
    unfold Xml.goto. cbn [Xml.out Xml.open]. now apply IH.
Qed.

Lemma fold_AttrValue_run (o : list Xml.Token) (st : list string)
    (name : string) (attrs : list (string * string)) (aname : string) (q : Z)
    (s : list ascii) :
  forall acc ts acc' ts',
    text_run (Some q) acc ts s = Some (acc', ts') ->
    fold_left Xml.step s
      {| Xml.out := o; Xml.open := st;
         Xml.at_ := Xml.AttrValue name attrs aname q acc ts |}
    = {| Xml.out := o; Xml.open := st;
         Xml.at_ := Xml.AttrValue name attrs aname q acc' ts' |}.
Proof.
  induction s as [|a s IH]; intros acc ts acc' ts' H; cbn [text_run] in H.
  - now injection H as <- <-.
  - cbn [fold_left]. unfold Xml.step at 2. cbn [Xml.at_].
    destruct (Xml.text_step (Some q) acc ts a); try discriminate.
    unfold Xml.goto. cbn [Xml.out Xml.open]. now apply IH.
Qed.

Lemma string_of_rev_rev (v : string) :
  string_of_list_ascii (rev (rev (list_ascii_of_string v) ++ [])) = v.
Proof.
  rewrite app_nil_r, rev_involutive. apply string_of_list_ascii_of_string.
Qed.

(** An attribute written by the encoder is read as its name and value. *)
Lemma fold_attribute (t0 : Xml.tokenizer) (o : list Xml.Token) (st : list string)
    (name : string) (attrs : list (string * string)) (aname v : string) :
  fold_left Xml.step
    (Xml.bytes " " ++ Xml.bytes aname ++ Xml.bytes "=" ++ [Xml.dquote]) t0
  = {| Xml.out := o; Xml.open := st;
       Xml.at_ := Xml.AttrValue name attrs aname 34 [] (Xml.Plain 0 0) |} ->
  clean v ->
  fold_left Xml.step (Xml.attribute aname v) t0
  = {| Xml.out := o; Xml.open := st;
       Xml.at_ := Xml.InTag name ((aname, v) :: attrs) |}.
Proof.
  intros Hpre Hv. unfold Xml.attribute.
  replace (Xml.bytes " " ++ Xml.bytes aname ++ Xml.bytes "=" ++ [Xml.dquote]
           ++ Xml.EscapeText v ++ [Xml.dquote])%list
    with ((Xml.bytes " " ++ Xml.bytes aname ++ Xml.bytes "=" ++ [Xml.dquote])
          ++ Xml.EscapeText v ++ [Xml.dquote])%list
    by (now rewrite <- !app_assoc).
  rewrite fold_left_app, Hpre, fold_left_app.
  destruct (text_run_escape (Some 34) (length (list_ascii_of_string v))
              ltac:(right; now left) (list_ascii_of_string v) [] 0 0 Hv)
    as (b0 & b1 & Hrun).
  unfold Xml.EscapeText.
  rewrite (fold_AttrValue_run _ _ _ _ _ _ _ _ _ _ _ Hrun).
  cbn [fold_left]. unfold Xml.step. cbn [Xml.at_]. unfold Xml.text_step.
  change (Xml.code Xml.dquote) with 34. cbn [Z.eqb Pos.eqb].
  rewrite !andb_false_r.
  rewrite app_nil_r, rev_involutive. unfold clean in Hv. rewrite Hv.
  unfold Xml.goto. cbn [Xml.out Xml.open].
  now rewrite string_of_list_ascii_of_string.
Qed.

Lemma chardata_rev (v : list ascii) : rev (chardata v) = chardata v.
Proof. now destruct v. Qed.

(** A child element written by the encoder is read as its tokens. *)
Lemma fold_element (o : list Xml.Token) (st : list string) (name v : string) :
  fold_left Xml.step
    (["010"%char] ++ Xml.bytes "    " ++ Xml.bytes "<" ++ Xml.bytes name
     ++ Xml.bytes ">")
    {| Xml.out := o; Xml.open := st; Xml.at_ := Xml.Text [] (Xml.Plain 0 0) |}
  = {| Xml.out := Xml.StartElement name [] :: Xml.CharData indent :: o;
       Xml.open := name :: st;
       Xml.at_ := Xml.Text [] (Xml.Plain 0 0) |} ->
  (forall o',
      fold_left Xml.step (Xml.bytes "/" ++ Xml.bytes name ++ Xml.bytes ">")
        {| Xml.out := o'; Xml.open := name :: st; Xml.at_ := Xml.Lt |}
      = {| Xml.out := Xml.EndElement name :: o'; Xml.open := st;
           Xml.at_ := Xml.Text [] (Xml.Plain 0 0) |}) ->
  clean v ->
  fold_left Xml.step (Xml.element name v)
    {| Xml.out := o; Xml.open := st; Xml.at_ := Xml.Text [] (Xml.Plain 0 0) |}
  = {| Xml.out := (rev (element_tokens name (list_ascii_of_string v)) ++ o)%list;
       Xml.open := st;
       Xml.at_ := Xml.Text [] (Xml.Plain 0 0) |}.
Proof.
  intros Hpre Hpost Hv. unfold Xml.element.
  replace (["010"%char] ++ Xml.bytes "    " ++ Xml.bytes "<" ++ Xml.bytes name
           ++ Xml.bytes ">" ++ Xml.EscapeText v ++ Xml.bytes "</"
           ++ Xml.bytes name ++ Xml.bytes ">")%list
    with ((["010"%char] ++ Xml.bytes "    " ++ Xml.bytes "<" ++ Xml.bytes name
           ++ Xml.bytes ">")
          ++ Xml.EscapeText v
          ++ ["<"%char]
          ++ (Xml.bytes "/" ++ Xml.bytes name ++ Xml.bytes ">"))%list
    by (now rewrite <- !app_assoc).
  rewrite fold_left_app, Hpre, fold_left_app, fold_left_app.
  destruct (text_run_escape None (length (list_ascii_of_string v))
              ltac:(now left) (list_ascii_of_string v) [] 0 0 Hv)
    as (b0 & b1 & Hrun).
  unfold Xml.EscapeText. rewrite (fold_Text_run _ _ _ _ _ _ _ Hrun).
  cbn [fold_left]. unfold Xml.step at 2. cbn [Xml.at_]. unfold Xml.text_step.
  change (Xml.code "<") with 60. cbn [Z.eqb Pos.eqb].
  rewrite !andb_false_r. rewrite app_nil_r.
  unfold element_tokens.
  destruct (list_ascii_of_string v) as [|a l] eqn:Hl.
  - cbn [rev]. unfold Xml.goto. cbn [Xml.out Xml.open].
    rewrite Hpost. reflexivity.
  - destruct (rev (a :: l)) as [|a' l'] eqn:Hrev.
    { apply (f_equal (@length ascii)) in Hrev. rewrite length_rev in Hrev.
      discriminate. }
    rewrite <- Hrev, rev_involutive. unfold clean in Hv. rewrite Hl in Hv.
    rewrite Hv. cbn [Xml.out Xml.open]. rewrite Hpost.
    cbn [chardata app rev]. reflexivity.
Qed.

(** The tokens of a child element fill the field of its name. *)
Lemma unmarshal_element (p : RadikoProg) (name : string) (f : Xml.field)
    (v : list ascii) (rest : list Xml.Token) :
  Xml.field_of name = Some f ->
  Xml.unmarshal Xml.Children p (element_tokens name v ++ rest)
  = Xml.unmarshal Xml.Children (Xml.set_field p f (string_of_list_ascii v)) rest.
Proof.
  intros Hf. unfold element_tokens.
  cbn [app Xml.unmarshal]. rewrite Hf.
  destruct v as [|a v]; cbn [chardata app Xml.unmarshal]; reflexivity.
Qed.

Lemma fold_tag_end (o : list Xml.Token) (st : list string) (name : string)
    (attrs : list (string * string)) :
  fold_left Xml.step (Xml.bytes ">")
    {| Xml.out := o; Xml.open := st; Xml.at_ := Xml.InTag name attrs |}
  = {| Xml.out := Xml.StartElement name (rev attrs) :: o;
       Xml.open := name :: st;
       Xml.at_ := Xml.Text [] (Xml.Plain 0 0) |}.
Proof. reflexivity. Qed.

Lemma fold_prog_end (o : list Xml.Token) (st : list string) :
  fold_left Xml.step (Xml.bytes "</prog>")
    (fold_left Xml.step ["010"%char]
       {| Xml.out := o; Xml.open := "prog" :: st;
          Xml.at_ := Xml.Text [] (Xml.Plain 0 0) |})
  = {| Xml.out := Xml.EndElement "prog" :: Xml.CharData ["010"%char] :: o;
       Xml.open := st;
       Xml.at_ := Xml.Text [] (Xml.Plain 0 0) |}.
Proof. reflexivity. Qed.

(** The tokenizer after the bytes of the opening of the start tag. *)
Lemma fold_prog_start :
  fold_left Xml.step (Xml.bytes "<prog") Xml.start
  = {| Xml.out := []; Xml.open := [];
       Xml.at_ := Xml.StartName (rev (Xml.bytes "prog")) |}.
Proof. reflexivity. Qed.

(** The tokens of the document the encoder writes for a clean program. *)
Lemma tokens_MarshalIndent (p : RadikoProg) :
  cleanProg p -> Xml.tokens (Xml.MarshalIndent p) = sidecar_tokens p.
Proof.
  intros (Hft & Hto & Hftl & Htol & Hdur & Htitle & Hsub & Hpfm & Hdesc
          & Hinfo & Hurl).
  unfold Xml.tokens, Xml.MarshalIndent. rewrite !fold_left_app.
  rewrite fold_prog_start.
  repeat match goal with
         | H : clean ?v
           |- context [fold_left Xml.step (Xml.attribute ?n ?v) ?t] =>
             rewrite (fold_attribute t [] [] "prog" _ n v eq_refl H)
         end.
  rewrite fold_tag_end.
  rewrite (fold_element _ _ "title" (Title p) eq_refl (fun _ => eq_refl) Htitle).
  rewrite (fold_element _ _ "subtitle" (Subtitle p) eq_refl (fun _ => eq_refl) Hsub).
  rewrite (fold_element _ _ "pfm" (Pfm p) eq_refl (fun _ => eq_refl) Hpfm).
  rewrite (fold_element _ _ "desc" (Desc p) eq_refl (fun _ => eq_refl) Hdesc).
  rewrite (fold_element _ _ "info" (Info p) eq_refl (fun _ => eq_refl) Hinfo).
  rewrite (fold_element _ _ "url" (Url p) eq_refl (fun _ => eq_refl) Hurl).
  rewrite fold_prog_end. cbn [Xml.at_ Xml.out].
  unfold sidecar_tokens. cbn [rev].
  rewrite !rev_app_distr, !rev_involutive. cbn [rev app].
  rewrite <- !app_assoc. reflexivity.
Qed.

Lemma unmarshal_sidecar_tokens (p : RadikoProg) :
  Xml.unmarshal Xml.Seeking Xml.zero (sidecar_tokens p) = Some (decoded p).
Proof.
  unfold sidecar_tokens. cbn [app Xml.unmarshal].
  change (String.eqb "prog" "prog") with true. cbv iota.
  cbn [fold_left].
  rewrite (unmarshal_element _ "title" Xml.FTitle _ _ eq_refl).
  rewrite (unmarshal_element _ "subtitle" Xml.FSubtitle _ _ eq_refl).
  rewrite (unmarshal_element _ "pfm" Xml.FPfm _ _ eq_refl).
  rewrite (unmarshal_element _ "desc" Xml.FDesc _ _ eq_refl).
  rewrite (unmarshal_element _ "info" Xml.FInfo _ _ eq_refl).
  rewrite (unmarshal_element _ "url" Xml.FUrl _ _ eq_refl).
  cbn. rewrite !string_of_list_ascii_of_string. reflexivity.
Qed.

(** C7, as the code has it.  A program whose strings are well-formed UTF-8
    text of characters XML allows, written to the sidecar and read back,
    comes back with every string equal to the original: the start and end
    timestamps and their short forms, the duration, the title, the
    subtitle, the performer, the description, the information and the
    address; the name of the element is [prog].  Read through the file
    system, the sidecar a successful [Save] leaves decodes to the program
    saved. *)
Theorem sidecar_round_trip (p : RadikoProg) :
  cleanProg p ->
  Xml.Unmarshal (Xml.Marshal p) = Some (decoded p)
  /\ forall filepath_Join w fs fs' r dir,
       Prog r = p ->
       Save filepath_Join Xml.Marshal w fs r dir = (fs', None) ->
       itemByDir_prog fs' (xmlPath filepath_Join r dir) = Ok (decoded p).
Proof.
  intros Hp.
  assert (Hrt : Xml.Unmarshal (Xml.Marshal p) = Some (decoded p)).
  { unfold Xml.Unmarshal, Xml.Marshal.
    rewrite list_ascii_of_string_of_list_ascii.
    rewrite tokens_MarshalIndent by assumption.
    apply unmarshal_sidecar_tokens. }
  split; [exact Hrt|].
  intros filepath_Join w fs fs' r dir <-.
  unfold Save, MkdirAll, RenameOrCopy, Create, Encode.
  destruct (mkdirAll_err w); [discriminate|]. cbn [files dirs].
  destruct (files fs !! Mp3Path r) as [content|]; [|discriminate].
  destruct (create_err w) as [e|] eqn:Hc.
  { destruct (renameOrCopy_way w); discriminate. }
  destruct (encode_err w) as [[n e]|] eqn:He.
  { destruct (renameOrCopy_way w); discriminate. }
  destruct (renameOrCopy_way w); [| |discriminate];
    intros [= <-]; unfold itemByDir_prog; cbn [files];
    rewrite lookup_insert_eq, Hrt; reflexivity.
Qed.

Lemma sidecar_round_trip_witness :
  cleanProg Example.morning
  /\ Xml.Unmarshal (Xml.Marshal Example.morning) = Some Example.morning.
Proof.
  assert (H : cleanProg Example.morning) by (repeat split; vm_compute; reflexivity).
  split; [exact H|].
  exact (proj1 (sidecar_round_trip Example.morning H)).
Defined.

(** C7 as stated fails for a program whose strings are not XML text.  A
    title that begins with the control character U+0001 is written with
    the replacement character U+FFFD in its place, and that is what is
    read back: the title differs from the original. *)
Lemma sidecar_control_counterexample :
  exists p',
    Xml.Unmarshal (Xml.Marshal Example5.control) = Some p'
    /\ Title p' = Example5.replacement ++ "Morning Show"
    /\ Title p' <> Title Example5.control.
Proof.
  eexists. split; [vm_compute; reflexivity|].
  split; [reflexivity|]. cbn. discriminate.
Qed.



(* ================================================================== *)
(** * Part III: further properties of the code *)
(* ================================================================== *)

(** ** The supervisor: at most six attempts, whatever happens *)

(** X1. Whatever the attempts do and whenever the context is cancelled,
    the loop of the supervisor ends within its thirteen iterations
    (returning, blocking for ever on its channels, or dying of a panic), and
    the attempts it has started by then are at most six, on the output paths
    numbered from 0 in order: a seventh attempt is never started. *)
Theorem run_starts_at_most_six
    (filepath_Join : string -> string -> string) (r : Radiko) (ctx : Context)
    (recordFn : string -> Z -> attempt) (pick : nat -> nat) (start : Z) :
  exists lg n,
    log_of (run filepath_Join r ctx recordFn pick start) = Some lg
    /\ (n <= 6)%nat
    /\ map snd (starts lg) = map (output_of filepath_Join r) (seq 0 n).
Proof.
  destruct (run_loop_paced filepath_Join r ctx recordFn pick 13
              (run_init start) (paced_init filepath_Join r start))
    as (lg & Hlg & n & Hn & Hs).
  - cbn. lia.
  - exists lg, n. auto.
Qed.

(** ** The supervisor: a retry follows a failure only *)

Section Retries.

Variable filepath_Join : string -> string -> string.
Variable r : Radiko.
Variable ctx : Context.
Variable recordFn : string -> Z -> attempt.
Variable pick : nat -> nat.

Let step := run_step filepath_Join r ctx recordFn pick.
Let loop := run_loop filepath_Join r ctx recordFn pick.

(** All the attempts of a log but the last returned an error. *)
Let all_but_last_failed (lg : list event) : Prop :=
  forall prev last,
    starts lg = (prev ++ [last])%list -> Forall (failed recordFn) prev.

Lemma Forall_but_last {A} (P : A -> Prop) (l prev : list A) (last : A) :
  Forall P l -> l = (prev ++ [last])%list -> Forall P prev.
Proof. intros H ->. now apply Forall_app in H as [H _]. Qed.

Lemma retried_all_but_last (st : RunState) (extra : list event) :
  retried recordFn st -> starts extra = [] ->
  all_but_last_failed (log st ++ extra).
Proof.
  intros [_ Hret] Hx prev last. rewrite starts_app, Hx, app_nil_r. intros Hs.
  destruct (flight st).
  - destruct Hret as (prev' & ts & out & Hs' & _ & Hall).
    rewrite Hs' in Hs. apply app_inj_tail in Hs as [<- _]. exact Hall.
  - eapply Forall_but_last; eauto.
Qed.

Lemma retried_init (start : Z) : retried recordFn (run_init start).
Proof. split; [reflexivity|]. constructor. Qed.

Lemma run_step_retried (st : RunState) :
  retried recordFn st ->
  match step st with
  | inl st' => retried recordFn st'
  | inr s => forall lg, log_of s = Some lg -> all_but_last_failed lg
  end.
Proof.
  intros Hret. pose proof Hret as [Hc Hfl]. unfold step, run_step.
  destruct (select _ _) as [[b t]|] eqn:Hsel.
  2:{ intros lg [= <-]. rewrite <- (app_nil_r (log st)).
      now apply retried_all_but_last. }
  apply select_spec in Hsel as [Hin _].
  assert (Hend : forall extra lg,
             Some (log st ++ extra)%list = Some lg -> starts extra = [] ->
             all_but_last_failed lg).
  { intros extra lg [= <-] Hx. now apply retried_all_but_last. }
  assert (Hend0 : forall lg, Some (log st) = Some lg -> all_but_last_failed lg).
  { intros lg [= <-]. rewrite <- (app_nil_r (log st)).
    now apply retried_all_but_last. }
  assert (Hnext : forall te ret e t',
             flight st = Some (Completes te ret (Some e)) ->
             (retry st <? 5)%nat = true ->
             retried recordFn
               {| now := t'; retry := S (retry st);
                  results := append_ret (results st) ret;
                  c := Some (t' + 10); flight := None;
                  selects := S (selects st);
                  log := ((log st ++ [LogFinished t'])
                          ++ [LogGotErr t' e; LogRetryAfter t' 10])%list |}).
  { intros te ret e t' Hf _. split; cbn [c flight log]; [reflexivity|].
    rewrite !starts_app. cbn [starts]. rewrite !app_nil_r.
    rewrite Hf in Hfl. destruct Hfl as (prev & ts & out & -> & Hrec & Hall).
    apply Forall_app. split; [exact Hall|]. constructor; [|constructor].
    exists te, ret, e. cbn [fst snd]. now rewrite <- Hrec. }
  destruct b.
  - (* an attempt starts *)
    assert (Hf : flight st = None).
    { apply Hc. rewrite !in_app_iff in Hin.
      destruct Hin as [Hin|[Hin|Hin]]; apply in_from in Hin as [? (? & ? & ?)];
        congruence. }
    rewrite Hf in Hfl.
    split; cbn [c flight log]; [congruence|].
    rewrite starts_app. cbn [starts]. eexists _, _, _. eauto.
  - (* the context is cancelled *)
    destruct (select _ _) as [[[] ?]|]; try destruct (flight st) as [[]|];
      cbn [log_of]; intros lg Hlg; try rewrite <- app_assoc in Hlg;
      eapply Hend; eauto.
  - destruct (flight st) as [[te ret [e|]| |]|] eqn:Hf; cbn [log_of];
      try (intros lg Hlg; first [ now apply Hend0 | eapply Hend; now eauto ]).
    destruct (retry st <? 5)%nat eqn:Hlt; [eapply Hnext; eauto|].
    cbn [log_of]. intros lg Hlg. rewrite <- app_assoc in Hlg.
    eapply Hend; eauto.
  - destruct (flight st) as [[te ret [e|]| |]|] eqn:Hf; cbn [log_of];
      try (intros lg Hlg; first [ now apply Hend0 | eapply Hend; now eauto ]).
    destruct (retry st <? 5)%nat eqn:Hlt; [eapply Hnext; eauto|].
    cbn [log_of]. intros lg Hlg. rewrite <- app_assoc in Hlg.
    eapply Hend; eauto.
Qed.

Lemma run_loop_retried (fuel : nat) :
  forall st lg,
    retried recordFn st -> log_of (loop fuel st) = Some lg ->
    all_but_last_failed lg.
Proof.
  induction fuel as [|fuel IH]; intros st lg Hret; [discriminate|].
  unfold loop. cbn [run_loop]. fold step. fold loop.
  pose proof (run_step_retried st Hret) as Hstep.
  destruct (step st) as [st'|s]; [now apply IH | apply Hstep].
Qed.

End Retries.

(** X2. The supervisor retries after a failure only: in every session,
    however it ends, each attempt except the last one started had returned
    an error.  An attempt that returns without error is therefore the last
    of its session. *)
Theorem run_retries_after_failure_only
    (filepath_Join : string -> string -> string) (r : Radiko) (ctx : Context)
    (recordFn : string -> Z -> attempt) (pick : nat -> nat) (start : Z)
    (lg : list event) (prev : list (Z * string)) (last : Z * string) :
  log_of (run filepath_Join r ctx recordFn pick start) = Some lg ->
  starts lg = (prev ++ [last])%list ->
  Forall (fun s => exists te ret e,
              recordFn (snd s) (fst s) = Completes te ret (Some e)) prev.
Proof.
  intros Hlg Hs.
  exact (run_loop_retried filepath_Join r ctx recordFn pick 13
           (run_init start) lg (retried_init recordFn start) Hlg prev last Hs).
Qed.

(** ** The supervisor: nothing is started after a cancellation *)

Section CancelEnds.

Variable filepath_Join : string -> string -> string.
Variable r : Radiko.
Variable ctx : Context.
Variable recordFn : string -> Z -> attempt.
Variable pick : nat -> nat.

Let step := run_step filepath_Join r ctx recordFn pick.
Let loop := run_loop filepath_Join r ctx recordFn pick.

(** A cancellation seen is the last thing but one the log tells, and
    what follows it is no start of an attempt. *)
Let ends_at_cancel (lg : list event) : Prop :=
  forall T, In T (cancellations lg) ->
    exists pre e tail,
      lg = (pre ++ LogContextErr T e :: tail)%list
      /\ cancellations pre = []
      /\ starts tail = []
      /\ (length tail <= 1)%nat.

Lemma quiet_ends_at_cancel (lg extra : list event) :
  cancellations lg = [] -> cancellations extra = [] ->
  ends_at_cancel (lg ++ extra).
Proof.
  intros H1 H2 T. rewrite cancellations_app, H1, H2. intros [].
Qed.

Lemma cancel_ends_at_cancel (lg tail : list event) (T : Z) (e : error) :
  cancellations lg = [] -> cancellations tail = [] -> starts tail = [] ->
  (length tail <= 1)%nat ->
  ends_at_cancel ((lg ++ [LogContextErr T e]) ++ tail).
Proof.
  intros H1 H2 H3 H4 T'. rewrite !cancellations_app, H1, H2.
  cbn [cancellations app]. intros [<-|[]].
  exists lg, e, tail. rewrite <- app_assoc. auto.
Qed.

Lemma run_step_ends_at_cancel (st : RunState) (s : session) (lg : list event) :
  cancellations (log st) = [] -> step st = inr s -> log_of s = Some lg ->
  ends_at_cancel lg.
Proof.
  intros Hcan. unfold step, run_step.
  assert (H0 : ends_at_cancel (log st)).
  { rewrite <- (app_nil_r (log st)). now apply quiet_ends_at_cancel. }
  destruct (select _ _) as [[b t]|]; [|now intros [= <-] [= <-]].
  destruct b.
  - discriminate.
  - destruct (select _ _) as [[[] ?]|]; try destruct (flight st) as [[]|];
      intros [= <-] [= <-];
      first [ apply cancel_ends_at_cancel; (reflexivity || (cbn; lia) || assumption)
            | rewrite <- (app_nil_r (_ ++ [_]));
              apply cancel_ends_at_cancel;
              (reflexivity || (cbn; lia) || assumption) ].
  - destruct (flight st) as [[te ret [e|]| |]|]; try destruct (retry st <? 5)%nat;
      try discriminate; intros [= <-] [= <-]; try exact H0;
      try rewrite <- app_assoc; now apply quiet_ends_at_cancel.
  - destruct (flight st) as [[te ret [e|]| |]|]; try destruct (retry st <? 5)%nat;
      try discriminate; intros [= <-] [= <-]; try exact H0;
      try rewrite <- app_assoc; now apply quiet_ends_at_cancel.
Qed.

Lemma run_loop_ends_at_cancel (fuel : nat) :
  forall st lg,
    supervised recordFn st -> log_of (loop fuel st) = Some lg ->
    ends_at_cancel lg.
Proof.
  induction fuel as [|fuel IH]; intros st lg Hsup; [discriminate|].
  unfold loop. cbn [run_loop]. fold step. fold loop.
  destruct (step st) as [st'|s] eqn:Hstep.
  - apply IH. eapply run_step_supervised; eauto.
  - eapply run_step_ends_at_cancel; eauto. apply Hsup.
Qed.

End CancelEnds.

(** X3. Once the supervisor has seen its context cancelled it starts no
    attempt: in the log of every session the line of the cancellation is
    the first of its kind, at most one line follows it, and that line is
    no start of an attempt. *)
Theorem run_starts_nothing_after_cancel
    (filepath_Join : string -> string -> string) (r : Radiko) (ctx : Context)
    (recordFn : string -> Z -> attempt) (pick : nat -> nat) (start : Z)
    (lg : list event) (T : Z) :
  log_of (run filepath_Join r ctx recordFn pick start) = Some lg ->
  In T (cancellations lg) ->
  exists pre e tail,
    lg = (pre ++ LogContextErr T e :: tail)%list
    /\ cancellations pre = []
    /\ starts tail = []
    /\ (length tail <= 1)%nat.
Proof.
  intros Hlg.
  exact (run_loop_ends_at_cancel filepath_Join r ctx recordFn pick 13
           (run_init start) lg (supervised_init recordFn start) Hlg T).
Qed.

(** ** The second auth stage: what the guard lets through *)

Lemma groups_length (k : nat) :
  forall s gs r, GoRegexp.groups k s = Some (gs, r) -> length gs = S k.
Proof.
  induction k as [|k IHk].
  - intros s gs r. cbn [GoRegexp.groups].
    destruct (GoRegexp.dotStar s). now intros [= <- _].
  - induction s as [|a rest IHs]; intros gs r H; rewrite groups_unfold in H.
    + discriminate.
    + cbn zeta in H.
      assert (Hstop : forall gs r,
                 (if GoRegexp.isComma a
                  then match GoRegexp.groups k rest with
                       | Some (gs, r) => Some ([] :: gs, r)
                       | None => None
                       end
                  else None) = Some (gs, r) -> length gs = S (S k)).
      { intros gs' r' Hs. destruct (GoRegexp.isComma a); [|discriminate].
        destruct (GoRegexp.groups k rest) as [[gs0 r0]|] eqn:Hg; [|discriminate].
        injection Hs as <- _. cbn [length]. f_equal. eauto. }
      destruct (GoRegexp.isNewline a); [now apply Hstop in H|].
      set (star := GoRegexp.groups (S k)) in IHs.
      destruct (GoRegexp.groups (S k) rest) as [[[|g gs0] r0]|] eqn:Hg.
      * now apply Hstop in H.
      * injection H as <- _. apply IHs in Hg. exact Hg.
      * now apply Hstop in H.
Qed.

Lemma findAll_four (fuel : nat) :
  forall s m, In m (GoRegexp.findAll fuel s) -> length m = 4%nat.
Proof.
  induction fuel as [|fuel IH]; intros s m; [intros []|].
  cbn [GoRegexp.findAll]. unfold GoRegexp.matchHere.
  destruct (GoRegexp.groups 2 s) as [[gs r]|] eqn:Hg.
  - intros [<-|Hin]; [|eauto].
    apply groups_length in Hg. cbn [length]. rewrite length_map. lia.
  - destruct s; [intros []|eauto].
Qed.

(** X4. The guard of the second auth stage is dead code: for no body does
    the stage return an error, "failed to auth" or other.  It panics when
    the pattern matches nowhere in the body and returns an area when it
    matches somewhere. *)
Theorem auth2_never_fails (body : string) :
  match auth2 body with
  | Returned (Ok _) => GoRegexp.FindAllStringSubmatch body <> []
  | Returned (Err _) => False
  | Panicked _ => GoRegexp.FindAllStringSubmatch body = []
  end.
Proof.
  unfold auth2.
  pose proof (findAll_four (S (length (list_ascii_of_string body)))
                (list_ascii_of_string body)) as H4.
  fold (GoRegexp.FindAllStringSubmatch body) in H4.
  destruct (GoRegexp.FindAllStringSubmatch body) as [|m rest]; [reflexivity|].
  pose proof (H4 m (or_introl eq_refl)) as Hm.
  assert (Hguard : match rest with
                   | [] => negb (length m =? 4)%nat
                   | _ => false
                   end = false).
  { destruct rest; [|reflexivity]. rewrite Hm. reflexivity. }
  replace (match m :: rest with
           | [m0] => negb (length m0 =? 4)%nat
           | _ => false
           end)
    with (match rest with
          | [] => negb (length m =? 4)%nat
          | _ => false
          end) by (now destruct rest).
  rewrite Hguard.
  destruct m as [|whole [|area m']]; discriminate.
Qed.

(** ** The second auth stage: the area it reads *)

Lemma dotStar_oneline (s : list ascii) :
  oneline s -> GoRegexp.dotStar s = (s, []).
Proof.
  induction 1 as [|a s Ha _ IH]; [reflexivity|].
  cbn [GoRegexp.dotStar]. now rewrite Ha, IH.
Qed.

Lemma groups_none (k : nat) (s : list ascii) :
  (commas s < k)%nat -> GoRegexp.groups k s = None.
Proof.
  intros H. destruct (GoRegexp.groups k s) as [[gs r]|] eqn:Hg; [|reflexivity].
  apply groups_commas in Hg. lia.
Qed.

Lemma commas_app (s t : list ascii) :
  commas (s ++ t) = (commas s + commas t)%nat.
Proof.
  induction s as [|a s IH]; [reflexivity|]. cbn [app commas]. rewrite IH. lia.
Qed.

(** The greedy group before the last [k] fields: it takes everything up
    to the comma before them. *)
Lemma groups_greedy (k : nat) (fields : list ascii) (gs : list (list ascii)) :
  commas fields = k ->
  GoRegexp.groups k fields = Some (gs, []) ->
  forall pre,
    oneline pre ->
    GoRegexp.groups (S k) (pre ++ ","%char :: fields)%list = Some (pre :: gs, []).
Proof.
  intros Hk Hg. induction 1 as [|a pre Ha _ IH]; rewrite groups_unfold.
  - cbn [app]. cbn zeta.
    change (GoRegexp.isNewline ","%char) with false.
    change (GoRegexp.isComma ","%char) with true. cbv iota.
    rewrite (groups_none (S k) fields) by lia. now rewrite Hg.
  - cbn [app]. cbn zeta. rewrite Ha, IH. reflexivity.
Qed.

Lemma list_ascii_of_string_app (s t : string) :
  list_ascii_of_string (s ++ t)
  = (list_ascii_of_string s ++ list_ascii_of_string t)%list.
Proof.
  induction s as [|a s IH]; [reflexivity|].
  simpl. f_equal. exact IH.
Qed.

Lemma Count_newline_oneline (s : string) :
  GoStrings.Count s "010"%char = 0%nat -> oneline (list_ascii_of_string s).
Proof.
  induction s as [|a s IH]; [constructor|].
  cbn [GoStrings.Count list_ascii_of_string]. unfold oneline in *.
  fold (GoRegexp.isNewline a). destruct (GoRegexp.isNewline a) eqn:Ha;
    [discriminate|].
  intros H. constructor; auto.
Qed.

(** X5. For a body of one line the area [auth] returns is the text before
    the last comma but one: of a body of three fields it is the first
    field, and of a body of more fields it is all the fields but the last
    two, commas included.  The token is that of the first stage. *)
Theorem auth_area_before_last_two_fields (authtoken pre f2 f3 : string) :
  GoStrings.Count pre "010"%char = 0%nat ->
  GoStrings.Count f2 "010"%char = 0%nat ->
  GoStrings.Count f3 "010"%char = 0%nat ->
  GoStrings.Count f2 "," = 0%nat ->
  GoStrings.Count f3 "," = 0%nat ->
  auth {| stage1 := Ok authtoken;
          stage2 := Ok (pre ++ "," ++ f2 ++ "," ++ f3) |}
  = Returned (Ok (authtoken, pre)).
Proof.
  intros Hpre Hl2 Hl3 Hc2 Hc3.
  apply Count_newline_oneline in Hpre, Hl2, Hl3.
  rewrite Count_commas in Hc2, Hc3.
  assert (H0 : GoRegexp.groups 0 (list_ascii_of_string f3)
               = Some ([list_ascii_of_string f3], [])).
  { cbn [GoRegexp.groups]. now rewrite dotStar_oneline. }
  pose proof (groups_greedy 0 _ _ Hc3 H0 _ Hl2) as H1.
  assert (Hk : commas (list_ascii_of_string f2 ++ ","%char :: list_ascii_of_string f3)
               = 1%nat).
  { rewrite commas_app. cbn [commas].
    change (GoRegexp.isComma ","%char) with true. cbv iota. lia. }
  pose proof (groups_greedy 1 _ _ Hk H1 _ Hpre) as H2.
  unfold auth, auth2, GoRegexp.FindAllStringSubmatch. cbn [stage1 stage2].
  rewrite !list_ascii_of_string_app. cbn [list_ascii_of_string app].
  cbn [GoRegexp.findAll]. unfold GoRegexp.matchHere. rewrite H2.
  match goal with
  | |- context [GoRegexp.findAll ?n []] =>
      replace (GoRegexp.findAll n []) with (@nil (list string))
        by (now destruct n)
  end.
  cbn [map length Nat.eqb negb]. rewrite string_of_list_ascii_of_string.
  reflexivity.
Qed.

(** ** Finding the converter and building its command *)

(** X6. [lookConverterCommand] prefers ffmpeg to avconv and fails only
    when neither is found.  When the path found for a name ends in that
    name, as the paths [exec.LookPath] returns on Unix do, the converter it
    resolves is always accepted by [newConverterCmd]: the command is the
    ffmpeg template if ffmpeg was found and the avconv template
    otherwise. *)
Theorem lookConverterCommand_resolves
    (lookPath : string -> result string)
    (bitrate output title author : string) :
  (forall name p, lookPath name = Ok p -> GoStrings.HasSuffix p name = true) ->
  match lookConverterCommand lookPath with
  | Ok path =>
      match lookPath "ffmpeg" with
      | Ok ffmpeg =>
          path = ffmpeg
          /\ Converter.newConverterCmd path bitrate output title author
             = Ok (Converter.newFfmpegCmd ffmpeg bitrate output title author)
      | Err _ =>
          lookPath "avconv" = Ok path
          /\ Converter.newConverterCmd path bitrate output title author
             = Ok (Converter.newAvconvCmd path bitrate output)
      end
  | Err _ =>
      (exists e, lookPath "ffmpeg" = Err e)
      /\ (exists e, lookPath "avconv" = Err e)
  end.
Proof.
  intros Hsuffix. unfold lookConverterCommand.
  destruct (lookPath "ffmpeg") as [ffmpeg|e1] eqn:H1.
  - split; [reflexivity|].
    unfold Converter.newConverterCmd, Converter.match_ffmpeg.
    now rewrite (Hsuffix _ _ H1).
  - destruct (lookPath "avconv") as [avconv|e2] eqn:H2.
    + split; [reflexivity|].
      pose proof (Hsuffix _ _ H2) as Ha.
      unfold Converter.newConverterCmd.
      fold (Converter.match_avconv avconv) in Ha.
      now rewrite (avconv_not_ffmpeg _ Ha), Ha.
    + split; eauto.
Qed.

(** ** The capture call and the HTTP call: when they return nil *)

(** X7. [download] returns nil only when nothing went wrong: the commands
    were built, the pipe was made, the converter started, the capture
    process and the converter both ended without error, and the call
    returned on that completion, not on a cancellation.  Once it has taken
    the cancellation it never returns nil. *)
Theorem download_nil_means_clean
    (converter : string) (w : DownloadWorld) (ctx : Context) (start t : Z)
    (authtoken station sec bitrate output title author : string) :
  download converter w ctx start authtoken station sec bitrate output title author
  = ReturnsAt t None ->
  exists rtmp conv t1 t2,
    downloadCmds converter w authtoken station sec bitrate output title author
    = Ok (rtmp, conv)
    /\ stdoutPipe w = None
    /\ converter_Start (processes w rtmp conv None) = None
    /\ rtmpdump_Run (processes w rtmp conv None) = Some (t1, None)
    /\ converter_Wait (processes w rtmp conv None) = Some (t2, None)
    /\ t = Z.max start t2.
Proof.
  unfold download.
  destruct (downloadCmds _ _ _ _ _ _ _ _ _) as [[rtmp conv]|e]; [|discriminate].
  destruct (stdoutPipe w); [discriminate|].
  destruct (pipeline start (processes w rtmp conv None)) as [[te e]|] eqn:Hp.
  - cbn [fmap option_fmap option_map fst from].
    destruct (select _ _) as [[b t']|] eqn:Hsel; [|discriminate].
    apply select_spec in Hsel as [Hin _].
    destruct b.
    + apply in_app_iff in Hin as [Hin|[Hb|[]]]; [|discriminate Hb].
      apply in_from in Hin as [Hb _]; discriminate Hb.
    + destruct (negb _); [discriminate|].
      destruct (te <=? t'); [destruct e|
        destruct (pipeline start (processes w rtmp conv (Some t'))) as [[? []]|]];
        discriminate.
    + intros [= -> ->].
      apply in_app_iff in Hin as [Hin|[[= <-]|[]]];
        [apply in_from in Hin as [Hb _]; discriminate Hb|].
      unfold pipeline in Hp.
      destruct (converter_Start _) eqn:Hs; [discriminate|].
      destruct (rtmpdump_Run _) as [[t1 [e1|]]|] eqn:Hr; try discriminate.
      destruct (converter_Wait _) as [[t2 [e2|]]|] eqn:Hw; try discriminate.
      injection Hp as <-. exists rtmp, conv, t1, t2. auto 10.
    + apply in_app_iff in Hin as [Hin|[Hb|[]]]; [|discriminate Hb].
      apply in_from in Hin as [Hb _]; discriminate Hb.
  - cbn [fmap option_fmap option_map from app].
    destruct (select _ _) as [[[] t']|]; try discriminate.
    destruct (negb _); [discriminate|].
    destruct (pipeline start (processes w rtmp conv (Some t'))) as [[? []]|];
      discriminate.
Qed.

(** X8. [httpDo] returns nil only when the callback returned nil and the
    call returned on that, at the instant the callback ended.  Once it has
    taken the cancellation it waits for the callback and returns its error,
    or the error of the context: never nil. *)
Theorem httpDo_nil_means_done
    (ctx : Context) (start : Z) (pick : nat)
    (callback : option Z -> option (Z * option error)) (t : Z) :
  httpDo ctx start pick callback = ReturnsAt t None ->
  exists te, callback None = Some (te, None) /\ t = Z.max start te.
Proof.
  unfold httpDo.
  destruct (callback None) as [[te e]|] eqn:Hc.
  - cbn [fmap option_fmap option_map fst from].
    destruct (select _ _) as [[b t']|] eqn:Hsel; [|discriminate].
    apply select_spec in Hsel as [Hin _].
    destruct b.
    + apply in_app_iff in Hin as [Hin|[Hb|[]]]; [|discriminate Hb].
      apply in_from in Hin as [Hb _]; discriminate Hb.
    + destruct (te <=? t'); [destruct e|
        destruct (callback (Some t')) as [[? []]|]]; discriminate.
    + intros [= -> ->].
      apply in_app_iff in Hin as [Hin|[[= <-]|[]]];
        [apply in_from in Hin as [Hb _]; discriminate Hb|].
      exists te. auto.
    + apply in_app_iff in Hin as [Hin|[Hb|[]]]; [|discriminate Hb].
      apply in_from in Hin as [Hb _]; discriminate Hb.
  - cbn [fmap option_fmap option_map from app].
    destruct (select _ _) as [[[] t']|]; try discriminate.
    destruct (callback (Some t')) as [[? []]|]; discriminate.
Qed.

(** ** What a lookup and an attempt return *)

Section LookupResults.

Variable loc : Z.

Lemma scanProgs_Ok_still (now : Z) (progs : list RadikoProg) :
  forall tick p tick',
    scanProgs loc (still now) tick progs = (Some (Ok p), tick') ->
    airing loc now p = true /\ In p progs.
Proof.
  induction progs as [|q rest IH]; intros tick p tick' H; [discriminate|].
  cbn [scanProgs] in H. unfold FtTime, ToTime in H.
  destruct (GoTime.ParseInLocation loc (Ft q)) as [ft|] eqn:Hft; [|discriminate].
  destruct (GoTime.ParseInLocation loc (To q)) as [to|] eqn:Hto; [|discriminate].
  unfold still at 1 2 in H.
  destruct ((ft <=? now) && (now <? to)) eqn:Hair.
  - injection H as <- _. split; [|now left].
    unfold airing. now rewrite Hft, Hto.
  - apply IH in H as [H1 H2]. split; [exact H1 | now right].
Qed.

Lemma nowProgram_Ok_still (sched : RadikoPrograms) (now : Z) (station : string) :
  forall tick p tick',
    nowProgram loc (Ok sched) (still now) tick station = (Ok p, tick') ->
    airing loc now p = true /\ In p (listed station sched).
Proof.
  unfold nowProgram, listed. destruct sched as [stations]. cbn [Stations_Station].
  induction stations as [|s rest IH]; intros tick p tick' H; [discriminate|].
  cbn [scanStations flat_map] in *.
  destruct (String.eqb (Id s) station).
  - destruct (scanProgs loc (still now) tick (Scd_Progs_Prog s))
      as [[res|] t1] eqn:Hs.
    + injection H as -> ->. apply scanProgs_Ok_still in Hs as [H1 H2].
      split; [exact H1 | apply in_or_app; now left].
    + apply IH in H as [H1 H2]. split; [exact H1 | apply in_or_app; now right].
  - now apply IH in H.
Qed.

End LookupResults.

(** X9. [record] hands over a result only when everything before the
    download went well and the file is there.  At a standing clock, a
    result names the output path and the station it was asked for, and its
    program is one listed under that station in the schedule of the area
    [auth] returned, on the air at that instant. *)
Theorem record_result_is_on_air
    (loc : Z) (Time_String : Z -> string)
    (r : Radiko) (w : RecordWorld) (ctx : Context) (start : Z)
    (output station bitrate : string) (buffer : Z)
    (now t : Z) (res : RadikoResult) (err : option error) :
  w_clock w = still now ->
  record loc Time_String r w ctx start output station bitrate buffer
  = Completes t (Some res) err ->
  w_stat w output = true
  /\ Mp3Path res = output
  /\ Station res = station
  /\ airing loc now (Prog res) = true
  /\ exists authtoken area sched,
       auth (w_auth w) = Returned (Ok (authtoken, area))
       /\ w_today w area = Ok sched
       /\ In (Prog res) (listed station sched).
Proof.
  intros Hclock. unfold record. rewrite Hclock.
  destruct (auth (w_auth w)) as [[[authtoken area]|e]|msg]; try discriminate.
  destruct (nowProgram loc (w_today w area) (still now) 0 station)
    as [[prog|e] tick] eqn:Hnow; [|discriminate].
  destruct (Duration loc (still now) tick prog) as [[d|e] tick']; [|discriminate].
  destruct (FtTime loc prog) as [ft|e]; [|discriminate].
  destruct (download _ _ _ _ _ _ _ _ _ _ _) as [t0 err0| |t0 msg0];
    [|discriminate|discriminate].
  destruct (w_stat w output) eqn:Hstat; [|discriminate].
  intros [= <- <- <-]. cbn [Mp3Path Station Prog].
  destruct (w_today w area) as [sched|e] eqn:Htoday; [|discriminate].
  apply nowProgram_Ok_still in Hnow as [Hair Hin].
  repeat split; try assumption. exists authtoken, area, sched. auto.
Qed.

(** X10. For the program the lookup returns at a standing clock,
    [Duration] succeeds and the seconds left are positive and at most the
    length of the program: the capture is never asked to stop before it
    starts. *)
Theorem Duration_of_current_program_positive
    (loc : Z) (today : result RadikoPrograms) (now : Z) (station : string)
    (tick : nat) (p : RadikoProg) (tick' : nat) :
  nowProgram loc today (still now) tick station = (Ok p, tick') ->
  exists ft to,
    FtTime loc p = Ok ft /\ ToTime loc p = Ok to
    /\ Duration loc (still now) tick' p = (Ok (to - now), S tick')
    /\ 0 < to - now <= to - ft.
Proof.
  intros H. destruct today as [sched|e]; [|discriminate].
  apply nowProgram_Ok_still in H as [Hair _].
  unfold airing in Hair. unfold FtTime, ToTime, Duration, ToTime.
  destruct (GoTime.ParseInLocation loc (Ft p)) as [ft|]; [|discriminate].
  destruct (GoTime.ParseInLocation loc (To p)) as [to|]; [|discriminate].
  exists ft, to. apply andb_prop in Hair as [H1 H2].
  apply Z.leb_le in H1. apply Z.ltb_lt in H2.
  repeat split; unfold still; lia.
Qed.

(** ** The stations listed and the stations found *)

Lemma scanStations_unknown (loc : Z) (clock : Clock) (station : string)
    (stations : list StationEntry) :
  forall tick,
    ~ In station (map Id stations) ->
    scanStations loc clock tick station stations = (Err not_found, tick).
Proof.
  induction stations as [|s rest IH]; intros tick Hnot; [reflexivity|].
  cbn [scanStations]. cbn [map] in Hnot.
  destruct (String.eqb (Id s) station) eqn:Heq.
  - apply String.eqb_eq in Heq. contradict Hnot. now left.
  - apply IH. intros Hin. apply Hnot. now right.
Qed.

(** X11. [StationList] returns the identifiers of the stations of the
    schedule, in its order, and they are the only stations a lookup can
    find: for an identifier it does not list, [nowProgram] on the same
    schedule fails with the not-found error, whatever the clock and
    whatever the timestamps. *)
Theorem StationList_bounds_lookup
    (loc : Z) (w : AuthWorld) (today : string -> result RadikoPrograms)
    (authtoken area : string) (ids : list string) :
  auth w = Returned (Ok (authtoken, area)) ->
  StationList w today = Returned (Ok ids) ->
  exists sched,
    today area = Ok sched
    /\ ids = map Id (Stations_Station sched)
    /\ forall station clock tick,
         ~ In station ids ->
         nowProgram loc (today area) clock tick station = (Err not_found, tick).
Proof.
  intros Hauth. unfold StationList. rewrite Hauth.
  destruct (today area) as [sched|e]; [|discriminate].
  intros [= <-]. exists sched. repeat split.
  intros station clock tick Hnot. unfold nowProgram.
  now apply scanStations_unknown.
Qed.

(** ** The feed server on what the recorder saved *)

Section ServerFacts.

Variable filepath_Join : string -> string -> string.
Variable open_err : string -> option error.

(** X12. The server never serves an audio file without its sidecar: it
    answers 404 when [podcast.m4a] or [podcast.xml] is missing from the
    program directory, and when it serves a content, that content is the
    file [podcast.m4a] of the directory and the sidecar is there. *)
Theorem serve_m4a_needs_both (s : Server) (fs : FS) (dir : string) :
  let m4a := filepath_Join (filepath_Join (Output s) dir) "podcast.m4a" in
  let xml := filepath_Join (filepath_Join (Output s) dir) "podcast.xml" in
  (Stat fs m4a = false \/ Stat fs xml = false ->
   serve_m4a filepath_Join open_err s fs dir = NotFound)
  /\ (forall name content,
        serve_m4a filepath_Join open_err s fs dir = ServeContent name content ->
        name = "podcast.m4a"
        /\ files fs !! m4a = Some content
        /\ Stat fs xml = true).
Proof.
  intros m4a xml. unfold serve_m4a, server_m4aPath, server_xmlPath, pathStat.
  fold m4a. fold xml.
  assert (Hempty : Stat fs "" = false) by reflexivity.
  destruct (Stat fs m4a) eqn:Hm; cbn [negb].
  - rewrite Hm. cbn [negb].
    destruct (Stat fs xml) eqn:Hx; cbn [negb].
    + rewrite Hx. cbn [negb]. split; [intros [|]; discriminate|].
      intros name content.
      destruct (open_err m4a); [discriminate|].
      destruct (files fs !! m4a); [|discriminate].
      intros [= <- <-]. auto.
    + rewrite Hempty. cbn [negb]. split; [reflexivity | discriminate].
  - rewrite Hempty. cbn [negb]. split; [reflexivity | discriminate].
Qed.

End ServerFacts.

Lemma Stat_file (fs : FS) (path content : string) :
  path <> "" -> files fs !! path = Some content -> Stat fs path = true.
Proof.
  intros Hne Hl. unfold Stat, exists_file.
  apply String.eqb_neq in Hne. rewrite Hne, Hl. cbn [negb andb].
  apply orb_true_intro. left. apply bool_decide_eq_true. eauto.
Qed.

(** The files a successful [Save] leaves at its two paths. *)
Lemma Save_success_files
    (filepath_Join : string -> string -> string)
    (xml_Marshal : RadikoProg -> string)
    (w : SaveWorld) (fs fs' : FS) (r : RadikoResult) (dir content : string) :
  files fs !! Mp3Path r = Some content ->
  m4aPath filepath_Join r dir <> xmlPath filepath_Join r dir ->
  Save filepath_Join xml_Marshal w fs r dir = (fs', None) ->
  files fs' !! m4aPath filepath_Join r dir = Some content
  /\ files fs' !! xmlPath filepath_Join r dir = Some (xml_Marshal (Prog r)).
Proof.
  intros Hsrc Hne. unfold Save, MkdirAll, RenameOrCopy, Create, Encode.
  destruct (mkdirAll_err w); [discriminate|]. cbn [files dirs].
  rewrite Hsrc.
  destruct (create_err w) as [e|] eqn:Hc.
  { destruct (renameOrCopy_way w); discriminate. }
  destruct (encode_err w) as [[n e]|] eqn:He.
  { destruct (renameOrCopy_way w); discriminate. }
  destruct (renameOrCopy_way w); [| |discriminate];
    intros [= <-]; cbn [files]; split;
    rewrite ?lookup_insert_eq; try reflexivity;
    rewrite !lookup_insert_ne by congruence;
    now rewrite lookup_insert_eq.
Qed.

(** X13. What [Save] stores the server serves: after a [Save] without
    error into the directory the server publishes, a request for the
    program named by the start timestamp and the station is answered with
    the content of the captured file, under the name [podcast.m4a]. *)
Theorem Save_then_served
    (filepath_Join : string -> string -> string)
    (xml_Marshal : RadikoProg -> string) (open_err : string -> option error)
    (w : SaveWorld) (fs fs' : FS) (r : RadikoResult) (s : Server)
    (content : string) :
  files fs !! Mp3Path r = Some content ->
  m4aPath filepath_Join r (Output s) <> xmlPath filepath_Join r (Output s) ->
  m4aPath filepath_Join r (Output s) <> "" ->
  xmlPath filepath_Join r (Output s) <> "" ->
  open_err (m4aPath filepath_Join r (Output s)) = None ->
  Save filepath_Join xml_Marshal w fs r (Output s) = (fs', None) ->
  serve_m4a filepath_Join open_err s fs' (Ft (Prog r) ++ "_" ++ Station r)
  = ServeContent "podcast.m4a" content.
Proof.
  intros Hsrc Hne Hm Hx Hopen Hsave.
  destruct (Save_success_files _ _ _ _ _ _ _ _ Hsrc Hne Hsave) as [Hfm Hfx].
  pose proof (Stat_file _ _ _ Hm Hfm) as Hsm.
  pose proof (Stat_file _ _ _ Hx Hfx) as Hsx.
  unfold m4aPath, xmlPath, programDir in *.
  unfold serve_m4a, server_m4aPath, server_xmlPath, pathStat.
  rewrite Hsm. cbn [negb]. rewrite Hsm, Hsx. cbn [negb].
  rewrite Hsx. cbn [negb]. rewrite Hopen, Hfm. reflexivity.
Qed.

Lemma Unmarshal_Marshal_clean (p : RadikoProg) :
  cleanProg p -> Xml.Unmarshal (Xml.Marshal p) = Some (decoded p).
Proof.
  intros Hp. unfold Xml.Unmarshal, Xml.Marshal.
  rewrite list_ascii_of_string_of_list_ascii.
  rewrite tokens_MarshalIndent by assumption.
  apply unmarshal_sidecar_tokens.
Qed.

(** X14. The feed item of a saved program: after a [Save] without error
    of a program of clean strings, [itemByDir] on its directory returns an
    item whose title is the title of the program followed by its start time
    in parentheses, whose author and summary are the performer and the
    information of the program, and whose enclosure has the length of the
    captured file. *)
Theorem Save_then_itemByDir
    (filepath_Join : string -> string -> string)
    (open_err : string -> option error) (loc : Z) (Time_String : Z -> string)
    (w : SaveWorld) (fs fs' : FS) (r : RadikoResult) (s : Server)
    (content : string) :
  cleanProg (Prog r) ->
  files fs !! Mp3Path r = Some content ->
  m4aPath filepath_Join r (Output s) <> xmlPath filepath_Join r (Output s) ->
  m4aPath filepath_Join r (Output s) <> "" ->
  xmlPath filepath_Join r (Output s) <> "" ->
  open_err (xmlPath filepath_Join r (Output s)) = None ->
  Save filepath_Join Xml.Marshal w fs r (Output s) = (fs', None) ->
  itemByDir filepath_Join open_err loc Time_String s fs' None
    (Ft (Prog r) ++ "_" ++ Station r)
  = Ok {| Item_Title :=
            Title (Prog r) ++ " ("
            ++ Time_String match FtTime loc (Prog r) with
                           | Ok t => t
                           | Err _ => zeroTime
                           end
            ++ ")";
          ITunesAuthor := Pfm (Prog r);
          ITunesSummary := Info (Prog r);
          Enclosure_Type := "audio/mpeg";
          Enclosure_Length := String.length content |}.
Proof.
  intros Hclean Hsrc Hne Hm Hx Hopen Hsave.
  destruct (Save_success_files _ _ _ _ _ _ _ _ Hsrc Hne Hsave) as [Hfm Hfx].
  pose proof (Stat_file _ _ _ Hm Hfm) as Hsm.
  pose proof (Stat_file _ _ _ Hx Hfx) as Hsx.
  unfold m4aPath, xmlPath, programDir in *.
  unfold itemByDir, server_m4aPath, server_xmlPath, pathStat.
  rewrite Hsm, Hsx, Hopen, Hfx, Hfm. cbn [option_map].
  rewrite (Unmarshal_Marshal_clean _ Hclean).
  reflexivity.
Qed.

(** ** The capture call cancelled too early, and what [Save] leaves alone *)

(** X15. Cancelled before the goroutine of [download] has started the
    capture process (and before the pipeline has delivered an error),
    [rtmpdumpCmd.Process] is still nil and the call does not return: it
    panics at the cancellation. *)
Theorem download_cancelled_before_start
    (converter : string) (w : DownloadWorld) (ctx : Context) (start tc : Z)
    (authtoken station sec bitrate output title author : string)
    (rtmp conv : Cmd) :
  downloadCmds converter w authtoken station sec bitrate output title author
  = Ok (rtmp, conv) ->
  stdoutPipe w = None ->
  done_at ctx = Some tc -> start <= tc ->
  (forall ts, process_set (processes w rtmp conv None) = Some ts -> tc < ts) ->
  (forall te e, pipeline start (processes w rtmp conv None) = Some (te, e) ->
                tc < te) ->
  download converter w ctx start authtoken station sec bitrate output title author
  = PanicsAt tc nil_dereference.
Proof.
  intros Hcmds Hpipe Hd Hle Hset Hlate. unfold download.
  rewrite Hcmds, Hpipe, Hd. cbn [from].
  replace (Z.max start tc) with tc by lia.
  assert (Hb : match process_set (processes w rtmp conv None) with
               | Some ts => ts <=? tc
               | None => false
               end = false).
  { destruct (process_set (processes w rtmp conv None)) as [ts|]; [|reflexivity].
    specialize (Hset ts eq_refl). apply Z.leb_gt. lia. }
  destruct (pipeline start (processes w rtmp conv None)) as [[te e]|] eqn:Hu.
  - specialize (Hlate te e eq_refl). cbn [fmap option_fmap option_map fst from app].
    replace (Z.max start te) with te by lia.
    rewrite select_earlier by lia. now rewrite Hb.
  - cbn [fmap option_fmap option_map from app]. rewrite select_single.
    now rewrite Hb.
Qed.

(** X16. [Save] leaves every other file alone: whatever it returns, a path
    that is neither the captured file nor one of the two files of the
    program directory holds afterwards what it held before. *)
Theorem Save_touches_three_paths
    (filepath_Join : string -> string -> string)
    (xml_Marshal : RadikoProg -> string)
    (w : SaveWorld) (fs : FS) (r : RadikoResult) (dir path : string) :
  path <> Mp3Path r ->
  path <> m4aPath filepath_Join r dir ->
  path <> xmlPath filepath_Join r dir ->
  files (fst (Save filepath_Join xml_Marshal w fs r dir)) !! path
  = files fs !! path.
Proof.
  intros H1 H2 H3. unfold Save, MkdirAll, RenameOrCopy, Create, Encode.
  destruct (mkdirAll_err w); [reflexivity|]. cbn [files dirs].
  destruct (files fs !! Mp3Path r) as [content|]; [|reflexivity].
  destruct (renameOrCopy_way w); [| |reflexivity];
    destruct (create_err w); try destruct (encode_err w) as [[n e]|];
    cbn [fst files];
    rewrite ?lookup_insert_ne by congruence;
    rewrite ?lookup_delete_ne by congruence; reflexivity.
Qed.

(** ** The further properties at work *)

Lemma run_retries_after_failure_only_witness :
  Forall (fun s => exists te ret e,
              Example2.flaky (snd s) (fst s) = Completes te ret (Some e))
    [(0, "/tmp/radicast/radiko_0.m4a")].
Proof.
  apply (run_retries_after_failure_only Example.simple_join Example.radiko
           Example.background Example2.flaky Example2.always_first 0
           [LogStartRecord 0 "/tmp/radicast/radiko_0.m4a"; LogFinished 40;
            LogGotErr 40 (ErrMsg "exit status 1"); LogRetryAfter 40 10;
            LogStartRecord 50 "/tmp/radicast/radiko_1.m4a"; LogFinished 1800]
           [(0, "/tmp/radicast/radiko_0.m4a")]
           (50, "/tmp/radicast/radiko_1.m4a")).
  - vm_compute. reflexivity.
  - reflexivity.
Defined.

Lemma run_starts_nothing_after_cancel_witness :
  exists pre e tail,
    Example4.cancelled_log = (pre ++ LogContextErr 5 e :: tail)%list
    /\ cancellations pre = []
    /\ starts tail = []
    /\ (length tail <= 1)%nat.
Proof.
  apply (run_starts_nothing_after_cancel Example.simple_join Example.radiko
           (Example.cancelled_at 5) Example3.recording Example2.always_first 0
           Example4.cancelled_log 5).
  - vm_compute. reflexivity.
  - cbn. auto.
Defined.

Lemma auth_area_before_last_two_fields_witness :
  auth Example6.four_fields = Returned (Ok ("token", "JP13,Kanto")).
Proof.
  apply (auth_area_before_last_two_fields "token" "JP13,Kanto" "tokyo" "Japan");
    reflexivity.
Defined.

Lemma lookConverterCommand_resolves_witness :
  match lookConverterCommand Example6.only_avconv with
  | Ok path =>
      match Example6.only_avconv "ffmpeg" with
      | Ok ffmpeg =>
          path = ffmpeg
          /\ Converter.newConverterCmd path "64k" Example4.output
               "Morning Show" "DJ"
             = Ok (Converter.newFfmpegCmd ffmpeg "64k" Example4.output
                     "Morning Show" "DJ")
      | Err _ =>
          Example6.only_avconv "avconv" = Ok path
          /\ Converter.newConverterCmd path "64k" Example4.output
               "Morning Show" "DJ"
             = Ok (Converter.newAvconvCmd path "64k" Example4.output)
      end
  | Err _ =>
      (exists e, Example6.only_avconv "ffmpeg" = Err e)
      /\ (exists e, Example6.only_avconv "avconv" = Err e)
  end.
Proof.
  apply (lookConverterCommand_resolves Example6.only_avconv "64k"
           Example4.output "Morning Show" "DJ").
  intros name p. unfold Example6.only_avconv.
  destruct (String.eqb_spec name "avconv") as [->|_]; [|discriminate].
  intros [= <-]. reflexivity.
Defined.

Lemma download_nil_means_clean_witness :
  exists rtmp conv t1 t2,
    downloadCmds "/usr/bin/ffmpeg" Example4.quiet "token" "TEST1" "1860" "64k"
      Example4.output "Morning Show" "DJ"
    = Ok (rtmp, conv)
    /\ stdoutPipe Example4.quiet = None
    /\ converter_Start (processes Example4.quiet rtmp conv None) = None
    /\ rtmpdump_Run (processes Example4.quiet rtmp conv None) = Some (t1, None)
    /\ converter_Wait (processes Example4.quiet rtmp conv None) = Some (t2, None)
    /\ 1800 = Z.max 0 t2.
Proof.
  apply (download_nil_means_clean "/usr/bin/ffmpeg" Example4.quiet
           Example.background 0 1800 "token" "TEST1" "1860" "64k"
           Example4.output "Morning Show" "DJ").
  vm_compute. reflexivity.
Defined.

Lemma httpDo_nil_means_done_witness :
  exists te, Example6.two_seconds None = Some (te, None) /\ 2 = Z.max 0 te.
Proof.
  apply (httpDo_nil_means_done Example.background 0 0 Example6.two_seconds 2).
  vm_compute. reflexivity.
Defined.

Lemma record_result_is_on_air_witness :
  let w := Example.world 0 40 1 true in
  w_stat w Example4.output = true
  /\ Mp3Path Example4.part = Example4.output
  /\ Station Example4.part = "TEST1"
  /\ airing Example.jst Example.half_past_noon (Prog Example4.part) = true
  /\ exists authtoken area sched,
       auth (w_auth w) = Returned (Ok (authtoken, area))
       /\ w_today w area = Ok sched
       /\ In (Prog Example4.part) (listed "TEST1" sched).
Proof.
  intros w.
  apply (record_result_is_on_air Example.jst Example.show_time Example.radiko w
           Example.background 0 Example4.output "TEST1" "64k" 60
           Example.half_past_noon 40 Example4.part
           (Some (ErrMsg "exit status 1"))).
  - reflexivity.
  - vm_compute. reflexivity.
Defined.

Lemma Duration_of_current_program_positive_witness :
  exists ft to,
    FtTime Example.jst Example.morning = Ok ft
    /\ ToTime Example.jst Example.morning = Ok to
    /\ Duration Example.jst (still Example.half_past_noon) 1 Example.morning
       = (Ok (to - Example.half_past_noon), 2%nat)
    /\ 0 < to - Example.half_past_noon <= to - ft.
Proof.
  apply (Duration_of_current_program_positive Example.jst (Ok Example.schedule)
           Example.half_past_noon "TEST1" 0 Example.morning 1).
  vm_compute. reflexivity.
Defined.

Lemma StationList_bounds_lookup_witness :
  let w := w_auth (Example.world 0 40 1 true) in
  let today := fun _ : string => Ok Example.schedule in
  exists sched,
    today "JP13" = Ok sched
    /\ ["TEST1"] = map Id (Stations_Station sched)
    /\ forall station clock tick,
         ~ In station ["TEST1"] ->
         nowProgram Example.jst (today "JP13") clock tick station
         = (Err not_found, tick).
Proof.
  intros w today.
  apply (StationList_bounds_lookup Example.jst w today "token" "JP13" ["TEST1"]).
  - vm_compute. reflexivity.
  - vm_compute. reflexivity.
Defined.

Lemma Save_then_served_witness :
  exists fs',
    Save Example.simple_join Xml.Marshal Example2.all_well Example2.captured
      Example2.first_part (Output Example6.server)
    = (fs', None)
    /\ serve_m4a Example.simple_join Example6.opens Example6.server fs'
         "20240101120000_TEST1"
       = ServeContent "podcast.m4a" "audio".
Proof.
  eexists. split; [reflexivity|].
  apply (Save_then_served Example.simple_join Xml.Marshal Example6.opens
           Example2.all_well Example2.captured _ Example2.first_part
           Example6.server "audio").
  - reflexivity.
  - discriminate.
  - discriminate.
  - discriminate.
  - reflexivity.
  - reflexivity.
Defined.

Lemma Save_then_itemByDir_witness :
  exists fs',
    Save Example.simple_join Xml.Marshal Example2.all_well Example2.captured
      Example2.first_part (Output Example6.server)
    = (fs', None)
    /\ itemByDir Example.simple_join Example6.opens Example.jst
         Example.show_time Example6.server fs' None "20240101120000_TEST1"
       = Ok {| Item_Title := "Morning Show (1704078000)";
               ITunesAuthor := "DJ";
               ITunesSummary := "";
               Enclosure_Type := "audio/mpeg";
               Enclosure_Length := 5 |}.
Proof.
  eexists. split; [reflexivity|].
  assert (Hclean : cleanProg (Prog Example2.first_part))
    by (repeat split; vm_compute; reflexivity).
  apply (Save_then_itemByDir Example.simple_join Example6.opens Example.jst
           Example.show_time Example2.all_well Example2.captured _
           Example2.first_part Example6.server "audio" Hclean).
  - reflexivity.
  - discriminate.
  - discriminate.
  - discriminate.
  - reflexivity.
  - reflexivity.
Defined.

Lemma download_cancelled_before_start_witness :
  download "/usr/bin/ffmpeg" Example6.slow (Example.cancelled_at 2) 0
    "token" "TEST1" "1860" "64k" Example4.output "Morning Show" "DJ"
  = PanicsAt 2 nil_dereference.
Proof.
  apply (download_cancelled_before_start "/usr/bin/ffmpeg" Example6.slow
           (Example.cancelled_at 2) 0 2
           "token" "TEST1" "1860" "64k" Example4.output "Morning Show" "DJ"
           Example4.rtmp Example4.conv).
  - reflexivity.
  - reflexivity.
  - reflexivity.
  - lia.
  - intros ts H. vm_compute in H. injection H as <-. lia.
  - intros te e H. vm_compute in H. injection H as <- _. lia.
Defined.

Lemma Save_touches_three_paths_witness :
  files (fst (Save Example.simple_join Xml.Marshal Example2.create_refused
                Example2.captured Example2.first_part "/var/radicast"))
  !! "/etc/hosts"
  = files Example2.captured !! "/etc/hosts".
Proof.
  apply (Save_touches_three_paths Example.simple_join Xml.Marshal
           Example2.create_refused Example2.captured Example2.first_part
           "/var/radicast" "/etc/hosts"); discriminate.
Defined.

Lemma serve_m4a_needs_both_witness :
  serve_m4a Example.simple_join Example6.opens Example6.server Example2.captured
    "20240101120000_TEST1"
  = NotFound.
Proof.
  apply (proj1 (serve_m4a_needs_both Example.simple_join Example6.opens
                  Example6.server Example2.captured "20240101120000_TEST1")).
  left. reflexivity.
Defined.
